(** * drstatecmp: detection of machine state clobbered by instrumentation

    A shallow embedding of [ext/drstatecmp/drstatecmp.c]: the side-effect
    classifier, the basic-block duplicator, the save / restore / compare
    calls placed around the two copies, and the reference-counted module
    initialisation.

    The instruction list of the framework is a doubly linked list of
    instruction objects.  Here an instruction list is a [list] of records,
    every record carrying the address of the object it stands for, and an
    [instr_t *] of the C code is such a record (or [None] for [NULL]).  An
    operation that takes a position ("insert before [where]") looks the
    address up in the list. *)

From Stdlib Require Import String ZArith Arith Bool List Lia.
Import ListNotations.

Local Open Scope Z_scope.

(* ================================================================== *)
(** * Part I: definitions                                              *)
(* ================================================================== *)

(** ** Target platforms

    The file is compiled for one of four targets ([X86] or [AARCHXX], with
    or without [X64]). *)

Inductive platform := X86_32 | X86_64 | ARM_32 | AARCH64.

(** Width of [ptr_uint_t] / [ptr_int_t] / [void *]. *)
Definition ptr_bits (p : platform) : Z :=
  match p with
  | X86_32 | ARM_32 => 32
  | X86_64 | AARCH64 => 64
  end.

Definition ptr_modulus (p : platform) : Z := 2 ^ ptr_bits p.

(** Unsigned wrap-around of pointer-sized arithmetic. *)
Definition wrap_ptr (p : platform) (z : Z) : Z := z mod ptr_modulus p.

(** The cast [(ptr_int_t)] of a [ptr_uint_t]. *)
Definition to_ptr_int (p : platform) (z : Z) : Z :=
  if z <? 2 ^ (ptr_bits p - 1) then z else z - ptr_modulus p.

(** ** Instructions *)

(** The functions the inserted clean calls invoke. *)
Inductive callee_t :=
| drstatecmp_save_state_call_fn
| drstatecmp_restore_state_call_fn
| drstatecmp_compare_state_call_fn
| foreign_callee (entry : Z).

Inductive opcode_t :=
| OP_LABEL
| OP_clean_call (callee : callee_t) (args : list Z)
| OP_other (opc : Z).

(** Modelled from the spec: [instr_t], the framework's instruction object,
    and its predicates ("writes memory", "is interrupt", "is syscall", "is
    control-transfer", "is return", "is application instruction"), declared
    in headers this file includes.  A boolean field is the answer of the
    predicate of the same name. *)
Record instr_t := mk_instr {
  instr_addr : nat;            (* the address of the object *)
  instr_opcode : opcode_t;
  instr_meta : bool;           (* set by instr_set_meta *)
  instr_note : Z;              (* instr_get_note, as an unsigned integer *)
  instr_writes_memory : bool;
  instr_is_interrupt : bool;
  instr_is_syscall : bool;
  instr_is_cti : bool;
  instr_is_return : bool
}.

(** Modelled from the spec: [instr_is_app], "is application instruction (vs.
    meta/instrumentation)". *)
Definition instr_is_app (i : instr_t) : bool := negb (instr_meta i).

(** Modelled from the spec: [instr_get_note], the query of the tag attached
    to an instruction. *)
Definition instr_get_note (i : instr_t) : Z := instr_note i.

(** Modelled from the spec: [instr_set_meta], which marks an instruction as
    instrumentation. *)
Definition instr_set_meta (i : instr_t) : instr_t :=
  mk_instr (instr_addr i) (instr_opcode i) true (instr_note i)
           (instr_writes_memory i) (instr_is_interrupt i) (instr_is_syscall i)
           (instr_is_cti i) (instr_is_return i).

(** Modelled from the spec: [instr_set_note], which attaches an opaque tag
    to an instruction. *)
Definition instr_set_note (i : instr_t) (v : Z) : instr_t :=
  mk_instr (instr_addr i) (instr_opcode i) (instr_meta i) v
           (instr_writes_memory i) (instr_is_interrupt i) (instr_is_syscall i)
           (instr_is_cti i) (instr_is_return i).

(** Modelled from the spec: the clone of one instruction, as
    [instrlist_clone] makes it: the same instruction in an object at
    another address. *)
Definition instr_at (a : nat) (i : instr_t) : instr_t :=
  mk_instr a (instr_opcode i) (instr_meta i) (instr_note i)
           (instr_writes_memory i) (instr_is_interrupt i) (instr_is_syscall i)
           (instr_is_cti i) (instr_is_return i).

(** Modelled from the spec: [INSTR_CREATE_label], which creates a
    non-executing label instruction; [a] is the address it is allocated
    at. *)
Definition INSTR_CREATE_label (a : nat) : instr_t :=
  mk_instr a OP_LABEL false 0 false false false false false.

(** Two objects hold the same instruction when they differ in their address
    only. *)
Definition same_instr (i j : instr_t) : Prop := instr_at 0 i = instr_at 0 j.

(** ** Side-effect classifier *)

(** Returns whether or not instr may have side effects. *)
Definition drstatecmp_may_have_side_effects_instr (instr : instr_t) : bool :=
  instr_writes_memory instr || instr_is_interrupt instr || instr_is_syscall instr.

(** ** Instruction lists

    The framework's list primitives, which this file calls and does not
    define.  A list holds the objects in link order.  The links of an object
    are read off the list that holds it: an object that was removed from its
    list has no successor and no predecessor. *)

Definition instrlist_t := list instr_t.

Definition same_addr (i j : instr_t) : bool :=
  Nat.eqb (instr_addr i) (instr_addr j).

(** Modelled from the spec: [instrlist_first], the first instruction of a
    block, [NULL] for an empty one. *)
Definition instrlist_first (ilist : instrlist_t) : option instr_t :=
  hd_error ilist.

(** The objects linked after [instr], in order; none when [instr] is in no
    list. *)
Fixpoint instrs_after (ilist : instrlist_t) (instr : instr_t) : instrlist_t :=
  match ilist with
  | [] => []
  | x :: rest => if same_addr x instr then rest else instrs_after rest instr
  end.

(** Modelled from the spec: [instr_get_next], the successor link of an
    instruction; [ilist] is the list that is walked. *)
Definition instr_get_next (ilist : instrlist_t) (instr : instr_t) : option instr_t :=
  hd_error (instrs_after ilist instr).

(** Modelled from the spec: [instrlist_remove], which unlinks an instruction
    from its block. *)
Fixpoint instrlist_remove (ilist : instrlist_t) (instr : instr_t) : instrlist_t :=
  match ilist with
  | [] => []
  | x :: rest =>
      if same_addr x instr then rest else x :: instrlist_remove rest instr
  end.

(** [inst] linked in front of [where_], an instruction of the list.  The
    reference instruction is one of the list wherever this file inserts (the
    first instruction, the last application instruction, a label it has put
    in).  With a reference instruction that is in no list the framework
    relinks the head of the block, which a list in link order does not
    show: the list is then returned as it is.  The transform never inserts
    that way, and no property of it below rests on that case. *)
Fixpoint insert_before (ilist : instrlist_t) (where_ inst : instr_t) : instrlist_t :=
  match ilist with
  | [] => []
  | x :: rest =>
      if same_addr x where_ then inst :: x :: rest
      else x :: insert_before rest where_ inst
  end.

(** [inst] linked behind [where_], an instruction of the list; the same
    holds for a reference instruction that is in no list (the framework
    then relinks the tail of the block). *)
Fixpoint insert_after (ilist : instrlist_t) (where_ inst : instr_t) : instrlist_t :=
  match ilist with
  | [] => []
  | x :: rest =>
      if same_addr x where_ then x :: inst :: rest
      else x :: insert_after rest where_ inst
  end.

(** Modelled from the spec: [instrlist_preinsert], insertion immediately
    before a reference instruction.  With no reference instruction the new
    one goes to the end of the list. *)
Definition instrlist_preinsert (ilist : instrlist_t) (where_ : option instr_t)
    (inst : instr_t) : instrlist_t :=
  match where_ with
  | None => ilist ++ [inst]
  | Some w => insert_before ilist w inst
  end.

(** Modelled from the spec: [instrlist_postinsert], insertion immediately
    after a reference instruction.  With no reference instruction the new
    one goes to the front of the list. *)
Definition instrlist_postinsert (ilist : instrlist_t) (where_ : option instr_t)
    (inst : instr_t) : instrlist_t :=
  match where_ with
  | None => inst :: ilist
  | Some w => insert_after ilist w inst
  end.

(** Modelled from the spec: [instrlist_meta_preinsert], [instrlist_preinsert]
    of an instruction marked as instrumentation. *)
Definition instrlist_meta_preinsert (ilist : instrlist_t) (where_ : option instr_t)
    (inst : instr_t) : instrlist_t :=
  instrlist_preinsert ilist where_ (instr_set_meta inst).

(** Modelled from the spec: [instrlist_meta_postinsert],
    [instrlist_postinsert] of an instruction marked as instrumentation. *)
Definition instrlist_meta_postinsert (ilist : instrlist_t) (where_ : option instr_t)
    (inst : instr_t) : instrlist_t :=
  instrlist_postinsert ilist where_ (instr_set_meta inst).

(** Modelled from the spec: [instrlist_append], which links [inst] and
    everything chained behind it to the end of the list; [src] is the list
    that holds [inst]. *)
Definition instrlist_append (ilist src : instrlist_t) (inst : instr_t) : instrlist_t :=
  ilist ++ inst :: instrs_after src inst.

(** Modelled from the spec: [instrlist_clone], the full clone of a block:
    the same instructions in objects allocated from address [a] on. *)
Fixpoint instrlist_clone (a : nat) (ilist : instrlist_t) : instrlist_t :=
  match ilist with
  | [] => []
  | x :: rest => instr_at a x :: instrlist_clone (S a) rest
  end.

(** Modelled from the spec: [instrlist_first_app], the first application
    instruction of a block, [NULL] when it has none. *)
Definition instrlist_first_app (ilist : instrlist_t) : option instr_t :=
  find instr_is_app ilist.

(** Modelled from the spec: [instr_get_next_app], the next application
    instruction after [instr], [NULL] when there is none. *)
Definition instr_get_next_app (ilist : instrlist_t) (instr : instr_t) : option instr_t :=
  find instr_is_app (instrs_after ilist instr).

(** Modelled from the spec: [instrlist_last_app], the last application
    instruction of a block, [NULL] when it has none. *)
Fixpoint instrlist_last_app (ilist : instrlist_t) : option instr_t :=
  match ilist with
  | [] => None
  | x :: rest =>
      match instrlist_last_app rest with
      | Some y => Some y
      | None => if instr_is_app x then Some x else None
      end
  end.

(** Modelled from the spec: [dr_insert_clean_call], the framework's
    invisible-call insertion.  The call sequence is one meta instruction
    placed before [where]; [a] is the address it is allocated at. *)
Definition dr_insert_clean_call (a : nat) (ilist : instrlist_t) (where_ : instr_t)
    (callee : callee_t) (args : list Z) : instrlist_t :=
  instrlist_meta_preinsert ilist (Some where_)
    (mk_instr a (OP_clean_call callee args) false 0 false false false false false).

(** ** Outcomes

    The C code can dereference [NULL]; a loop of the model that runs out of
    its iteration budget is kept apart from that. *)
Inductive outcome (A : Type) :=
| Done (a : A)
| NullDeref
| OutOfFuel.
Arguments Done {A} a.
Arguments NullDeref {A}.
Arguments OutOfFuel {A}.

(** ** Labels *)

(** Label types. *)
Inductive drstatecmp_label_t :=
| DRSTATECMP_LABEL_TERM     (* Denotes the terminator of the original bb. *)
| DRSTATECMP_LABEL_ORIG_BB  (* Denotes the beginning of the original bb. *)
| DRSTATECMP_LABEL_COPY_BB. (* Denotes the beginning of the bb copy. *)

Definition label_index (label_type : drstatecmp_label_t) : Z :=
  match label_type with
  | DRSTATECMP_LABEL_TERM => 0
  | DRSTATECMP_LABEL_ORIG_BB => 1
  | DRSTATECMP_LABEL_COPY_BB => 2
  end.

Definition DRSTATECMP_LABEL_COUNT : Z := 3.

Record drstatecmp_dup_labels_t := mk_labels {
  orig_bb_start : instr_t;
  copy_bb_start : instr_t;
  term : instr_t
}.

Section Transform.

Variable plat : platform.
(** The base of the reserved note range, a [ptr_uint_t]. *)
Variable label_base : Z.

(** Get label values. *)
Definition get_label_val (label_type : drstatecmp_label_t) : Z :=
  to_ptr_int plat (wrap_ptr plat (label_base + label_index label_type)).

(** Compare instr label against a label_type.  The note and the label
    value are compared as [void *]. *)
Definition match_label_val (instr : instr_t) (label_type : drstatecmp_label_t) : bool :=
  instr_get_note instr =? wrap_ptr plat (get_label_val label_type).

(** Create and insert bb labels.  [a] is the address the label is
    allocated at. *)
Definition drstatecmp_insert_label (a : nat) (ilist : instrlist_t)
    (where_ : option instr_t) (label_type : drstatecmp_label_t)
    (preinsert : bool) : instrlist_t * instr_t :=
  let label := INSTR_CREATE_label a in
  let label := instr_set_meta label in
  let label := instr_set_note label (wrap_ptr plat (get_label_val label_type)) in
  (if preinsert then instrlist_meta_preinsert ilist where_ label
   else instrlist_meta_postinsert ilist where_ label,
   label).

(** The loop that removes the instrumentation from the bb copy:
[[
  for (instr = instrlist_first(copy_bb); instr != NULL;
       instr = instr_get_next(instr)) {
      if (!instr_is_app(instr)) {
          instrlist_remove(copy_bb, instr);
          instr_destroy(drcontext, instr);
      }
  }
]]
    The step [instr_get_next(instr)] is taken after the body, from the
    object the body may have removed and destroyed; what is read there is
    the link of an object that is in no list. *)
Fixpoint strip_loop (fuel : nat) (copy_bb : instrlist_t) (instr : option instr_t)
    : outcome instrlist_t :=
  match instr with
  | None => Done copy_bb
  | Some i =>
      match fuel with
      | O => OutOfFuel
      | S fuel' =>
          let copy_bb' :=
            if negb (instr_is_app i) then instrlist_remove copy_bb i else copy_bb in
          strip_loop fuel' copy_bb' (instr_get_next copy_bb' i)
      end
  end.

Definition strip_copy (copy_bb : instrlist_t) : outcome instrlist_t :=
  strip_loop (S (length copy_bb)) copy_bb (instrlist_first copy_bb).

(** [drstatecmp_duplicate_bb].  [brk] is the next free address of the
    allocator behind [drcontext]; the result is the new [bb], the labels
    and the allocator's next free address. *)
Definition drstatecmp_duplicate_bb (brk : nat) (bb : instrlist_t)
    : outcome (instrlist_t * drstatecmp_dup_labels_t * nat) :=
  (* Create a clone of bb. *)
  let copy_bb := instrlist_clone brk bb in
  let brk := (brk + length bb)%nat in
  (* Remove all instrumentation code in the bb copy. *)
  match strip_copy copy_bb with
  | NullDeref => NullDeref
  | OutOfFuel => OutOfFuel
  | Done copy_bb =>
      (* Create and insert the labels. *)
      let '(bb, l_orig) :=
        drstatecmp_insert_label brk bb (instrlist_first bb)
                                DRSTATECMP_LABEL_ORIG_BB true in
      let '(copy_bb, l_copy) :=
        drstatecmp_insert_label (S brk) copy_bb (instrlist_first copy_bb)
                                DRSTATECMP_LABEL_COPY_BB true in
      (* Insert the TERM label before the terminating instruction or after
         the last instruction if the bb falls through. *)
      match instrlist_last_app copy_bb with
      | None => NullDeref         (* instr_is_cti(NULL) *)
      | Some term_inst_copy_bb =>
          let preinsert :=
            if negb (instr_is_cti term_inst_copy_bb) &&
               negb (instr_is_return term_inst_copy_bb)
            then false else true in
          let '(copy_bb, l_term) :=
            drstatecmp_insert_label (S (S brk)) copy_bb (Some term_inst_copy_bb)
                                    DRSTATECMP_LABEL_TERM preinsert in
          (* Delete the terminating instruction of the original bb (if
             any) to let the original bb fall through to its copy. *)
          match instrlist_last_app bb with
          | None => NullDeref     (* instr_is_cti(NULL) *)
          | Some term_inst =>
              let bb :=
                if instr_is_cti term_inst || instr_is_return term_inst
                then instrlist_remove bb term_inst else bb in
              (* Append the instructions of the bb copy to the original bb. *)
              let bb := instrlist_append bb copy_bb l_copy in
              Done (bb, mk_labels l_orig l_copy l_term, S (S (S brk)))
          end
      end
  end.

Definition drstatecmp_save_state (a : nat) (bb : instrlist_t) (instr : instr_t)
    (for_cmp : bool) : instrlist_t :=
  dr_insert_clean_call a bb instr drstatecmp_save_state_call_fn
                       [if for_cmp then 1 else 0].

Definition drstatecmp_restore_state (a : nat) (bb : instrlist_t) (instr : instr_t)
    : instrlist_t :=
  dr_insert_clean_call a bb instr drstatecmp_restore_state_call_fn [].

Definition drstatecmp_compare_state (a : nat) (bb : instrlist_t) (instr : instr_t)
    : instrlist_t :=
  dr_insert_clean_call a bb instr drstatecmp_compare_state_call_fn [].

Definition drstatecmp_check_reexecution (brk : nat) (bb : instrlist_t)
    (labels : drstatecmp_dup_labels_t) : instrlist_t :=
  (* Save state at the beginning of the original bb. *)
  let bb := drstatecmp_save_state brk bb (orig_bb_start labels) false in
  (* Save the state at the end of the original bb for later comparison and
     restore the machine state to the state before the original bb. *)
  let bb := drstatecmp_save_state (S brk) bb (copy_bb_start labels) true in
  let bb := drstatecmp_restore_state (S (S brk)) bb (copy_bb_start labels) in
  (* Compare the state at the end of the copy bb with the saved state. *)
  drstatecmp_compare_state (S (S (S brk))) bb (term labels).

Definition drstatecmp_post_process_side_effect_free_bb (brk : nat)
    (bb : instrlist_t) : outcome instrlist_t :=
  match drstatecmp_duplicate_bb brk bb with
  | Done (bb, labels, brk) => Done (drstatecmp_check_reexecution brk bb labels)
  | NullDeref => NullDeref
  | OutOfFuel => OutOfFuel
  end.

(** TODO i#4678: Add checks for bbs with side effects. *)
Definition drstatecmp_post_process_bb_with_side_effects (bb : instrlist_t)
    : instrlist_t := bb.

(** The loop that decides whether the basic block is free of side effects:
[[
  for (inst = instrlist_first_app(bb); inst != NULL;
       inst = instr_get_next_app(inst)) {
      if (drstatecmp_may_have_side_effects_instr(inst)) {
          side_effect_free = false;
          break;
      }
  }
]] *)
Fixpoint side_effect_loop (fuel : nat) (bb : instrlist_t) (inst : option instr_t)
    : outcome bool :=
  match inst with
  | None => Done true
  | Some i =>
      match fuel with
      | O => OutOfFuel
      | S fuel' =>
          if drstatecmp_may_have_side_effects_instr i then Done false
          else side_effect_loop fuel' bb (instr_get_next_app bb i)
      end
  end.

Definition side_effect_free (bb : instrlist_t) : outcome bool :=
  side_effect_loop (S (length bb)) bb (instrlist_first_app bb).

(** [drstatecmp_post_instru_phase]: the block as it leaves the event. *)
Definition drstatecmp_post_instru_phase (brk : nat) (bb : instrlist_t)
    : outcome instrlist_t :=
  match side_effect_free bb with
  | Done true => drstatecmp_post_process_side_effect_free_bb brk bb
  | Done false => Done (drstatecmp_post_process_bb_with_side_effects bb)
  | NullDeref => NullDeref
  | OutOfFuel => OutOfFuel
  end.

End Transform.

(** ** Machine state and its comparison *)

(** Modelled from the spec: [dr_mcontext_t], the framework's machine-state
    snapshot, declared in a header this file includes.  A register field is
    looked up by the name it has in the C structure ([mc->xdi] is
    [mc_reg mc "xdi"]); an operand-mask slot by its index; a byte of a
    vector slot by the slot's index and the byte's offset. *)
Record dr_mcontext_t := mk_mcontext {
  mc_size : Z;
  mc_flags : Z;
  mc_reg : string -> Z;
  mc_opmask : nat -> Z;
  mc_simd : nat -> nat -> Z
}.

Record drstatecmp_saved_states := mk_saved_states {
  saved_state_for_restore : dr_mcontext_t; (* Last saved machine state for restoration. *)
  saved_state_for_cmp : dr_mcontext_t      (* Last saved machine state for comparison. *)
}.

(** What a checked statement comes to: it holds ([None]), or it reports a
    message and ends the run ([Some msg]). *)
Definition assertion := option string.

(** Modelled from the spec: [DR_ASSERT_MSG], the framework's assertion,
    which reports its message immediately and is fatal when the condition
    fails. *)
Definition DR_ASSERT_MSG (x : bool) (msg : string) : assertion :=
  if x then None else Some msg.

(** Sequencing of statements that may end the run. *)
Definition and_then (a b : assertion) : assertion :=
  match a with
  | None => b
  | Some msg => Some msg
  end.

Notation "a ;; b" := (and_then a b) (at level 61, right associativity).

(** [for (int i = from; i < from + n; i++) body(i)]. *)
Fixpoint for_loop (n from : nat) (body : nat -> assertion) : assertion :=
  match n with
  | O => None
  | S n' => body from ;; for_loop n' (S from) body
  end.

(** [memcmp] over [n] bytes: the sign of the first difference. *)
Fixpoint memcmp_from (a b : nat -> Z) (off n : nat) : Z :=
  match n with
  | O => 0
  | S n' =>
      if a off =? b off then memcmp_from a b (S off) n'
      else if a off <? b off then -1 else 1
  end.

Definition memcmp (a b : nat -> Z) (n : nat) : Z := memcmp_from a b 0 n.

Definition is_x86 (p : platform) : bool :=
  match p with X86_32 | X86_64 => true | _ => false end.

Definition is_x64 (p : platform) : bool :=
  match p with X86_64 | AARCH64 => true | _ => false end.

Section Compare.

Local Open Scope string_scope.
Local Open Scope list_scope.
Local Open Scope Z_scope.

Variable plat : platform.
(** Constants of the framework's headers. *)
Variable MCXT_NUM_SIMD_SLOTS : nat.
Variable MCXT_NUM_OPMASK_SLOTS : nat.
Variable sizeof_simd : nat.       (* sizeof(dr_zmm_t) or sizeof(dr_simd_t) *)
Variable sizeof_mcontext : Z.     (* sizeof(dr_mcontext_t) *)
Variable DR_MC_ALL : Z.

Definition drstatecmp_check_gpr_value (name : string) (reg_value reg_expected : Z)
    : assertion :=
  DR_ASSERT_MSG (reg_value =? reg_expected) name.

Definition drstatecmp_check_xflags_value (name : string) (reg_value reg_expected : Z)
    : assertion :=
  DR_ASSERT_MSG (reg_value =? reg_expected) name.

Definition drstatecmp_check_simd_value (value expected : nat -> Z) : assertion :=
  DR_ASSERT_MSG (memcmp value expected sizeof_simd =? 0) "SIMD mismatch".

Definition drstatecmp_check_opmask_value (opmask_value opmask_expected : Z)
    : assertion :=
  DR_ASSERT_MSG (opmask_value =? opmask_expected) "opmask mismatch".

(** Modelled from the spec: [dr_get_mcontext] with [DR_MC_ALL], the
    framework's snapshot primitive: every register of the live state
    [live] is stored in the structure, whose [size] and [flags] the caller
    has set. *)
Definition dr_get_mcontext (live mc : dr_mcontext_t) : dr_mcontext_t :=
  mk_mcontext (mc_size mc) (mc_flags mc) (mc_reg live) (mc_opmask live)
              (mc_simd live).

(** Modelled from the spec: [dr_set_mcontext] with [DR_MC_ALL], the
    framework's restore primitive: the live state takes every register of
    the structure. *)
Definition dr_set_mcontext (live mc : dr_mcontext_t) : dr_mcontext_t :=
  mk_mcontext (mc_size live) (mc_flags live) (mc_reg mc) (mc_opmask mc)
              (mc_simd mc).

(** [drstatecmp_save_state_call]; [pt] is the thread's saved-state pair,
    [live] the machine state at the call.  The result is the pair after the
    call. *)
Definition drstatecmp_save_state_call (for_cmp : Z) (pt : drstatecmp_saved_states)
    (live : dr_mcontext_t) : drstatecmp_saved_states :=
  if negb (for_cmp =? 0) then
    let mcontext := saved_state_for_cmp pt in
    let mcontext :=
      mk_mcontext sizeof_mcontext DR_MC_ALL (mc_reg mcontext) (mc_opmask mcontext)
                  (mc_simd mcontext) in
    mk_saved_states (saved_state_for_restore pt) (dr_get_mcontext live mcontext)
  else
    let mcontext := saved_state_for_restore pt in
    let mcontext :=
      mk_mcontext sizeof_mcontext DR_MC_ALL (mc_reg mcontext) (mc_opmask mcontext)
                  (mc_simd mcontext) in
    mk_saved_states (dr_get_mcontext live mcontext) (saved_state_for_cmp pt).

(** [drstatecmp_restore_state_call]: the pair and the machine state after
    the call. *)
Definition drstatecmp_restore_state_call (pt : drstatecmp_saved_states)
    (live : dr_mcontext_t) : drstatecmp_saved_states * dr_mcontext_t :=
  let mcontext := saved_state_for_restore pt in
  let mcontext :=
    mk_mcontext sizeof_mcontext DR_MC_ALL (mc_reg mcontext) (mc_opmask mcontext)
                (mc_simd mcontext) in
  (mk_saved_states mcontext (saved_state_for_cmp pt), dr_set_mcontext live mcontext).

(** [drstatecmp_compare_state_call]; [pt] is the thread's saved-state pair,
    [live] the machine state at the call. *)
Definition drstatecmp_compare_state_call (pt : drstatecmp_saved_states)
    (live : dr_mcontext_t) : assertion :=
  let mc_instrumented := saved_state_for_cmp pt in
  let mc_expected :=
    dr_get_mcontext live
      (mk_mcontext sizeof_mcontext DR_MC_ALL (fun _ => 0) (fun _ => 0)
                   (fun _ _ => 0)) in
  let gpr name :=
    drstatecmp_check_gpr_value name (mc_reg mc_instrumented name)
                               (mc_reg mc_expected name) in
  (if is_x86 plat then
     gpr "xdi" ;; gpr "xsi" ;; gpr "xbp" ;;
     gpr "xax" ;; gpr "xbx" ;; gpr "xcx" ;; gpr "xdx" ;;
     (if is_x64 plat then
        gpr "r8" ;; gpr "r9" ;; gpr "r10" ;; gpr "r11" ;;
        gpr "r12" ;; gpr "r13" ;; gpr "r14" ;; gpr "r15"
      else None) ;;
     gpr "xflags" ;;
     for_loop MCXT_NUM_OPMASK_SLOTS 0 (fun i =>
       drstatecmp_check_opmask_value (mc_opmask mc_instrumented i)
                                     (mc_opmask mc_expected i))
   else
     gpr "r0" ;; gpr "r1" ;; gpr "r2" ;; gpr "r3" ;; gpr "r4" ;;
     gpr "r5" ;; gpr "r6" ;; gpr "r7" ;; gpr "r8" ;; gpr "r9" ;;
     gpr "r10" ;; gpr "r11" ;; gpr "r12" ;;
     (if is_x64 plat then
        gpr "r13" ;; gpr "r14" ;; gpr "r15" ;; gpr "r16" ;; gpr "r17" ;;
        gpr "r18" ;; gpr "r19" ;; gpr "r20" ;; gpr "r21" ;; gpr "r22" ;;
        gpr "r23" ;; gpr "r24" ;; gpr "r25" ;; gpr "r26" ;; gpr "r27" ;;
        gpr "r28" ;; gpr "r29"
      else None) ;;
     gpr "lr" ;;
     drstatecmp_check_xflags_value "xflags" (mc_reg mc_instrumented "xflags")
                                   (mc_reg mc_expected "xflags")) ;;
  gpr "xsp" ;;
  for_loop MCXT_NUM_SIMD_SLOTS 0 (fun i =>
    drstatecmp_check_simd_value (mc_simd mc_instrumented i) (mc_simd mc_expected i)).

(** The fields of the snapshot, and the order the comparison visits them
    in. *)
Inductive mc_field :=
| REG (name : string)
| OPMASK (i : nat)
| SIMD (i : nat).

Definition x86_regs : list string :=
  ["xdi"; "xsi"; "xbp"; "xax"; "xbx"; "xcx"; "xdx"]%string.
Definition x86_64_regs : list string :=
  ["r8"; "r9"; "r10"; "r11"; "r12"; "r13"; "r14"; "r15"]%string.
Definition arm_regs : list string :=
  ["r0"; "r1"; "r2"; "r3"; "r4"; "r5"; "r6"; "r7"; "r8"; "r9"; "r10"; "r11";
   "r12"]%string.
Definition aarch64_regs : list string :=
  ["r13"; "r14"; "r15"; "r16"; "r17"; "r18"; "r19"; "r20"; "r21"; "r22";
   "r23"; "r24"; "r25"; "r26"; "r27"; "r28"; "r29"]%string.

Definition compared_fields : list mc_field :=
  (if is_x86 plat then
     map REG x86_regs ++
     (if is_x64 plat then map REG x86_64_regs else []) ++
     [REG "xflags"] ++
     map OPMASK (seq 0 MCXT_NUM_OPMASK_SLOTS)
   else
     map REG arm_regs ++
     (if is_x64 plat then map REG aarch64_regs else []) ++
     [REG "lr"; REG "xflags"]) ++
  [REG "xsp"] ++
  map SIMD (seq 0 MCXT_NUM_SIMD_SLOTS).

(** Two snapshots agree on a field. *)
Definition field_agrees (a b : dr_mcontext_t) (f : mc_field) : Prop :=
  match f with
  | REG name => mc_reg a name = mc_reg b name
  | OPMASK i => mc_opmask a i = mc_opmask b i
  | SIMD i => forall off, (off < sizeof_simd)%nat -> mc_simd a i off = mc_simd b i off
  end.

(** What the assertion of a field says when it fails. *)
Definition field_message (f : mc_field) : string :=
  match f with
  | REG name => name
  | OPMASK _ => "opmask mismatch"
  | SIMD _ => "SIMD mismatch"
  end.

(** The assertion the comparison makes about one field. *)
Definition check_field (a b : dr_mcontext_t) (f : mc_field) : assertion :=
  match f with
  | REG name => drstatecmp_check_gpr_value name (mc_reg a name) (mc_reg b name)
  | OPMASK i => drstatecmp_check_opmask_value (mc_opmask a i) (mc_opmask b i)
  | SIMD i => drstatecmp_check_simd_value (mc_simd a i) (mc_simd b i)
  end.

(** A sequence of assertions: the first that fails ends the run. *)
Fixpoint all_of (l : list assertion) : assertion :=
  match l with
  | [] => None
  | a :: rest => a ;; all_of rest
  end.

(** The general-purpose registers of the target, by the names of their
    fields in the snapshot (the stack pointer is [xsp], the link register
    of the ARM targets [lr]). *)
Definition platform_gprs : list string :=
  match plat with
  | X86_32 => ["xax"; "xbx"; "xcx"; "xdx"; "xsi"; "xdi"; "xbp"; "xsp"]
  | X86_64 => ["xax"; "xbx"; "xcx"; "xdx"; "xsi"; "xdi"; "xbp"; "xsp";
               "r8"; "r9"; "r10"; "r11"; "r12"; "r13"; "r14"; "r15"]
  | ARM_32 => ["r0"; "r1"; "r2"; "r3"; "r4"; "r5"; "r6"; "r7"; "r8"; "r9";
               "r10"; "r11"; "r12"; "xsp"; "lr"]
  | AARCH64 => ["r0"; "r1"; "r2"; "r3"; "r4"; "r5"; "r6"; "r7"; "r8"; "r9";
                "r10"; "r11"; "r12"; "r13"; "r14"; "r15"; "r16"; "r17"; "r18";
                "r19"; "r20"; "r21"; "r22"; "r23"; "r24"; "r25"; "r26"; "r27";
                "r28"; "r29"; "lr"; "xsp"]
  end%string.

(** The claim that a mismatch is reported under a name that tells the
    field: whenever exactly the field [f] diverges, the report is
    [name f]. *)
Definition reports_by_name (name : mc_field -> string) : Prop :=
  forall pt live f,
    In f compared_fields ->
    ~ field_agrees (saved_state_for_cmp pt) live f ->
    (forall g, g <> f -> field_agrees (saved_state_for_cmp pt) live g) ->
    drstatecmp_compare_state_call pt live = Some (name f).

End Compare.

(** Sample machine states: all registers zero, and the same with one byte of
    one vector slot set. *)
Definition mc_zero : dr_mcontext_t :=
  mk_mcontext 0 0 (fun _ => 0) (fun _ => 0) (fun _ _ => 0).

Definition mc_simd_byte (slot : nat) : dr_mcontext_t :=
  mk_mcontext 0 0 (fun _ => 0) (fun _ => 0)
    (fun i off => if (Nat.eqb i slot && Nat.eqb off 0)%bool then 1 else 0).

(** The same with one register set. *)
Definition mc_reg_set (name : string) (v : Z) : dr_mcontext_t :=
  mk_mcontext 0 0 (fun n => if String.eqb n name then v else 0) (fun _ => 0)
    (fun _ _ => 0).

(** ** Module initialisation and exit *)

Inductive drstatecmp_status_t :=
| DRSTATECMP_SUCCESS
| DRSTATECMP_ERROR
| DRSTATECMP_ERROR_ALREADY_INITIALIZED
| DRSTATECMP_ERROR_NOT_INITIALIZED.

(** Modelled from the spec: the host framework's registration services
    ([drmgr_init], [drmgr_register_tls_field], [drmgr_reserve_note_range],
    the event registrations and their inverses), which this file calls and
    does not define.  A call is recorded in the order it is made; what it
    returns is the framework's business and is given by [framework_t]. *)
Inductive framework_call :=
| drmgr_init
| drmgr_register_tls_field
| drmgr_reserve_note_range (n : Z)
| drmgr_register_thread_init_event
| drmgr_register_thread_exit_event
| drmgr_register_bb_post_instru_event
| drmgr_unregister_thread_init_event
| drmgr_unregister_thread_exit_event
| drmgr_unregister_tls_field (idx : Z)
| drmgr_unregister_bb_post_instru_event
| drmgr_exit.

(** Modelled from the spec: what the framework answers to each registration
    call, and whether the build defines [DEBUG]. *)
Record framework_t := mk_framework {
  fw_tls_field : Z;                 (* drmgr_register_tls_field(); -1 on failure *)
  fw_note_range : Z;                (* drmgr_reserve_note_range(); DRMGR_NOTE_NONE on failure *)
  fw_register_thread_init : bool;
  fw_register_thread_exit : bool;
  fw_register_bb_post_instru : bool;
  fw_unregister_thread_init : bool;
  fw_unregister_thread_exit : bool;
  fw_unregister_tls_field : bool;
  fw_unregister_bb_post_instru : bool;
  fw_DEBUG : bool                   (* the build defines DEBUG *)
}.

(** Modelled from the spec: [DRMGR_NOTE_NONE], the value
    [drmgr_reserve_note_range] returns when the marker namespace is
    exhausted. *)
Definition DRMGR_NOTE_NONE : Z := 0.

(** The file's static variables, and the framework calls made so far. *)
Record module_state := mk_module {
  drstatecmp_init_count : Z;        (* int *)
  tls_idx : Z;                      (* int, -1 at load *)
  label_base : Z;                   (* ptr_uint_t *)
  calls : list framework_call
}.

Definition module_at_load : module_state := mk_module 0 (-1) 0 [].

(** What a call into the module comes to. *)
Inductive call_result :=
| Returned (status : drstatecmp_status_t)
| AssertFailed (msg : string).

(** Wrap-around of [int]. *)
Definition wrap_int32 (z : Z) : Z := (z + 2 ^ 31) mod 2 ^ 32 - 2 ^ 31.

(** Modelled from the spec: [dr_atomic_add32_return_sum], the framework's
    atomic add: one indivisible step that adds to the counter and returns
    the sum. *)
Definition dr_atomic_add32_return_sum (st : module_state) (val : Z)
    : Z * module_state :=
  let sum := wrap_int32 (drstatecmp_init_count st + val) in
  (sum, mk_module sum (tls_idx st) (label_base st) (calls st)).

Definition record_call (st : module_state) (c : framework_call) : module_state :=
  mk_module (drstatecmp_init_count st) (tls_idx st) (label_base st) (calls st ++ [c]).

Definition set_tls_idx (st : module_state) (v : Z) : module_state :=
  mk_module (drstatecmp_init_count st) v (label_base st) (calls st).

Definition set_label_base (st : module_state) (v : Z) : module_state :=
  mk_module (drstatecmp_init_count st) (tls_idx st) v (calls st).

Section Lifecycle.

Local Open Scope string_scope.
Local Open Scope Z_scope.

Variable fw : framework_t.

(** Reserve space for the label values.  [ASSERT] is [DR_ASSERT_MSG] in a
    build with [DEBUG] and nothing otherwise. *)
Definition drstatecmp_label_init (st : module_state) : assertion * module_state :=
  let st := record_call st (drmgr_reserve_note_range DRSTATECMP_LABEL_COUNT) in
  let st := set_label_base st (fw_note_range fw) in
  (if fw_DEBUG fw
   then DR_ASSERT_MSG (negb (label_base st =? DRMGR_NOTE_NONE))
                      "failed to reserve note space"
   else None,
   st).

Definition drstatecmp_init (st : module_state) : call_result * module_state :=
  let '(count, st) := dr_atomic_add32_return_sum st 1 in
  if negb (count =? 1) then (Returned DRSTATECMP_ERROR_ALREADY_INITIALIZED, st)
  else
    let st := record_call st drmgr_init in
    let st := record_call st drmgr_register_tls_field in
    let st := set_tls_idx st (fw_tls_field fw) in
    if tls_idx st =? -1 then (Returned DRSTATECMP_ERROR, st)
    else
      match drstatecmp_label_init st with
      | (Some msg, st) => (AssertFailed msg, st)
      | (None, st) =>
          let st := record_call st drmgr_register_thread_init_event in
          if negb (fw_register_thread_init fw) then (Returned DRSTATECMP_ERROR, st)
          else
            let st := record_call st drmgr_register_thread_exit_event in
            if negb (fw_register_thread_exit fw) then (Returned DRSTATECMP_ERROR, st)
            else
              let st := record_call st drmgr_register_bb_post_instru_event in
              if negb (fw_register_bb_post_instru fw)
              then (Returned DRSTATECMP_ERROR, st)
              else (Returned DRSTATECMP_SUCCESS, st)
      end.

Definition drstatecmp_exit (st : module_state) : call_result * module_state :=
  let '(count, st) := dr_atomic_add32_return_sum st (-1) in
  if negb (count =? 0) then (Returned DRSTATECMP_ERROR_NOT_INITIALIZED, st)
  else
    let st := record_call st drmgr_unregister_thread_init_event in
    if negb (fw_unregister_thread_init fw) then (Returned DRSTATECMP_ERROR, st)
    else
      let st := record_call st drmgr_unregister_thread_exit_event in
      if negb (fw_unregister_thread_exit fw) then (Returned DRSTATECMP_ERROR, st)
      else
        let st := record_call st (drmgr_unregister_tls_field (tls_idx st)) in
        if negb (fw_unregister_tls_field fw) then (Returned DRSTATECMP_ERROR, st)
        else
          let st := record_call st drmgr_unregister_bb_post_instru_event in
          if negb (fw_unregister_bb_post_instru fw)
          then (Returned DRSTATECMP_ERROR, st)
          else
            let st := record_call st drmgr_exit in
            (Returned DRSTATECMP_SUCCESS, st).

End Lifecycle.

(** A framework in which every registration succeeds. *)
Definition fw_ok : framework_t :=
  mk_framework 0 4096 true true true true true true true true.

(** ** Notions the properties are stated with *)

Definition addrs (ilist : instrlist_t) : list nat := map instr_addr ilist.

Fixpoint distinct (l : list nat) : bool :=
  match l with
  | [] => true
  | a :: rest => negb (existsb (Nat.eqb a) rest) && distinct rest
  end.

(** A block as the framework hands it over: its objects lie at distinct
    addresses, all below the allocator's next free address [brk]. *)
Definition wf_block (brk : nat) (bb : instrlist_t) : bool :=
  distinct (addrs bb) && forallb (fun i => Nat.ltb (instr_addr i) brk) bb.

(** The objects of a list lie at distinct addresses, all of them accepted
    by [ok]. *)
Definition addrs_ok (ok : nat -> Prop) (l : instrlist_t) : Prop :=
  NoDup (addrs l) /\ forall a, In a (addrs l) -> ok a.

(** The list without its first meta instruction. *)
Fixpoint remove_first_meta (ilist : instrlist_t) : instrlist_t :=
  match ilist with
  | [] => []
  | x :: rest => if instr_is_app x then x :: remove_first_meta rest else rest
  end.

Definition app_instrs (ilist : instrlist_t) : instrlist_t :=
  filter instr_is_app ilist.

Definition is_transfer (i : instr_t) : bool :=
  instr_is_cti i || instr_is_return i.

(** The application instructions that transfer control. *)
Definition app_transfers (ilist : instrlist_t) : instrlist_t :=
  filter (fun i => instr_is_app i && is_transfer i) ilist.

(** The instructions of a list, without the addresses of their objects. *)
Definition contents (ilist : instrlist_t) : instrlist_t :=
  map (instr_at 0) ilist.

Definition is_drstatecmp_callee (c : callee_t) : bool :=
  match c with
  | foreign_callee _ => false
  | _ => true
  end.

(** The clean calls into this module that a list holds, in list order: the
    order they run in when the list is executed from its first instruction
    to its last. *)
Fixpoint drstatecmp_calls (ilist : instrlist_t) : list (callee_t * list Z) :=
  match ilist with
  | [] => []
  | x :: rest =>
      match instr_opcode x with
      | OP_clean_call c args =>
          if is_drstatecmp_callee c then (c, args) :: drstatecmp_calls rest
          else drstatecmp_calls rest
      | _ => drstatecmp_calls rest
      end
  end.


Definition label_eqb (k1 k2 : drstatecmp_label_t) : bool :=
  label_index k1 =? label_index k2.




(** The label object the duplicator creates at address [a]. *)
Definition label_instr (plat : platform) (base : Z) (a : nat)
    (t : drstatecmp_label_t) : instr_t :=
  mk_instr a OP_LABEL true (wrap_ptr plat (get_label_val plat base t))
           false false false false false.

(** The clean-call object [dr_insert_clean_call] creates at address [a]. *)
Definition clean_call_instr (a : nat) (callee : callee_t) (args : list Z) : instr_t :=
  mk_instr a (OP_clean_call callee args) true 0 false false false false false.

(** No application instruction of the block may have side effects. *)
Definition app_side_effect_free (bb : instrlist_t) : bool :=
  forallb (fun i => negb (drstatecmp_may_have_side_effects_instr i)) (app_instrs bb).

(** A clean call into this module. *)
Definition is_drstatecmp_call (i : instr_t) : bool :=
  match instr_opcode i with
  | OP_clean_call c _ => is_drstatecmp_callee c
  | _ => false
  end.

(** The block as it enters the event holds no call into this module: the
    three callees are [static]. *)
Definition no_drstatecmp_call (bb : instrlist_t) : bool :=
  forallb (fun i => negb (is_drstatecmp_call i)) bb.

(** ** Sample blocks *)

(** An application instruction that only computes on registers. *)
Definition app_op (a : nat) (opc : Z) : instr_t :=
  mk_instr a (OP_other opc) false 0 false false false false false.

(** An instrumentation (meta) instruction that only computes on registers. *)
Definition meta_op (a : nat) (opc : Z) : instr_t :=
  mk_instr a (OP_other opc) true 0 false false false false false.

(** An instrumentation (meta) instruction that writes memory. *)
Definition meta_store (a : nat) (opc : Z) : instr_t :=
  mk_instr a (OP_other opc) true 0 true false false false false.

(** An application return. *)
Definition app_ret (a : nat) : instr_t :=
  mk_instr a (OP_other 195) false 0 false false false true true.

(** [MOV r1,1; (instrumentation: MOV r1,99); RET] *)
Definition bb_one_meta : instrlist_t := [app_op 0 1; meta_op 1 99; app_ret 2].

(** [MOV r1,1; (instrumentation: MOV r1,99); (instrumentation: MOV r2,7); RET] *)
Definition bb_two_meta : instrlist_t :=
  [app_op 0 1; meta_op 1 99; meta_op 2 7; app_ret 3].

(** [MOV r1,1; (instrumentation: store)], falling through. *)
Definition bb_meta_store : instrlist_t := [app_op 0 1; meta_store 1 137].

(** ** One execution of a transformed block, at the clean calls *)

Section Reexecution.

Variable plat : platform.
Variable MCXT_NUM_SIMD_SLOTS : nat.
Variable MCXT_NUM_OPMASK_SLOTS : nat.
Variable sizeof_simd : nat.
Variable sizeof_mcontext : Z.
Variable DR_MC_ALL : Z.

(** The snapshot the clean calls take of a machine state: the buffer they
    declare, with its [size] and [flags] set, filled by [dr_get_mcontext]. *)
Definition snapshot_of (live : dr_mcontext_t) : dr_mcontext_t :=
  mk_mcontext sizeof_mcontext DR_MC_ALL (mc_reg live) (mc_opmask live) (mc_simd live).

(** The four clean calls in the order [drstatecmp_check_reexecution] places
    them, with what runs between them: [orig] is what the original part of
    the block (instrumentation included) does to the machine state, [copy]
    what the copy does.  The result is what the comparison says, the
    thread's pair and the machine state at the end. *)
Definition reexecution (orig copy : dr_mcontext_t -> dr_mcontext_t)
    (pt : drstatecmp_saved_states) (live : dr_mcontext_t)
    : assertion * drstatecmp_saved_states * dr_mcontext_t :=
  let pt := drstatecmp_save_state_call sizeof_mcontext DR_MC_ALL 0 pt live in
  let live := orig live in
  let pt := drstatecmp_save_state_call sizeof_mcontext DR_MC_ALL 1 pt live in
  let '(pt, live) := drstatecmp_restore_state_call sizeof_mcontext DR_MC_ALL pt live in
  let live := copy live in
  (drstatecmp_compare_state_call plat MCXT_NUM_SIMD_SLOTS MCXT_NUM_OPMASK_SLOTS
     sizeof_simd sizeof_mcontext DR_MC_ALL pt live,
   pt, live).

End Reexecution.

(** Two machine states hold the same registers. *)
Definition same_registers (a b : dr_mcontext_t) : Prop :=
  (forall name, mc_reg a name = mc_reg b name) /\
  (forall i, mc_opmask a i = mc_opmask b i) /\
  (forall i off, mc_simd a i off = mc_simd b i off).

(** ** Threads *)

(** Modelled from the spec: the thread behind [drcontext], as far as this
    file uses it: the pointer held under each thread-local slot
    ([drmgr_get_tls_field], [NULL] is [None]), the blocks of the
    thread-private heap with their contents ([dr_thread_alloc],
    [dr_thread_free]), and the address the next block is allocated at. *)
Record thread_t := mk_thread {
  th_slots : Z -> option nat;
  th_blocks : list (nat * drstatecmp_saved_states);
  th_next : nat
}.

(** Modelled from the spec: [dr_thread_alloc], which hands out a block of
    the thread-private heap; [junk] is what the block happens to hold. *)
Definition dr_thread_alloc (th : thread_t) (junk : drstatecmp_saved_states)
    : nat * thread_t :=
  (th_next th,
   mk_thread (th_slots th) ((th_next th, junk) :: th_blocks th) (S (th_next th))).

(** Modelled from the spec: [drmgr_set_tls_field], "set a per-thread pointer
    under that slot".  A slot index is not negative; the file uses -1 for
    "no slot".  With an index that is no slot nothing is stored. *)
Definition drmgr_set_tls_field (th : thread_t) (idx : Z) (p : option nat) : thread_t :=
  if 0 <=? idx
  then mk_thread (fun i => if i =? idx then p else th_slots th i)
                 (th_blocks th) (th_next th)
  else th.

(** Modelled from the spec: [drmgr_get_tls_field], "get a per-thread pointer
    under that slot"; [NULL] for an index that is no slot. *)
Definition drmgr_get_tls_field (th : thread_t) (idx : Z) : option nat :=
  if 0 <=? idx then th_slots th idx else None.

Fixpoint block_write (blocks : list (nat * drstatecmp_saved_states)) (p : nat)
    (v : drstatecmp_saved_states) : list (nat * drstatecmp_saved_states) :=
  match blocks with
  | [] => []
  | (q, w) :: rest =>
      if Nat.eqb q p then (q, v) :: rest else (q, w) :: block_write rest p v
  end.

Fixpoint block_read (blocks : list (nat * drstatecmp_saved_states)) (p : nat)
    : option drstatecmp_saved_states :=
  match blocks with
  | [] => None
  | (q, w) :: rest => if Nat.eqb q p then Some w else block_read rest p
  end.

Fixpoint block_free (blocks : list (nat * drstatecmp_saved_states)) (p : nat)
    : list (nat * drstatecmp_saved_states) :=
  match blocks with
  | [] => []
  | (q, w) :: rest => if Nat.eqb q p then rest else (q, w) :: block_free rest p
  end.

(** What a callback on a thread comes to. *)
Inductive thread_outcome (A : Type) :=
| Ran (a : A)
| NullPointer                    (* NULL was dereferenced *)
| InvalidPointer (p : option nat) (* a pointer that is no block was used or freed *)
| AssertionFailed (msg : string).
Arguments Ran {A} a.
Arguments NullPointer {A}.
Arguments InvalidPointer {A} p.
Arguments AssertionFailed {A} msg.

(** Modelled from the spec: [dr_thread_free], which releases a block of the
    thread-private heap. *)
Definition dr_thread_free (th : thread_t) (p : option nat) : thread_outcome thread_t :=
  match p with
  | None => InvalidPointer None
  | Some q =>
      match block_read (th_blocks th) q with
      | None => InvalidPointer (Some q)
      | Some _ => Ran (mk_thread (th_slots th) (block_free (th_blocks th) q) (th_next th))
      end
  end.

(** The pair of two snapshots filled with zero bytes. *)
Definition zero_states : drstatecmp_saved_states :=
  mk_saved_states mc_zero mc_zero.

Section Threads.

Local Open Scope string_scope.
Local Open Scope Z_scope.

Variable plat : platform.
Variable MCXT_NUM_SIMD_SLOTS : nat.
Variable MCXT_NUM_OPMASK_SLOTS : nat.
Variable sizeof_simd : nat.
Variable sizeof_mcontext : Z.
Variable DR_MC_ALL : Z.
(** The file's static [tls_idx], and whether the build defines [DEBUG]. *)
Variable tls_index : Z.
Variable DEBUG : bool.

(** [drstatecmp_thread_init]: the block is allocated, stored under the slot
    and then filled with zero bytes. *)
Definition drstatecmp_thread_init (junk : drstatecmp_saved_states) (th : thread_t)
    : thread_t :=
  let '(pt, th) := dr_thread_alloc th junk in
  let th := drmgr_set_tls_field th tls_index (Some pt) in
  mk_thread (th_slots th) (block_write (th_blocks th) pt zero_states) (th_next th).

(** [drstatecmp_thread_exit].  [ASSERT] is [DR_ASSERT_MSG] in a build with
    [DEBUG] and nothing otherwise. *)
Definition drstatecmp_thread_exit (th : thread_t) : thread_outcome thread_t :=
  let pt := drmgr_get_tls_field th tls_index in
  match (if DEBUG
         then DR_ASSERT_MSG (match pt with Some _ => true | None => false end)
                            "thread-local storage should not be NULL"
         else None) with
  | Some msg => AssertionFailed msg
  | None => dr_thread_free th pt
  end.

(** The pair a clean call works on: the block the slot points to. *)
Definition thread_states (th : thread_t)
    : thread_outcome (nat * drstatecmp_saved_states) :=
  match drmgr_get_tls_field th tls_index with
  | None => NullPointer
  | Some p =>
      match block_read (th_blocks th) p with
      | None => InvalidPointer (Some p)
      | Some pt => Ran (p, pt)
      end
  end.

(** [drstatecmp_save_state_call] as the clean call runs it on a thread. *)
Definition save_state_on_thread (for_cmp : Z) (th : thread_t) (live : dr_mcontext_t)
    : thread_outcome thread_t :=
  match thread_states th with
  | Ran (p, pt) =>
      Ran (mk_thread (th_slots th)
             (block_write (th_blocks th) p
                (drstatecmp_save_state_call sizeof_mcontext DR_MC_ALL for_cmp pt live))
             (th_next th))
  | NullPointer => NullPointer
  | InvalidPointer q => InvalidPointer q
  | AssertionFailed msg => AssertionFailed msg
  end.

(** [drstatecmp_restore_state_call] as the clean call runs it on a thread. *)
Definition restore_state_on_thread (th : thread_t) (live : dr_mcontext_t)
    : thread_outcome (thread_t * dr_mcontext_t) :=
  match thread_states th with
  | Ran (p, pt) =>
      let '(pt, live) :=
        drstatecmp_restore_state_call sizeof_mcontext DR_MC_ALL pt live in
      Ran (mk_thread (th_slots th) (block_write (th_blocks th) p pt) (th_next th),
           live)
  | NullPointer => NullPointer
  | InvalidPointer q => InvalidPointer q
  | AssertionFailed msg => AssertionFailed msg
  end.

(** [drstatecmp_compare_state_call] as the clean call runs it on a thread. *)
Definition compare_state_on_thread (th : thread_t) (live : dr_mcontext_t)
    : thread_outcome assertion :=
  match thread_states th with
  | Ran (p, pt) =>
      Ran (drstatecmp_compare_state_call plat MCXT_NUM_SIMD_SLOTS
             MCXT_NUM_OPMASK_SLOTS sizeof_simd sizeof_mcontext DR_MC_ALL pt live)
  | NullPointer => NullPointer
  | InvalidPointer q => InvalidPointer q
  | AssertionFailed msg => AssertionFailed msg
  end.

End Threads.

(** The blocks of a thread lie below the address the next one is allocated
    at. *)
Definition thread_wf (th : thread_t) : bool :=
  forallb (fun b => Nat.ltb (fst b) (th_next th)) (th_blocks th).

(** A thread that has not run any callback of this module. *)
Definition thread_at_start : thread_t := mk_thread (fun _ => None) [] 0.

(** ** Sequences of lifecycle calls *)

(** [n] calls of [f] in a row: the results in call order, and the state
    left. *)
Fixpoint call_n (f : module_state -> call_result * module_state) (n : nat)
    (st : module_state) : list call_result * module_state :=
  match n with
  | O => ([], st)
  | S k =>
      let '(r, st) := f st in
      let '(rs, st) := call_n f k st in
      (r :: rs, st)
  end.

(** The framework calls of a complete registration and of a complete
    teardown, in the order the code makes them. *)
Definition registration_calls : list framework_call :=
  [drmgr_init; drmgr_register_tls_field;
   drmgr_reserve_note_range DRSTATECMP_LABEL_COUNT;
   drmgr_register_thread_init_event; drmgr_register_thread_exit_event;
   drmgr_register_bb_post_instru_event].

Definition teardown_calls (idx : Z) : list framework_call :=
  [drmgr_unregister_thread_init_event; drmgr_unregister_thread_exit_event;
   drmgr_unregister_tls_field idx; drmgr_unregister_bb_post_instru_event;
   drmgr_exit].

(** The framework grants every step of the registration and of the
    teardown. *)
Definition fw_grants_all (fw : framework_t) : bool :=
  negb (fw_tls_field fw =? -1) &&
  (negb (fw_DEBUG fw) || negb (fw_note_range fw =? DRMGR_NOTE_NONE)) &&
  fw_register_thread_init fw && fw_register_thread_exit fw &&
  fw_register_bb_post_instru fw &&
  fw_unregister_thread_init fw && fw_unregister_thread_exit fw &&
  fw_unregister_tls_field fw && fw_unregister_bb_post_instru fw.

(** ** More sample inputs *)

(** An application instruction that writes memory. *)
Definition app_store (a : nat) (opc : Z) : instr_t :=
  mk_instr a (OP_other opc) false 0 true false false false false.

(** [MOV r1,1; MOV [r2],r1; RET] *)
Definition bb_app_store : instrlist_t := [app_op 0 1; app_store 1 137; app_ret 2].

(** [(instrumentation: MOV r1,99)], a block without application
    instructions. *)
Definition bb_meta_only : instrlist_t := [meta_op 0 99].

(** A run of code that writes [v] to the register [name]. *)
Definition reg_write (name : string) (v : Z) (s : dr_mcontext_t) : dr_mcontext_t :=
  mk_mcontext (mc_size s) (mc_flags s)
    (fun n => if String.eqb n name then v else mc_reg s n) (mc_opmask s) (mc_simd s).

(** A framework that refuses the thread-exit event. *)
Definition fw_refuses_thread_exit : framework_t :=
  mk_framework 0 4096 true false true true true true true true.

(** A framework that refuses to give the thread-local slot back. *)
Definition fw_keeps_tls_field : framework_t :=
  mk_framework 0 4096 true true true true true false true true.

(** A release build on a framework whose marker namespace is exhausted. *)
Definition fw_no_notes : framework_t :=
  mk_framework 0 DRMGR_NOTE_NONE true true true true true true true false.

(** An instrumentation (meta) jump. *)
Definition meta_jmp (a : nat) : instr_t :=
  mk_instr a (OP_other 233) true 0 false false false true false.

(** [MOV r1,1; (instrumentation: MOV r1,99); (instrumentation: JMP); RET] *)
Definition bb_meta_jmp : instrlist_t :=
  [app_op 0 1; meta_op 1 99; meta_jmp 2; app_ret 3].

(** The instrumentation (meta) instructions that transfer control. *)
Definition meta_transfers (ilist : instrlist_t) : instrlist_t :=
  filter (fun i => instr_meta i && is_transfer i) ilist.

(** A framework call at which [drstatecmp_init] or [drstatecmp_exit] stops:
    the framework refuses it and the code tests the answer.  The answers of
    [drmgr_init] and [drmgr_exit] are not tested; the one of
    [drmgr_reserve_note_range] is tested by an [ASSERT], so in a build with
    [DEBUG] only. *)
Definition refused_and_tested (fw : framework_t) (c : framework_call) : bool :=
  match c with
  | drmgr_init => false
  | drmgr_register_tls_field => fw_tls_field fw =? -1
  | drmgr_reserve_note_range _ => fw_DEBUG fw && (fw_note_range fw =? DRMGR_NOTE_NONE)
  | drmgr_register_thread_init_event => negb (fw_register_thread_init fw)
  | drmgr_register_thread_exit_event => negb (fw_register_thread_exit fw)
  | drmgr_register_bb_post_instru_event => negb (fw_register_bb_post_instru fw)
  | drmgr_unregister_thread_init_event => negb (fw_unregister_thread_init fw)
  | drmgr_unregister_thread_exit_event => negb (fw_unregister_thread_exit fw)
  | drmgr_unregister_tls_field _ => negb (fw_unregister_tls_field fw)
  | drmgr_unregister_bb_post_instru_event => negb (fw_unregister_bb_post_instru fw)
  | drmgr_exit => false
  end.

(** The calls of a sequence up to and including the first one that
    satisfies [stop]; all of them when none does. *)
Fixpoint up_to_first (stop : framework_call -> bool) (cs : list framework_call)
    : list framework_call :=
  match cs with
  | [] => []
  | c :: rest => c :: (if stop c then [] else up_to_first stop rest)
  end.

(* ================================================================== *)
(** * Part II: theorems                                                *)
(* ================================================================== *)

(** C1. The classifier answers "may have side effects" exactly when the
    instruction writes memory, is an interrupt or is a syscall; the answer
    is a function of these three properties alone: address, opcode, meta
    flag, note, being a control transfer or a return do not enter it. *)
Theorem may_have_side_effects_iff :
  (forall instr,
      drstatecmp_may_have_side_effects_instr instr = true <->
      (instr_writes_memory instr = true \/ instr_is_interrupt instr = true \/
       instr_is_syscall instr = true)) /\
  (forall a opc m n w int sys cti ret,
      drstatecmp_may_have_side_effects_instr (mk_instr a opc m n w int sys cti ret) =
      orb (orb w int) sys).
Proof.
  split.
  - intros instr. unfold drstatecmp_may_have_side_effects_instr.
    rewrite !orb_true_iff. tauto.
  - reflexivity.
Qed.

(** ** Addresses and positions *)

Section ListFacts.

Local Open Scope nat_scope.

Lemma same_addr_refl (i : instr_t) : same_addr i i = true.
Proof. apply Nat.eqb_refl. Qed.

Lemma same_addr_true (i j : instr_t) :
  same_addr i j = true <-> instr_addr i = instr_addr j.
Proof. apply Nat.eqb_eq. Qed.

Lemma same_addr_false (i j : instr_t) :
  same_addr i j = false <-> instr_addr i <> instr_addr j.
Proof. apply Nat.eqb_neq. Qed.

Lemma addrs_app (l1 l2 : instrlist_t) : addrs (l1 ++ l2) = addrs l1 ++ addrs l2.
Proof. apply map_app. Qed.

Lemma distinct_NoDup (l : list nat) : distinct l = true <-> NoDup l.
Proof.
  induction l as [|a l IH]; simpl.
  - split; [constructor | reflexivity].
  - rewrite andb_true_iff, negb_true_iff, IH. split.
    + intros [Hn Hd]. constructor; [|assumption].
      intros Hin. assert (existsb (Nat.eqb a) l = true) as E.
      { apply existsb_exists. exists a. split; [assumption | apply Nat.eqb_refl]. }
      congruence.
    + intros Hnd. inversion Hnd as [|? ? Hn Hd]; subst. split; [|assumption].
      destruct (existsb (Nat.eqb a) l) eqn:E; [|reflexivity].
      apply existsb_exists in E. destruct E as [x [Hx Hax]].
      apply Nat.eqb_eq in Hax. subst x. contradiction.
Qed.

Lemma wf_block_spec (brk : nat) (bb : instrlist_t) :
  wf_block brk bb = true <->
  NoDup (addrs bb) /\ Forall (fun a => a < brk) (addrs bb).
Proof.
  unfold wf_block. rewrite andb_true_iff, distinct_NoDup, forallb_forall.
  unfold addrs. rewrite Forall_map, Forall_forall.
  split; intros [H1 H2]; (split; [assumption|]); intros x Hx;
    specialize (H2 x Hx); apply Nat.ltb_lt; assumption.
Qed.

(** An object whose address no element of [l1] has is found right after
    [l1]. *)
Lemma instrs_after_at (l1 l2 : instrlist_t) (w : instr_t) :
  ~ In (instr_addr w) (addrs l1) -> instrs_after (l1 ++ w :: l2) w = l2.
Proof.
  induction l1 as [|x l1 IH]; simpl; intros Hn.
  - now rewrite same_addr_refl.
  - destruct (same_addr x w) eqn:E.
    + apply same_addr_true in E. exfalso. apply Hn. now left.
    + apply IH. intros Hin. apply Hn. now right.
Qed.

Lemma instrs_after_absent (l : instrlist_t) (w : instr_t) :
  ~ In (instr_addr w) (addrs l) -> instrs_after l w = [].
Proof.
  induction l as [|x l IH]; simpl; intros Hn; [reflexivity|].
  destruct (same_addr x w) eqn:E.
  - apply same_addr_true in E. exfalso. apply Hn. now left.
  - apply IH. intros Hin. apply Hn. now right.
Qed.

Lemma instrlist_remove_at (l1 l2 : instrlist_t) (w : instr_t) :
  ~ In (instr_addr w) (addrs l1) -> instrlist_remove (l1 ++ w :: l2) w = l1 ++ l2.
Proof.
  induction l1 as [|x l1 IH]; simpl; intros Hn.
  - now rewrite same_addr_refl.
  - destruct (same_addr x w) eqn:E.
    + apply same_addr_true in E. exfalso. apply Hn. now left.
    + f_equal. apply IH. intros Hin. apply Hn. now right.
Qed.

Lemma insert_before_at (l1 l2 : instrlist_t) (w inst : instr_t) :
  ~ In (instr_addr w) (addrs l1) ->
  insert_before (l1 ++ w :: l2) w inst = l1 ++ inst :: w :: l2.
Proof.
  induction l1 as [|x l1 IH]; simpl; intros Hn.
  - now rewrite same_addr_refl.
  - destruct (same_addr x w) eqn:E.
    + apply same_addr_true in E. exfalso. apply Hn. now left.
    + f_equal. apply IH. intros Hin. apply Hn. now right.
Qed.

Lemma insert_after_at (l1 l2 : instrlist_t) (w inst : instr_t) :
  ~ In (instr_addr w) (addrs l1) ->
  insert_after (l1 ++ w :: l2) w inst = l1 ++ w :: inst :: l2.
Proof.
  induction l1 as [|x l1 IH]; simpl; intros Hn.
  - now rewrite same_addr_refl.
  - destruct (same_addr x w) eqn:E.
    + apply same_addr_true in E. exfalso. apply Hn. now left.
    + f_equal. apply IH. intros Hin. apply Hn. now right.
Qed.

Lemma NoDup_app_left {A} (l1 l2 : list A) : NoDup (l1 ++ l2) -> NoDup l1.
Proof.
  induction l1 as [|a l1 IH]; simpl; intros H; [constructor|].
  inversion H as [|? ? Hn Hd]; subst. constructor.
  - intros Hin. apply Hn. apply in_or_app. now left.
  - now apply IH.
Qed.

Lemma NoDup_mid_notin {A} (l1 l2 : list A) (a : A) :
  NoDup (l1 ++ a :: l2) -> ~ In a l1 /\ ~ In a l2.
Proof.
  intros H. apply NoDup_remove in H. destruct H as [_ Hn].
  split; intros Hin; apply Hn; apply in_or_app; [now left | now right].
Qed.

End ListFacts.

(** ** The clone and the loop that strips it *)

Section CloneFacts.

Local Open Scope nat_scope.

Lemma instr_is_app_at (a : nat) (i : instr_t) :
  instr_is_app (instr_at a i) = instr_is_app i.
Proof. reflexivity. Qed.

Lemma instr_at_at (a b : nat) (i : instr_t) : instr_at a (instr_at b i) = instr_at a i.
Proof. reflexivity. Qed.

Lemma same_instr_at (a : nat) (i : instr_t) : same_instr (instr_at a i) i.
Proof. reflexivity. Qed.

Lemma addrs_clone (a : nat) (l : instrlist_t) :
  addrs (instrlist_clone a l) = seq a (length l).
Proof.
  revert a. induction l as [|x l IH]; simpl; intros a; [reflexivity|].
  now rewrite IH.
Qed.

Lemma length_clone (a : nat) (l : instrlist_t) :
  length (instrlist_clone a l) = length l.
Proof.
  revert a. induction l as [|x l IH]; simpl; intros a; [reflexivity|].
  now rewrite IH.
Qed.

Lemma clone_app (a : nat) (l1 l2 : instrlist_t) :
  instrlist_clone a (l1 ++ l2) =
  instrlist_clone a l1 ++ instrlist_clone (a + length l1) l2.
Proof.
  revert a. induction l1 as [|x l1 IH]; simpl; intros a.
  - now rewrite Nat.add_0_r.
  - rewrite IH. do 3 f_equal. lia.
Qed.

Lemma contents_clone (a : nat) (l : instrlist_t) :
  contents (instrlist_clone a l) = contents l.
Proof.
  revert a. induction l as [|x l IH]; simpl; intros a; [reflexivity|].
  now rewrite IH.
Qed.

Lemma NoDup_addrs_clone (a : nat) (l : instrlist_t) :
  NoDup (addrs (instrlist_clone a l)).
Proof. rewrite addrs_clone. apply seq_NoDup. Qed.

Lemma clone_addr_range (a : nat) (l : instrlist_t) (x : instr_t) :
  In x (instrlist_clone a l) -> a <= instr_addr x < a + length l.
Proof.
  intros Hin. assert (In (instr_addr x) (addrs (instrlist_clone a l))) as H.
  { unfold addrs. now apply in_map. }
  rewrite addrs_clone in H. apply in_seq in H. lia.
Qed.

Lemma forallb_clone (p : instr_t -> bool) :
  (forall a x, p (instr_at a x) = p x) ->
  forall a l, forallb p (instrlist_clone a l) = forallb p l.
Proof.
  intros Hp a l. revert a.
  induction l as [|x l IH]; cbn [instrlist_clone forallb]; intros a; [reflexivity|].
  now rewrite IH, Hp.
Qed.

Lemma forallb_meta_clone (a : nat) (l : instrlist_t) :
  forallb instr_meta (instrlist_clone a l) = forallb instr_meta l.
Proof. now apply forallb_clone. Qed.

Lemma app_instrs_clone (a : nat) (l : instrlist_t) :
  contents (app_instrs (instrlist_clone a l)) = contents (app_instrs l).
Proof.
  unfold app_instrs, contents. revert a.
  induction l as [|x l IH]; cbn [instrlist_clone filter]; intros a; [reflexivity|].
  rewrite instr_is_app_at. destruct (instr_is_app x); cbn [map]; now rewrite IH.
Qed.

Lemma strip_loop_end (fuel : nat) (copy_bb : instrlist_t) :
  strip_loop fuel copy_bb None = Done copy_bb.
Proof. destruct fuel; reflexivity. Qed.

(** The loop, started on an object of the list: every application
    instruction from there on is kept, the first meta instruction found is
    removed, and the walk ends there, because the removed object is linked
    to nothing. *)
Lemma strip_loop_from (post pre : instrlist_t) (cur : instr_t) (fuel : nat) :
  NoDup (addrs (pre ++ cur :: post)) ->
  length post < fuel ->
  strip_loop fuel (pre ++ cur :: post) (Some cur) =
  Done (pre ++ remove_first_meta (cur :: post)).
Proof.
  revert pre cur fuel.
  induction post as [|p post IH]; intros pre cur fuel Hnd Hfuel;
    (destruct fuel as [|fuel]; [lia|]);
    pose proof Hnd as Hmid; rewrite addrs_app in Hmid; simpl in Hmid;
    apply NoDup_mid_notin in Hmid; destruct Hmid as [Hpre Hpost];
    cbn [strip_loop remove_first_meta];
    destruct (instr_is_app cur) eqn:Happ; cbn [negb].
  - unfold instr_get_next. rewrite instrs_after_at by assumption.
    apply strip_loop_end.
  - rewrite instrlist_remove_at by assumption.
    unfold instr_get_next. rewrite instrs_after_absent.
    + apply strip_loop_end.
    + rewrite app_nil_r. assumption.
  - unfold instr_get_next. rewrite instrs_after_at by assumption.
    cbn [hd_error].
    replace (pre ++ cur :: p :: post) with ((pre ++ [cur]) ++ p :: post)
      by (rewrite <- app_assoc; reflexivity).
    rewrite IH.
    + rewrite <- app_assoc. reflexivity.
    + rewrite <- app_assoc. exact Hnd.
    + simpl in Hfuel. lia.
  - rewrite instrlist_remove_at by assumption.
    unfold instr_get_next. rewrite instrs_after_absent.
    + apply strip_loop_end.
    + rewrite addrs_app. intros Hin. apply in_app_or in Hin.
      destruct Hin as [Hin|Hin]; [now apply Hpre | now apply Hpost].
Qed.

Lemma strip_copy_spec (copy_bb : instrlist_t) :
  NoDup (addrs copy_bb) ->
  strip_copy copy_bb = Done (remove_first_meta copy_bb).
Proof.
  intros Hnd. unfold strip_copy. destruct copy_bb as [|x l]; [reflexivity|].
  cbn [instrlist_first hd_error].
  apply (strip_loop_from l [] x); [exact Hnd | simpl; lia].
Qed.

Lemma strip_clone (brk : nat) (bb : instrlist_t) :
  strip_copy (instrlist_clone brk bb) =
  Done (remove_first_meta (instrlist_clone brk bb)).
Proof. apply strip_copy_spec, NoDup_addrs_clone. Qed.

Lemma remove_first_meta_app_instrs (l : instrlist_t) :
  app_instrs (remove_first_meta l) = app_instrs l.
Proof.
  unfold app_instrs.
  induction l as [|x l IH]; cbn [remove_first_meta filter]; [reflexivity|].
  destruct (instr_is_app x) eqn:E; cbn [filter]; [|reflexivity].
  rewrite E. now rewrite IH.
Qed.

Lemma remove_first_meta_incl (l : instrlist_t) (x : instr_t) :
  In x (remove_first_meta l) -> In x l.
Proof.
  induction l as [|y l IH]; cbn [remove_first_meta]; [tauto|].
  destruct (instr_is_app y); simpl; intuition.
Qed.

Lemma app_instrs_all_app (l : instrlist_t) :
  filter instr_meta l = [] -> app_instrs l = l.
Proof.
  unfold app_instrs, instr_is_app.
  induction l as [|y l IH]; cbn [filter]; [reflexivity|].
  destruct (instr_meta y); [discriminate|].
  cbn [negb]. intros H. f_equal. now apply IH.
Qed.

(** With at most one meta instruction in the list the loop does what it is
    meant to do. *)
Lemma remove_first_meta_clean (l : instrlist_t) :
  length (filter instr_meta l) <= 1 ->
  remove_first_meta l = app_instrs l.
Proof.
  induction l as [|x l IH]; [reflexivity|].
  unfold app_instrs in *. cbn [remove_first_meta filter].
  unfold instr_is_app at 1 2. destruct (instr_meta x) eqn:E; cbn [negb length];
    intros H.
  - symmetry. apply app_instrs_all_app.
    destruct (filter instr_meta l); [reflexivity | simpl in H; lia].
  - f_equal. now apply IH.
Qed.

Lemma filter_meta_clone (a : nat) (l : instrlist_t) :
  length (filter instr_meta (instrlist_clone a l)) = length (filter instr_meta l).
Proof.
  revert a. induction l as [|x l IH]; intros a; [reflexivity|].
  cbn [instrlist_clone filter]. change (instr_meta (instr_at a x)) with (instr_meta x).
  destruct (instr_meta x); cbn [length]; now rewrite IH.
Qed.

Lemma app_instrs_all_meta (l : instrlist_t) :
  forallb instr_meta l = true -> app_instrs l = [].
Proof.
  unfold app_instrs, instr_is_app.
  induction l as [|x l IH]; cbn [forallb filter]; [reflexivity|].
  rewrite andb_true_iff. intros [Hx Hl]. rewrite Hx. cbn [negb]. now apply IH.
Qed.

End CloneFacts.

(** ** The last application instruction *)

Section LastApp.

Local Open Scope nat_scope.

Lemma last_app_none (l : instrlist_t) :
  instrlist_last_app l = None <-> forallb instr_meta l = true.
Proof.
  induction l as [|x l IH]; simpl; [tauto|].
  destruct (instrlist_last_app l) as [y|].
  - split; [discriminate|]. rewrite andb_true_iff. intros [_ H].
    apply IH in H. discriminate.
  - unfold instr_is_app. destruct (instr_meta x); simpl.
    + split; [intros _; now apply IH | reflexivity].
    + split; discriminate.
Qed.

Lemma last_app_at (pre post : instrlist_t) (t : instr_t) :
  instr_is_app t = true -> forallb instr_meta post = true ->
  instrlist_last_app (pre ++ t :: post) = Some t.
Proof.
  intros Ht Hpost. induction pre as [|x pre IH]; simpl.
  - apply last_app_none in Hpost. now rewrite Hpost, Ht.
  - now rewrite IH.
Qed.

Lemma last_app_split (l : instrlist_t) (t : instr_t) :
  instrlist_last_app l = Some t ->
  exists pre post,
    l = pre ++ t :: post /\ instr_is_app t = true /\
    forallb instr_meta post = true.
Proof.
  induction l as [|x l IH]; simpl; [discriminate|].
  destruct (instrlist_last_app l) as [y|] eqn:E.
  - intros H. injection H as ->. destruct (IH eq_refl) as [pre [post [-> [Ht Hp]]]].
    exists (x :: pre), post. auto.
  - destruct (instr_is_app x) eqn:Hx; [|discriminate].
    intros H. injection H as ->. exists [], l. repeat split; auto.
    now apply last_app_none.
Qed.

Lemma last_app_some (l : instrlist_t) :
  (exists i, In i l /\ instr_is_app i = true) ->
  exists t, instrlist_last_app l = Some t.
Proof.
  intros [i [Hin Hi]]. destruct (instrlist_last_app l) as [t|] eqn:E.
  - now exists t.
  - apply last_app_none in E. rewrite forallb_forall in E.
    specialize (E i Hin). unfold instr_is_app in Hi. rewrite E in Hi. discriminate.
Qed.

(** Stripping a list around an application instruction: the instruction
    stays where it is, between what is left of the two sides. *)
Lemma remove_first_meta_split (l1 l2 : instrlist_t) (t : instr_t) :
  instr_is_app t = true ->
  exists s1 s2,
    remove_first_meta (l1 ++ t :: l2) = s1 ++ t :: s2 /\
    incl s1 l1 /\ incl s2 l2 /\ app_instrs s1 = app_instrs l1 /\
    (length (filter instr_meta (l1 ++ l2)) <= 1 ->
     s1 = app_instrs l1 /\ s2 = app_instrs l2).
Proof.
  intros Ht. induction l1 as [|x l1 IH].
  - exists [], (remove_first_meta l2). cbn [app remove_first_meta]. rewrite Ht.
    split; [reflexivity|]. split; [apply incl_refl|].
    split; [intros y; apply remove_first_meta_incl|].
    split; [reflexivity|].
    intros H. split; [reflexivity|]. now apply remove_first_meta_clean.
  - destruct IH as [s1 [s2 [E [I1 [I2 [A M]]]]]].
    cbn [app remove_first_meta]. destruct (instr_is_app x) eqn:Hx.
    + exists (x :: s1), s2. rewrite E.
      split; [reflexivity|].
      split; [intros y [->|Hy]; [now left | right; now apply I1]|].
      split; [assumption|].
      unfold app_instrs in *. cbn [filter]. rewrite Hx, A.
      split; [reflexivity|].
      unfold instr_is_app in Hx. apply negb_true_iff in Hx. rewrite Hx.
      intros H. destruct (M H) as [M1 M2]. split; [now f_equal | assumption].
    + exists l1, l2.
      split; [reflexivity|]. split; [apply incl_tl, incl_refl|].
      split; [apply incl_refl|].
      unfold app_instrs in *. cbn [filter]. rewrite Hx.
      split; [reflexivity|].
      unfold instr_is_app in Hx. apply negb_false_iff in Hx. rewrite Hx.
      cbn [length]. intros H.
      assert (filter instr_meta (l1 ++ l2) = []) as Hnil.
      { destruct (filter instr_meta (l1 ++ l2)); [reflexivity | simpl in H; lia]. }
      rewrite filter_app in Hnil. apply app_eq_nil in Hnil.
      destruct Hnil as [N1 N2].
      split; symmetry; now apply app_instrs_all_app.
Qed.

Lemma preinsert_first (l : instrlist_t) (inst : instr_t) :
  instrlist_preinsert l (instrlist_first l) inst = inst :: l.
Proof.
  destruct l as [|x l]; [reflexivity|].
  cbn [instrlist_first hd_error instrlist_preinsert insert_before].
  now rewrite same_addr_refl.
Qed.

End LastApp.

(** ** The shape of a duplicated block *)

Section Shape.

Local Open Scope nat_scope.

Variable plat : platform.
Variable base : Z.

Lemma insert_label_first (a : nat) (l : instrlist_t) (k : drstatecmp_label_t) :
  drstatecmp_insert_label plat base a l (instrlist_first l) k true =
  (label_instr plat base a k :: l, label_instr plat base a k).
Proof.
  unfold drstatecmp_insert_label, instrlist_meta_preinsert.
  now rewrite preinsert_first.
Qed.

Lemma insert_label_before (a : nat) (l1 l2 : instrlist_t) (w : instr_t)
    (k : drstatecmp_label_t) :
  ~ In (instr_addr w) (addrs l1) ->
  drstatecmp_insert_label plat base a (l1 ++ w :: l2) (Some w) k true =
  (l1 ++ label_instr plat base a k :: w :: l2, label_instr plat base a k).
Proof.
  intros H. unfold drstatecmp_insert_label, instrlist_meta_preinsert,
    instrlist_preinsert.
  now rewrite insert_before_at.
Qed.

Lemma insert_label_after (a : nat) (l1 l2 : instrlist_t) (w : instr_t)
    (k : drstatecmp_label_t) :
  ~ In (instr_addr w) (addrs l1) ->
  drstatecmp_insert_label plat base a (l1 ++ w :: l2) (Some w) k false =
  (l1 ++ w :: label_instr plat base a k :: l2, label_instr plat base a k).
Proof.
  intros H. unfold drstatecmp_insert_label, instrlist_meta_postinsert,
    instrlist_postinsert.
  now rewrite insert_after_at.
Qed.

Lemma forallb_incl {A} (p : A -> bool) (s l : list A) :
  incl s l -> forallb p l = true -> forallb p s = true.
Proof.
  intros I H. rewrite forallb_forall in *. intros x Hx. apply H, I, Hx.
Qed.

Lemma addr_in_clone (a : nat) (l s : instrlist_t) (x : nat) :
  incl s (instrlist_clone a l) -> In x (addrs s) -> a <= x < a + length l.
Proof.
  intros I Hin. unfold addrs in Hin. apply in_map_iff in Hin.
  destruct Hin as [y [<- Hy]]. apply (clone_addr_range a l), I, Hy.
Qed.

Lemma duplicate_bb_shape (brk : nat) (bb : instrlist_t) (t : instr_t) :
  wf_block brk bb = true ->
  instrlist_last_app bb = Some t ->
  exists pre post s1 s2,
    bb = pre ++ t :: post /\
    instr_is_app t = true /\
    forallb instr_meta post = true /\
    incl s1 (instrlist_clone brk pre) /\
    incl s2 (instrlist_clone (S (brk + length pre)) post) /\
    app_instrs s1 = app_instrs (instrlist_clone brk pre) /\
    (length (filter instr_meta bb) <= 1 ->
     s1 = app_instrs (instrlist_clone brk pre) /\ s2 = []) /\
    let n := brk + length bb in
    let t' := instr_at (brk + length pre) t in
    let LO := label_instr plat base n DRSTATECMP_LABEL_ORIG_BB in
    let LC := label_instr plat base (S n) DRSTATECMP_LABEL_COPY_BB in
    let LT := label_instr plat base (S (S n)) DRSTATECMP_LABEL_TERM in
    drstatecmp_duplicate_bb plat base brk bb =
    Done (LO :: (pre ++ (if is_transfer t then [] else [t]) ++ post) ++
          LC :: s1 ++ (if is_transfer t then [LT; t'] else [t'; LT]) ++ s2,
          mk_labels LO LC LT, S (S (S n))).
Proof.
  intros Hwf Hlast.
  apply wf_block_spec in Hwf. destruct Hwf as [Hnd Hlt].
  destruct (last_app_split _ _ Hlast) as [pre [post [-> [Ht Hpost]]]].
  destruct (remove_first_meta_split (instrlist_clone brk pre)
              (instrlist_clone (S (brk + length pre)) post)
              (instr_at (brk + length pre) t) Ht)
    as [s1 [s2 [Hs [I1 [I2 [A M]]]]]].
  assert (length (filter instr_meta (pre ++ t :: post)) <= 1 ->
          s1 = app_instrs (instrlist_clone brk pre) /\ s2 = []) as M_clean.
  { intros H. destruct M as [M1 M2].
    - rewrite filter_app, length_app, !filter_meta_clone.
      rewrite filter_app, length_app in H. cbn [filter] in H.
      unfold instr_is_app in Ht. apply negb_true_iff in Ht. rewrite Ht in H.
      lia.
    - split; [assumption|]. rewrite M2. apply app_instrs_all_meta.
      now rewrite forallb_meta_clone. }
  exists pre, post, s1, s2.
  split; [reflexivity|]. split; [assumption|]. split; [assumption|].
  split; [assumption|]. split; [assumption|]. split; [assumption|].
  split.
  { intros H. apply M_clean; assumption. }
  intros n t' LO LC LT.
  unfold drstatecmp_duplicate_bb. rewrite strip_clone, clone_app.
  cbn [instrlist_clone]. rewrite Hs. cbv beta iota zeta.
  rewrite !insert_label_first. cbv beta iota.
  fold n. fold t'. fold LO. fold LC.
  assert (forallb instr_meta s2 = true) as Hs2.
  { apply (forallb_incl _ _ _ I2). now rewrite forallb_meta_clone. }
  assert (~ In (instr_addr t') (addrs (LC :: s1))) as Hn1.
  { intros [E|Hin].
    - cbn in E. subst n. rewrite length_app in E. cbn in E. lia.
    - apply (addr_in_clone _ _ _ _ I1) in Hin. cbn in Hin. lia. }
  assert (~ In (instr_addr t) (addrs (LO :: pre))) as Hn2.
  { rewrite addrs_app in Hnd, Hlt. cbn [addrs map] in Hnd, Hlt.
    apply NoDup_mid_notin in Hnd. apply Forall_app in Hlt.
    destruct Hlt as [_ Hlt]. inversion Hlt as [|? ? Hb _]; subst.
    intros [E|Hin]; [|now apply (proj1 Hnd)].
    cbn in E. subst n. lia. }
  change (LC :: s1 ++ t' :: s2) with ((LC :: s1) ++ t' :: s2).
  change (LO :: pre ++ t :: post) with ((LO :: pre) ++ t :: post).
  rewrite !last_app_at by assumption.
  change (instr_is_cti t') with (instr_is_cti t).
  change (instr_is_return t') with (instr_is_return t).
  unfold is_transfer, instrlist_append.
  destruct (instr_is_cti t); [|destruct (instr_is_return t)]; cbn [negb andb orb].
  - rewrite insert_label_before by assumption.
    rewrite instrlist_remove_at by assumption.
    cbn [app instrs_after]. rewrite same_addr_refl.
    rewrite <- !app_assoc. reflexivity.
  - rewrite insert_label_before by assumption.
    rewrite instrlist_remove_at by assumption.
    cbn [app instrs_after]. rewrite same_addr_refl.
    rewrite <- !app_assoc. reflexivity.
  - rewrite insert_label_after by assumption.
    cbn [app instrs_after]. rewrite same_addr_refl.
    rewrite <- !app_assoc. reflexivity.
Qed.

End Shape.

(** ** The clean calls placed at the labels *)

Section Calls.

Local Open Scope nat_scope.

Lemma clean_call_before (a : nat) (l1 l2 : instrlist_t) (w : instr_t)
    (c : callee_t) (args : list Z) :
  ~ In (instr_addr w) (addrs l1) ->
  dr_insert_clean_call a (l1 ++ w :: l2) w c args =
  l1 ++ clean_call_instr a c args :: w :: l2.
Proof.
  intros H. unfold dr_insert_clean_call, instrlist_meta_preinsert,
    instrlist_preinsert.
  now rewrite insert_before_at.
Qed.

Lemma clean_call_head (a : nat) (l : instrlist_t) (w : instr_t)
    (c : callee_t) (args : list Z) :
  dr_insert_clean_call a (w :: l) w c args = clean_call_instr a c args :: w :: l.
Proof. apply (clean_call_before a [] l w c args). cbn. tauto. Qed.

Lemma check_reexecution_shape (m : nat) (LO LC LT : instr_t)
    (B C D : instrlist_t) :
  ~ In (instr_addr LC) (addrs (LO :: B)) ->
  ~ In (instr_addr LT) (addrs (LO :: B ++ LC :: C)) ->
  instr_addr LC < m -> instr_addr LT < m ->
  drstatecmp_check_reexecution m (LO :: B ++ LC :: C ++ LT :: D)
                               (mk_labels LO LC LT) =
  clean_call_instr m drstatecmp_save_state_call_fn [0%Z] :: LO :: B ++
  clean_call_instr (S m) drstatecmp_save_state_call_fn [1%Z] ::
  clean_call_instr (S (S m)) drstatecmp_restore_state_call_fn [] :: LC :: C ++
  clean_call_instr (S (S (S m))) drstatecmp_compare_state_call_fn [] :: LT :: D.
Proof.
  intros H1 H2 Hc Ht.
  unfold drstatecmp_check_reexecution, drstatecmp_save_state,
    drstatecmp_restore_state, drstatecmp_compare_state.
  cbn [orig_bb_start copy_bb_start term].
  set (C0 := clean_call_instr m drstatecmp_save_state_call_fn [0%Z]).
  set (C1 := clean_call_instr (S m) drstatecmp_save_state_call_fn [1%Z]).
  set (C2 := clean_call_instr (S (S m)) drstatecmp_restore_state_call_fn []).
  set (C3 := clean_call_instr (S (S (S m))) drstatecmp_compare_state_call_fn []).
  rewrite clean_call_head. fold C0.
  change (C0 :: LO :: B ++ LC :: C ++ LT :: D)
    with ((C0 :: LO :: B) ++ LC :: C ++ LT :: D).
  rewrite clean_call_before.
  2:{ intros [E|Hin]; [cbn in E; lia | now apply H1]. }
  fold C1.
  replace ((C0 :: LO :: B) ++ C1 :: LC :: C ++ LT :: D)
    with ((C0 :: LO :: B ++ [C1]) ++ LC :: C ++ LT :: D)
    by (cbn [app]; rewrite <- app_assoc; reflexivity).
  rewrite clean_call_before.
  2:{ change (C0 :: LO :: B ++ [C1]) with (C0 :: (LO :: B) ++ [C1]).
      cbn [addrs map]. rewrite map_app. cbn [map]. intros [E|Hin].
      - cbn in E. lia.
      - apply in_app_or in Hin. destruct Hin as [Hin|[E|[]]].
        + now apply H1.
        + cbn in E. lia. }
  fold C2.
  replace ((C0 :: LO :: B ++ [C1]) ++ C2 :: LC :: C ++ LT :: D)
    with ((C0 :: LO :: B ++ C1 :: C2 :: LC :: C) ++ LT :: D)
    by (cbn [app]; rewrite <- !app_assoc; reflexivity).
  rewrite clean_call_before.
  2:{ cbn [addrs map app]. rewrite map_app. cbn [map]. intros [E|[E|Hin]].
      - cbn in E. lia.
      - apply H2. left. exact E.
      - apply in_app_or in Hin. destruct Hin as [Hin|[E|[E|[E|Hin]]]].
        + apply H2. right. rewrite addrs_app. apply in_or_app. now left.
        + cbn in E. lia.
        + cbn in E. lia.
        + apply H2. right. rewrite addrs_app. apply in_or_app. right. now left.
        + apply H2. right. rewrite addrs_app. apply in_or_app. right. now right. }
  fold C3. cbn [app]. rewrite <- !app_assoc. reflexivity.
Qed.

End Calls.

(** ** The side-effect gate *)

Section Gate.

Local Open Scope nat_scope.

Lemma side_effect_loop_end (fuel : nat) (bb : instrlist_t) :
  side_effect_loop fuel bb None = Done true.
Proof. destruct fuel; reflexivity. Qed.

(** The walk visits the application instructions and nothing else. *)
Lemma side_effect_loop_from (rest pre : instrlist_t) (fuel : nat) :
  NoDup (addrs (pre ++ rest)) ->
  length rest < fuel ->
  side_effect_loop fuel (pre ++ rest) (find instr_is_app rest) =
  Done (app_side_effect_free rest).
Proof.
  unfold app_side_effect_free, app_instrs.
  revert pre fuel. induction rest as [|x rest IH]; intros pre fuel Hnd Hfuel.
  - apply side_effect_loop_end.
  - cbn [find filter]. destruct (instr_is_app x) eqn:Hx.
    + destruct fuel as [|fuel]; [lia|]. cbn [side_effect_loop forallb].
      destruct (drstatecmp_may_have_side_effects_instr x); [reflexivity|].
      cbn [negb andb]. unfold instr_get_next_app.
      rewrite instrs_after_at.
      * replace (pre ++ x :: rest) with ((pre ++ [x]) ++ rest)
          by (rewrite <- app_assoc; reflexivity).
        apply IH; [rewrite <- app_assoc; exact Hnd | simpl in Hfuel; lia].
      * rewrite addrs_app in Hnd. cbn [addrs map] in Hnd.
        apply NoDup_mid_notin in Hnd. tauto.
    + replace (pre ++ x :: rest) with ((pre ++ [x]) ++ rest)
        by (rewrite <- app_assoc; reflexivity).
      apply IH; [rewrite <- app_assoc; exact Hnd | simpl in Hfuel; lia].
Qed.

Lemma side_effect_free_spec (bb : instrlist_t) :
  NoDup (addrs bb) -> side_effect_free bb = Done (app_side_effect_free bb).
Proof.
  intros Hnd. unfold side_effect_free, instrlist_first_app.
  apply (side_effect_loop_from bb []); [exact Hnd | lia].
Qed.

End Gate.

(** ** What the duplicator guarantees *)

Section Duplicator.

Local Open Scope nat_scope.

Variable plat : platform.
Variable base : Z.

Lemma last_app_cons_meta (x : instr_t) (l : instrlist_t) :
  instr_meta x = true -> instrlist_last_app (x :: l) = instrlist_last_app l.
Proof.
  intros Hx. cbn [instrlist_last_app]. destruct (instrlist_last_app l); [reflexivity|].
  unfold instr_is_app. now rewrite Hx.
Qed.

Lemma last_app_app_instrs (l : instrlist_t) :
  instrlist_last_app l = None <-> app_instrs l = [].
Proof.
  rewrite last_app_none. unfold app_instrs, instr_is_app.
  induction l as [|x l IH]; cbn [forallb filter]; [tauto|].
  destruct (instr_meta x); cbn [negb andb]; [exact IH|].
  split; discriminate.
Qed.

(** C10. The duplicator dereferences [NULL] exactly on a block without an
    application instruction: the last application instruction of the
    stripped clone, and then of the block, is handed to [instr_is_cti]
    unchecked.  With an application instruction in the block neither
    lookup yields [NULL] and the duplicator returns. *)
Theorem duplicate_bb_null_deref (brk : nat) (bb : instrlist_t) :
  (drstatecmp_duplicate_bb plat base brk bb = NullDeref <-> app_instrs bb = []) /\
  drstatecmp_duplicate_bb plat base brk bb <> OutOfFuel /\
  (app_instrs bb <> [] ->
   instrlist_last_app (remove_first_meta (instrlist_clone brk bb)) <> None /\
   instrlist_last_app bb <> None /\
   exists r, drstatecmp_duplicate_bb plat base brk bb = Done r).
Proof.
  unfold drstatecmp_duplicate_bb. rewrite strip_clone. cbv beta iota zeta.
  rewrite !insert_label_first. cbv beta iota.
  rewrite !last_app_cons_meta by reflexivity.
  assert (app_instrs (remove_first_meta (instrlist_clone brk bb)) = [] <->
          app_instrs bb = []) as Hclone.
  { rewrite remove_first_meta_app_instrs. split; intros H.
    - pose proof (app_instrs_clone brk bb) as E. rewrite H in E.
      destruct (app_instrs bb); [reflexivity | discriminate].
    - pose proof (app_instrs_clone brk bb) as E. rewrite H in E.
      destruct (app_instrs (instrlist_clone brk bb)); [reflexivity | discriminate]. }
  destruct (instrlist_last_app (remove_first_meta (instrlist_clone brk bb)))
    as [tc|] eqn:Ec.
  - assert (app_instrs bb <> []) as Hne.
    { intros H. apply Hclone in H. apply last_app_app_instrs in H. congruence. }
    destruct (instrlist_last_app bb) as [t|] eqn:Eb.
    + destruct (drstatecmp_insert_label plat base _ _ _ _ _) as [c l].
      split; [split; [discriminate | intros H; contradiction]|].
      split; [discriminate|]. intros _.
      split; [discriminate|]. split; [discriminate|]. eexists. reflexivity.
    + apply last_app_app_instrs in Eb. contradiction.
  - assert (app_instrs bb = []) as Hnil.
    { apply Hclone. now apply last_app_app_instrs. }
    split; [split; [intros _; assumption | reflexivity]|].
    split; [discriminate|]. intros H. contradiction.
Qed.

(** C4 (the code at a block with two instrumentation instructions).  The
    walk that strips the clone steps on from the object it has just
    removed and destroyed; that object is linked to nothing, so the walk
    ends at the first meta instruction, and the second one stays in the
    "clean" copy and is executed with it. *)
Theorem strip_leaves_instrumentation :
  (forall brk bb,
      strip_copy (instrlist_clone brk bb) =
      Done (remove_first_meta (instrlist_clone brk bb))) /\
  strip_copy (instrlist_clone 4 bb_two_meta) =
    Done [app_op 4 1; meta_op 6 7; app_ret 7] /\
  app_instrs (instrlist_clone 4 bb_two_meta) = [app_op 4 1; app_ret 7] /\
  exists r,
    drstatecmp_duplicate_bb plat base 4 bb_two_meta = Done r /\
    instrs_after (fst (fst r)) (copy_bb_start (snd (fst r))) =
    [app_op 4 1; meta_op 6 7; term (snd (fst r)); app_ret 7].
Proof.
  split; [intros; apply strip_clone|].
  split; [reflexivity|]. split; [reflexivity|].
  eexists. split; reflexivity.
Qed.

Lemma filter_nil_forallb {A} (p : A -> bool) (l : list A) :
  filter p l = [] <-> forallb (fun x => negb (p x)) l = true.
Proof.
  induction l as [|x l IH]; cbn [filter forallb]; [tauto|].
  destruct (p x); cbn [negb andb]; [split; discriminate | exact IH].
Qed.

Lemma app_transfers_app (l1 l2 : instrlist_t) :
  app_transfers (l1 ++ l2) = app_transfers l1 ++ app_transfers l2.
Proof. apply filter_app. Qed.

Lemma app_transfers_all_meta (l : instrlist_t) :
  forallb instr_meta l = true -> app_transfers l = [].
Proof.
  intros H. apply filter_nil_forallb. rewrite forallb_forall in *.
  intros x Hx. unfold instr_is_app. now rewrite (H x Hx).
Qed.

Lemma app_transfers_in_clone (a : nat) (l s : instrlist_t) :
  incl s (instrlist_clone a l) -> app_transfers l = [] -> app_transfers s = [].
Proof.
  intros I H. apply filter_nil_forallb. apply filter_nil_forallb in H.
  apply (forallb_incl _ _ _ I). rewrite forallb_clone; [assumption | reflexivity].
Qed.

(** The terminator.  A block whose last application instruction [T]
    transfers control (and is its only application instruction that does):
    the duplicator
    takes [T] out of the original part, which then holds no application
    control transfer and runs on into the copy-block-start label; the one
    application control transfer of the result is the copy's instance of
    [T], placed right after the terminator label with nothing but meta
    instructions behind it.  The object of [T] itself is destroyed; the
    instance that stays is the clone's. *)
Theorem terminator_relocated (brk : nat) (bb : instrlist_t) (T : instr_t) :
  wf_block brk bb = true ->
  instrlist_last_app bb = Some T ->
  is_transfer T = true ->
  app_transfers bb = [T] ->
  exists res labels B C T' trailing,
    drstatecmp_duplicate_bb plat base brk bb =
      Done (res, labels, S (S (S (brk + length bb)))) /\
    res = orig_bb_start labels :: B ++
          copy_bb_start labels :: C ++ term labels :: T' :: trailing /\
    B = instrlist_remove bb T /\
    ~ In (instr_addr T) (addrs res) /\
    app_transfers (orig_bb_start labels :: B) = [] /\
    same_instr T' T /\
    forallb instr_meta trailing = true /\
    app_transfers res = [T'].
Proof.
  intros Hwf Hlast HT Honly.
  destruct (duplicate_bb_shape plat base brk bb T Hwf Hlast)
    as [pre [post [s1 [s2 [Hbb [Happ [Hpost [I1 [I2 [A [M Hdup]]]]]]]]]]].
  cbv zeta in Hdup. rewrite HT in Hdup.
  apply wf_block_spec in Hwf. destruct Hwf as [Hnd Hlt].
  subst bb.
  assert (~ In (instr_addr T) (addrs pre) /\ ~ In (instr_addr T) (addrs post))
    as [HnT1 HnT2].
  { rewrite addrs_app in Hnd. cbn [addrs map] in Hnd.
    now apply NoDup_mid_notin in Hnd. }
  assert (instr_addr T < brk) as HTb.
  { rewrite addrs_app in Hlt. apply Forall_app in Hlt. destruct Hlt as [_ Hlt].
    now inversion Hlt. }
  assert (app_transfers pre = [] /\ app_transfers post = []) as [Hp1 Hp2].
  { rewrite app_transfers_app in Honly. unfold app_transfers in Honly at 2.
    cbn [filter] in Honly. fold (app_transfers post) in Honly.
    rewrite Happ, HT in Honly. cbn [andb] in Honly.
    destruct (app_transfers pre) as [|x l].
    - cbn [app] in Honly. injection Honly as E. now rewrite E.
    - cbn [app] in Honly. injection Honly as _ E.
      destruct l; discriminate. }
  assert (forallb instr_meta s2 = true) as Hs2.
  { apply (forallb_incl _ _ _ I2). now rewrite forallb_meta_clone. }
  eexists _, _, (pre ++ post), s1, (instr_at (brk + length pre) T), s2.
  split; [exact Hdup|]. cbn [orig_bb_start copy_bb_start term app].
  split; [reflexivity|].
  split; [now rewrite instrlist_remove_at|].
  split.
  { cbn [addrs map]. rewrite !map_app. cbn [map].
    rewrite map_app. cbn [map]. rewrite length_app. cbn [length].
    intros [E|Hin]; [cbn in E; lia|].
    apply in_app_or in Hin. destruct Hin as [Hin|[E|Hin]].
    - apply in_app_or in Hin. tauto.
    - cbn in E. lia.
    - apply in_app_or in Hin. destruct Hin as [Hin|[E|[E|Hin]]].
      + apply (addr_in_clone _ _ _ _ I1) in Hin. lia.
      + cbn in E. lia.
      + cbn in E. lia.
      + apply (addr_in_clone _ _ _ _ I2) in Hin. lia. }
  split.
  { change (app_transfers (?x :: ?l)) with (app_transfers ([x] ++ l)).
    rewrite !app_transfers_app, Hp1, Hp2. reflexivity. }
  split; [reflexivity|].
  split; [assumption|].
  change (?x :: (pre ++ post) ++ ?y :: s1 ++ ?z :: ?t :: s2)
    with ([x] ++ (pre ++ post) ++ [y] ++ s1 ++ [z] ++ [t] ++ s2).
  rewrite !app_transfers_app, Hp1, Hp2.
  rewrite (app_transfers_in_clone _ _ _ I1 Hp1).
  rewrite (app_transfers_all_meta s2 Hs2).
  unfold app_transfers. cbn [filter label_instr instr_is_app instr_meta negb andb app].
  change (instr_is_app (instr_at (brk + length pre) T)) with (instr_is_app T).
  change (is_transfer (instr_at (brk + length pre) T)) with (is_transfer T).
  rewrite Happ, HT. reflexivity.
Qed.

(** *** Label values *)

Lemma wrap_to_ptr_int (z : Z) :
  wrap_ptr plat (to_ptr_int plat (wrap_ptr plat z)) = wrap_ptr plat z.
Proof.
  unfold to_ptr_int, wrap_ptr, ptr_modulus.
  assert (0 < 2 ^ ptr_bits plat)%Z as HM by (destruct plat; reflexivity).
  set (M := (2 ^ ptr_bits plat)%Z) in *.
  pose proof (Z.mod_pos_bound z M HM) as Hb.
  destruct (z mod M <? 2 ^ (ptr_bits plat - 1))%Z.
  - apply Z.mod_small. exact Hb.
  - rewrite <- (Z.mod_add _ 1 M) by lia.
    replace (z mod M - M + 1 * M)%Z with (z mod M)%Z by lia.
    apply Z.mod_small. exact Hb.
Qed.

Lemma label_note (k : drstatecmp_label_t) :
  wrap_ptr plat (get_label_val plat base k) = wrap_ptr plat (base + label_index k).
Proof. unfold get_label_val. apply wrap_to_ptr_int. Qed.

Lemma label_note_inj (k1 k2 : drstatecmp_label_t) :
  wrap_ptr plat (get_label_val plat base k1) =
  wrap_ptr plat (get_label_val plat base k2) -> k1 = k2.
Proof.
  rewrite !label_note. unfold wrap_ptr, ptr_modulus. intros E.
  assert (((base + label_index k1) - (base + label_index k2)) mod
            2 ^ ptr_bits plat = 0)%Z as D.
  { rewrite Zminus_mod, E, Z.sub_diag. apply Zmod_0_l. }
  replace (base + label_index k1 - (base + label_index k2))%Z
    with (label_index k1 - label_index k2)%Z in D by lia.
  destruct plat, k1, k2; try reflexivity; vm_compute in D; discriminate.
Qed.

Lemma match_label_instr (a : nat) (k k' : drstatecmp_label_t) :
  match_label_val plat base (label_instr plat base a k) k' = label_eqb k k'.
Proof.
  unfold match_label_val, instr_get_note, label_instr. cbn [instr_note].
  destruct (label_eqb k k') eqn:E; unfold label_eqb in E.
  - apply Z.eqb_eq in E. assert (k = k') as -> by (destruct k, k'; try discriminate; reflexivity).
    apply Z.eqb_refl.
  - apply Z.eqb_neq. intros H. apply label_note_inj in H. subst k'.
    now rewrite Z.eqb_refl in E.
Qed.






Lemma existsb_app_last (bb : instrlist_t) :
  existsb instr_is_app bb = true -> exists t, instrlist_last_app bb = Some t.
Proof.
  intros H. apply existsb_exists in H. now apply last_app_some.
Qed.



(** *** The calls at the labels *)

Lemma drstatecmp_calls_app (l1 l2 : instrlist_t) :
  drstatecmp_calls (l1 ++ l2) = drstatecmp_calls l1 ++ drstatecmp_calls l2.
Proof.
  induction l1 as [|x l1 IH]; cbn [app drstatecmp_calls]; [reflexivity|].
  destruct (instr_opcode x) as [|c args|]; try exact IH.
  destruct (is_drstatecmp_callee c); [cbn [app]; now rewrite IH | exact IH].
Qed.

Lemma drstatecmp_calls_none (l : instrlist_t) :
  no_drstatecmp_call l = true -> drstatecmp_calls l = [].
Proof.
  unfold no_drstatecmp_call, is_drstatecmp_call.
  induction l as [|x l IH]; cbn [forallb drstatecmp_calls]; [reflexivity|].
  rewrite andb_true_iff. intros [Hx Hl].
  destruct (instr_opcode x) as [|c args|]; auto.
  destruct (is_drstatecmp_callee c); [discriminate | auto].
Qed.

Lemma no_drstatecmp_call_clone (a : nat) (l : instrlist_t) :
  no_drstatecmp_call (instrlist_clone a l) = no_drstatecmp_call l.
Proof. unfold no_drstatecmp_call. now apply forallb_clone. Qed.

Lemma app_instrs_app (l1 l2 : instrlist_t) :
  app_instrs (l1 ++ l2) = app_instrs l1 ++ app_instrs l2.
Proof. apply filter_app. Qed.

Lemma app_instrs_idem (l : instrlist_t) : app_instrs (app_instrs l) = app_instrs l.
Proof.
  unfold app_instrs. induction l as [|y l IH]; cbn [filter]; [reflexivity|].
  destruct (instr_is_app y) eqn:Ey; cbn [filter]; [rewrite Ey; now f_equal | exact IH].
Qed.

Lemma contents_app (l1 l2 : instrlist_t) :
  contents (l1 ++ l2) = contents l1 ++ contents l2.
Proof. apply map_app. Qed.

(** The whole transform of a block that passes the gate, written out. *)
Lemma post_process_shape (brk : nat) (bb : instrlist_t) (t : instr_t) :
  wf_block brk bb = true ->
  instrlist_last_app bb = Some t ->
  exists B C D,
    drstatecmp_post_process_side_effect_free_bb plat base brk bb =
    Done
      (clean_call_instr (3 + (brk + length bb)) drstatecmp_save_state_call_fn [0%Z] ::
       label_instr plat base (brk + length bb) DRSTATECMP_LABEL_ORIG_BB :: B ++
       clean_call_instr (4 + (brk + length bb)) drstatecmp_save_state_call_fn [1%Z] ::
       clean_call_instr (5 + (brk + length bb)) drstatecmp_restore_state_call_fn [] ::
       label_instr plat base (1 + (brk + length bb)) DRSTATECMP_LABEL_COPY_BB :: C ++
       clean_call_instr (6 + (brk + length bb)) drstatecmp_compare_state_call_fn [] ::
       label_instr plat base (2 + (brk + length bb)) DRSTATECMP_LABEL_TERM :: D) /\
    B = (if is_transfer t then instrlist_remove bb t else bb) /\
    incl (C ++ D) (instrlist_clone brk bb) /\
    contents (app_instrs (C ++ D)) = contents (app_instrs bb) /\
    (length (filter instr_meta bb) <= 1 ->
     contents (C ++ D) = contents (app_instrs bb)).
Proof.
  intros Hwf Hlast.
  destruct (duplicate_bb_shape plat base brk bb t Hwf Hlast)
    as [pre [post [s1 [s2 [Hbb [Ht [Hpost [I1 [I2 [A [M Hdup]]]]]]]]]]].
  cbv zeta in Hdup.
  apply wf_block_spec in Hwf. destruct Hwf as [Hnd Hlt].
  set (n := brk + length bb) in *.
  set (t' := instr_at (brk + length pre) t) in *.
  assert (~ In (instr_addr t) (addrs pre)) as HnT.
  { rewrite Hbb, addrs_app in Hnd. cbn [addrs map] in Hnd.
    now apply NoDup_mid_notin in Hnd. }
  assert (forall x, In x (addrs bb) -> x < n) as Bbb.
  { intros x Hx. rewrite Forall_forall in Hlt. specialize (Hlt x Hx). subst n. lia. }
  assert (forall x, In x (addrs s1) -> x < n) as Bs1.
  { intros x Hx. apply (addr_in_clone _ _ _ _ I1) in Hx. subst n.
    rewrite Hbb, length_app. lia. }
  assert (instr_addr t' < n) as Bt'.
  { subst n t'. rewrite Hbb, length_app. cbn. lia. }
  assert (incl (s1 ++ t' :: s2) (instrlist_clone brk bb)) as Iall.
  { rewrite Hbb, clone_app. cbn [instrlist_clone]. fold t'.
    intros x Hx. apply in_app_or in Hx. apply in_or_app.
    destruct Hx as [Hx|[<-|Hx]]; [left; now apply I1 | right; now left |].
    right. right. now apply I2. }
  assert (contents (app_instrs (s1 ++ t' :: s2)) = contents (app_instrs bb)) as Ec.
  { rewrite Hbb, !app_instrs_app, A, !contents_app, app_instrs_clone.
    f_equal.
    unfold app_instrs at 1 2. cbn [filter].
    change (instr_is_app t') with (instr_is_app t). rewrite Ht.
    fold (app_instrs s2). fold (app_instrs post).
    rewrite (app_instrs_all_meta post Hpost).
    rewrite (app_instrs_all_meta s2); [reflexivity|].
    apply (forallb_incl _ _ _ I2). now rewrite forallb_meta_clone. }
  assert (length (filter instr_meta bb) <= 1 ->
          contents (s1 ++ t' :: s2) = contents (app_instrs bb)) as Eclean.
  { intros Hm. rewrite <- Ec. destruct (M Hm) as [-> ->].
    rewrite app_instrs_app, app_instrs_idem.
    unfold app_instrs at 3. cbn [filter].
    change (instr_is_app t') with (instr_is_app t). now rewrite Ht. }
  assert (forall x, In x (addrs (pre ++ post)) -> x < n) as Bpp.
  { intros x Hx. apply Bbb. rewrite Hbb. rewrite !addrs_app in *.
    apply in_app_or in Hx. apply in_or_app.
    destruct Hx; [now left | right; now right]. }
  unfold drstatecmp_post_process_side_effect_free_bb. rewrite Hdup.
  destruct (is_transfer t) eqn:Htr.
  - exists (pre ++ post), s1, (t' :: s2).
    split; [|split; [rewrite Hbb; now rewrite instrlist_remove_at|
                     split; [assumption | split; assumption]]].
    f_equal. cbn [app]. apply check_reexecution_shape.
    + intros [E|Hin]; [cbn in E; lia|].
      apply Bpp in Hin. cbn in Hin. lia.
    + intros [E|Hin]; [cbn in E; lia|].
      rewrite addrs_app in Hin.
      apply in_app_or in Hin. destruct Hin as [Hin|[E|Hin]].
      * apply Bpp in Hin. cbn in Hin. lia.
      * cbn in E. lia.
      * apply Bs1 in Hin. cbn in Hin. lia.
    + cbn. lia.
    + cbn. lia.
  - exists (pre ++ t :: post), (s1 ++ [t']), s2.
    split; [|split; [now rewrite Hbb|
                     split; [rewrite <- app_assoc; assumption |
                             split; rewrite <- app_assoc; assumption]]].
    f_equal. cbn [app].
    replace (s1 ++ t' :: label_instr plat base (S (S n)) DRSTATECMP_LABEL_TERM :: s2)
      with ((s1 ++ [t']) ++ label_instr plat base (S (S n)) DRSTATECMP_LABEL_TERM :: s2)
      by (rewrite <- app_assoc; reflexivity).
    apply check_reexecution_shape.
    + intros [E|Hin]; [cbn in E; lia|].
      rewrite <- Hbb in Hin. apply Bbb in Hin. cbn in Hin. lia.
    + intros [E|Hin]; [cbn in E; lia|].
      rewrite addrs_app in Hin.
      apply in_app_or in Hin. destruct Hin as [Hin|[E|Hin]].
      * rewrite <- Hbb in Hin. apply Bbb in Hin. cbn in Hin. lia.
      * cbn in E. lia.
      * rewrite addrs_app in Hin. apply in_app_or in Hin.
        destruct Hin as [Hin|[E|[]]]; [apply Bs1 in Hin; cbn in Hin; lia|].
        cbn [label_instr instr_addr] in E. lia.
    + cbn. lia.
    + cbn. lia.
Qed.

Lemma instrlist_remove_incl (l : instrlist_t) (w : instr_t) :
  incl (instrlist_remove l w) l.
Proof.
  induction l as [|x l IH]; cbn [instrlist_remove]; [apply incl_refl|].
  destruct (same_addr x w); [apply incl_tl, incl_refl|].
  intros y [<-|Hy]; [now left | right; now apply IH].
Qed.

(** C2 (as amended).  A block that passes the gate gets four clean calls,
    at three places: the capture into [for_restore] right before the
    original-block-start label, the capture into [for_cmp] and then the
    restore right before the copy-block-start label, the comparison right
    before the terminator label.  These are the only calls into the
    module in the block and that is their order.  Between the first
    capture and the restore lies the original block less its terminator,
    its instrumentation included; between the two lies also the capture
    into [for_cmp], and between that capture and the comparison the
    restore and the copy. *)
Theorem clean_calls_at_labels (brk : nat) (bb : instrlist_t) :
  wf_block brk bb = true ->
  no_drstatecmp_call bb = true ->
  existsb instr_is_app bb = true ->
  app_side_effect_free bb = true ->
  exists res B C D,
    drstatecmp_post_instru_phase plat base brk bb = Done res /\
    res =
      clean_call_instr (3 + (brk + length bb)) drstatecmp_save_state_call_fn [0%Z] ::
      label_instr plat base (brk + length bb) DRSTATECMP_LABEL_ORIG_BB :: B ++
      clean_call_instr (4 + (brk + length bb)) drstatecmp_save_state_call_fn [1%Z] ::
      clean_call_instr (5 + (brk + length bb)) drstatecmp_restore_state_call_fn [] ::
      label_instr plat base (1 + (brk + length bb)) DRSTATECMP_LABEL_COPY_BB :: C ++
      clean_call_instr (6 + (brk + length bb)) drstatecmp_compare_state_call_fn [] ::
      label_instr plat base (2 + (brk + length bb)) DRSTATECMP_LABEL_TERM :: D /\
    drstatecmp_calls res =
      [(drstatecmp_save_state_call_fn, [0%Z]);
       (drstatecmp_save_state_call_fn, [1%Z]);
       (drstatecmp_restore_state_call_fn, []);
       (drstatecmp_compare_state_call_fn, [])] /\
    (forall t, instrlist_last_app bb = Some t ->
               B = if is_transfer t then instrlist_remove bb t else bb) /\
    filter instr_meta B = filter instr_meta bb /\
    contents (app_instrs (C ++ D)) = contents (app_instrs bb).
Proof.
  intros Hwf Hnc Happ Hfree.
  destruct (existsb_app_last bb Happ) as [t Hlast].
  destruct (post_process_shape brk bb t Hwf Hlast) as [B [C [D [Hpp [HB [I [Ec _]]]]]]].
  eexists _, B, C, D.
  split.
  { unfold drstatecmp_post_instru_phase. rewrite side_effect_free_spec.
    - rewrite Hfree. exact Hpp.
    - apply wf_block_spec in Hwf. tauto. }
  split; [reflexivity|].
  split.
  { assert (drstatecmp_calls B = []) as EB.
    { apply drstatecmp_calls_none.
      apply (forallb_incl _ B bb); [|exact Hnc].
      rewrite HB. destruct (is_transfer t);
        [apply instrlist_remove_incl | apply incl_refl]. }
    assert (no_drstatecmp_call (C ++ D) = true) as ECD.
    { apply (forallb_incl _ _ _ I).
      fold (no_drstatecmp_call (instrlist_clone brk bb)).
      rewrite no_drstatecmp_call_clone. exact Hnc. }
    unfold no_drstatecmp_call in ECD. rewrite forallb_app in ECD.
    apply andb_true_iff in ECD. destruct ECD as [EC ED].
    apply drstatecmp_calls_none in EC, ED.
    change (?a :: ?b :: B ++ ?c :: ?d :: ?e :: C ++ ?f :: ?g :: D)
      with ([a; b] ++ B ++ [c; d; e] ++ C ++ [f; g] ++ D).
    rewrite !drstatecmp_calls_app, EB, EC, ED. reflexivity. }
  split.
  { intros t0 E. rewrite Hlast in E. injection E as <-. exact HB. }
  split; [|exact Ec].
  rewrite HB. destruct (is_transfer t); [|reflexivity].
  destruct (last_app_split _ _ Hlast) as [pre [post [Hbb [Ht _]]]].
  apply wf_block_spec in Hwf. destruct Hwf as [Hnd _].
  rewrite Hbb in Hnd |- *. rewrite addrs_app in Hnd. cbn [addrs map] in Hnd.
  apply NoDup_mid_notin in Hnd.
  rewrite instrlist_remove_at by tauto.
  rewrite !filter_app. cbn [filter]. unfold instr_is_app in Ht.
  apply negb_true_iff in Ht. now rewrite Ht.
Qed.

(** C9. The gate walks the application instructions only; what a meta
    instruction does (a memory write, an interrupt, a syscall) does not
    enter the decision.  A block whose application instructions are free of
    side effects is therefore handed to the duplicate-and-compare
    transform, whatever its instrumentation writes. *)
Theorem gate_walks_app_only (brk : nat) (bb : instrlist_t) :
  wf_block brk bb = true ->
  side_effect_free bb = Done (app_side_effect_free bb) /\
  ((forall i, In i bb -> instr_is_app i = true ->
              drstatecmp_may_have_side_effects_instr i = false) ->
   side_effect_free bb = Done true /\
   drstatecmp_post_instru_phase plat base brk bb =
   drstatecmp_post_process_side_effect_free_bb plat base brk bb).
Proof.
  intros Hwf. apply wf_block_spec in Hwf. destruct Hwf as [Hnd _].
  pose proof (side_effect_free_spec bb Hnd) as E.
  split; [exact E|]. intros Hall.
  assert (app_side_effect_free bb = true) as Hfree.
  { unfold app_side_effect_free, app_instrs. apply forallb_forall.
    intros x Hx. apply filter_In in Hx. destruct Hx as [Hin Happ].
    now rewrite (Hall x Hin Happ). }
  unfold drstatecmp_post_instru_phase. rewrite E, Hfree. split; reflexivity.
Qed.

End Duplicator.

(** ** The guarantees at sample blocks *)

Section Samples.

Local Open Scope nat_scope.

(** The relocation of the terminator at [MOV; (instrumentation); RET]. *)
Lemma terminator_relocated_witness :
  wf_block 3 bb_one_meta = true /\
  instrlist_last_app bb_one_meta = Some (app_ret 2) /\
  is_transfer (app_ret 2) = true /\
  app_transfers bb_one_meta = [app_ret 2] /\
  exists res labels B C T' trailing,
    drstatecmp_duplicate_bb X86_64 4096 3 bb_one_meta =
      Done (res, labels, S (S (S (3 + length bb_one_meta)))) /\
    res = orig_bb_start labels :: B ++
          copy_bb_start labels :: C ++ term labels :: T' :: trailing /\
    B = instrlist_remove bb_one_meta (app_ret 2) /\
    ~ In (instr_addr (app_ret 2)) (addrs res) /\
    app_transfers (orig_bb_start labels :: B) = [] /\
    same_instr T' (app_ret 2) /\
    forallb instr_meta trailing = true /\
    app_transfers res = [T'].
Proof.
  repeat (split; [reflexivity|]).
  apply (terminator_relocated X86_64 4096 3 bb_one_meta (app_ret 2));
    reflexivity.
Defined.


(** The clean calls placed in [MOV; (instrumentation); RET]. *)
Lemma clean_calls_at_labels_witness :
  wf_block 3 bb_one_meta = true /\
  no_drstatecmp_call bb_one_meta = true /\
  existsb instr_is_app bb_one_meta = true /\
  app_side_effect_free bb_one_meta = true /\
  exists res B C D,
    drstatecmp_post_instru_phase X86_64 4096 3 bb_one_meta = Done res /\
    res =
      clean_call_instr 9 drstatecmp_save_state_call_fn [0%Z] ::
      label_instr X86_64 4096 6 DRSTATECMP_LABEL_ORIG_BB :: B ++
      clean_call_instr 10 drstatecmp_save_state_call_fn [1%Z] ::
      clean_call_instr 11 drstatecmp_restore_state_call_fn [] ::
      label_instr X86_64 4096 7 DRSTATECMP_LABEL_COPY_BB :: C ++
      clean_call_instr 12 drstatecmp_compare_state_call_fn [] ::
      label_instr X86_64 4096 8 DRSTATECMP_LABEL_TERM :: D /\
    drstatecmp_calls res =
      [(drstatecmp_save_state_call_fn, [0%Z]);
       (drstatecmp_save_state_call_fn, [1%Z]);
       (drstatecmp_restore_state_call_fn, []);
       (drstatecmp_compare_state_call_fn, [])] /\
    (forall t, instrlist_last_app bb_one_meta = Some t ->
               B = if is_transfer t then instrlist_remove bb_one_meta t
                   else bb_one_meta) /\
    filter instr_meta B = filter instr_meta bb_one_meta /\
    contents (app_instrs (C ++ D)) = contents (app_instrs bb_one_meta).
Proof.
  repeat (split; [reflexivity|]).
  apply (clean_calls_at_labels X86_64 4096 3 bb_one_meta); reflexivity.
Defined.

(** C2 as stated fails at [MOV; (instrumentation); RET]: four clean calls
    run, not three, and the instrumentation and the capture into
    [for_cmp] run between the capture into [for_restore] and the restore
    that uses it. *)
Lemma three_clean_calls_refuted :
  ~ (exists res,
        drstatecmp_post_instru_phase X86_64 4096 3 bb_one_meta = Done res /\
        length (drstatecmp_calls res) = 3) /\
  exists res before between after,
    drstatecmp_post_instru_phase X86_64 4096 3 bb_one_meta = Done res /\
    length (drstatecmp_calls res) = 4 /\
    res = before ++
          clean_call_instr 9 drstatecmp_save_state_call_fn [0%Z] :: between ++
          clean_call_instr 11 drstatecmp_restore_state_call_fn [] :: after /\
    In (meta_op 1 99) between /\
    In (clean_call_instr 10 drstatecmp_save_state_call_fn [1%Z]) between.
Proof.
  split.
  - intros [res [E L]]. vm_compute in E. injection E as <-.
    vm_compute in L. discriminate.
  - eexists _, [], [_; _; _; _], _.
    split; [vm_compute; reflexivity|].
    split; [reflexivity|]. split; [reflexivity|].
    split; [right; right; now left | right; right; right; now left].
Qed.

(** The gate at [MOV; (instrumentation: store)]: the store of the
    instrumentation does not keep the block from being transformed. *)
Lemma gate_walks_app_only_witness :
  wf_block 2 bb_meta_store = true /\
  drstatecmp_may_have_side_effects_instr (meta_store 1 137) = true /\
  side_effect_free bb_meta_store = Done true /\
  exists res,
    drstatecmp_post_instru_phase X86_64 4096 2 bb_meta_store = Done res /\
    drstatecmp_post_process_side_effect_free_bb X86_64 4096 2 bb_meta_store =
    Done res.
Proof.
  split; [reflexivity|]. split; [reflexivity|].
  destruct (gate_walks_app_only X86_64 4096 2 bb_meta_store eq_refl) as [_ H].
  destruct H as [H1 H2].
  - intros i [<-|[<-|[]]] Happ; [reflexivity | discriminate].
  - split; [exact H1|]. rewrite H2. eexists. split; reflexivity.
Defined.

End Samples.

(** ** The comparison of the two runs *)

Section CompareFacts.

Local Open Scope string_scope.
Local Open Scope list_scope.
Local Open Scope Z_scope.

Variable plat : platform.
Variable MCXT_NUM_SIMD_SLOTS : nat.
Variable MCXT_NUM_OPMASK_SLOTS : nat.
Variable sizeof_simd : nat.
Variable sizeof_mcontext : Z.
Variable DR_MC_ALL : Z.

Lemma and_then_assoc (a b c : assertion) : (a ;; b) ;; c = a ;; b ;; c.
Proof. destruct a; reflexivity. Qed.

Lemma and_then_none_r (a : assertion) : a ;; None = a.
Proof. destruct a; reflexivity. Qed.

Lemma all_of_app (l1 l2 : list assertion) :
  all_of (l1 ++ l2) = all_of l1 ;; all_of l2.
Proof.
  induction l1 as [|a l1 IH]; cbn [app all_of]; [reflexivity|].
  now rewrite IH, and_then_assoc.
Qed.

Lemma for_loop_all_of (n from : nat) (body : nat -> assertion) :
  for_loop n from body = all_of (map body (seq from n)).
Proof.
  revert from. induction n as [|n IH]; intros from; cbn [for_loop seq map all_of];
    [reflexivity|].
  now rewrite IH.
Qed.

(** The comparison is the sequence of the assertions about the compared
    fields, in their order. *)
Lemma compare_as_fields (pt : drstatecmp_saved_states) (live : dr_mcontext_t) :
  drstatecmp_compare_state_call plat MCXT_NUM_SIMD_SLOTS MCXT_NUM_OPMASK_SLOTS
                                sizeof_simd sizeof_mcontext DR_MC_ALL pt live =
  all_of (map (check_field sizeof_simd (saved_state_for_cmp pt) live)
              (compared_fields plat MCXT_NUM_SIMD_SLOTS MCXT_NUM_OPMASK_SLOTS)).
Proof.
  unfold drstatecmp_compare_state_call, compared_fields.
  rewrite !for_loop_all_of.
  destruct plat; cbn [is_x86 is_x64];
    rewrite ?map_app, ?all_of_app, ?map_map;
    cbn [map all_of x86_regs x86_64_regs arm_regs aarch64_regs check_field app
         dr_get_mcontext mc_reg mc_opmask mc_simd];
    rewrite ?and_then_assoc, ?and_then_none_r; reflexivity.
Qed.

Local Abbreviation fields := (compared_fields plat MCXT_NUM_SIMD_SLOTS MCXT_NUM_OPMASK_SLOTS).
Local Abbreviation compare :=
  (drstatecmp_compare_state_call plat MCXT_NUM_SIMD_SLOTS MCXT_NUM_OPMASK_SLOTS
                                 sizeof_simd sizeof_mcontext DR_MC_ALL).
Local Abbreviation agrees := (field_agrees sizeof_simd).

Lemma memcmp_from_zero (a b : nat -> Z) (n off : nat) :
  memcmp_from a b off n = 0 <->
  forall k, (off <= k < off + n)%nat -> a k = b k.
Proof.
  revert off. induction n as [|n IH]; intros off; cbn [memcmp_from].
  - split; [intros _ k Hk; lia | reflexivity].
  - destruct (a off =? b off) eqn:E.
    + apply Z.eqb_eq in E. rewrite IH. split; intros H k Hk.
      * destruct (Nat.eq_dec k off) as [->|Hne]; [exact E | apply H; lia].
      * apply H. lia.
    + apply Z.eqb_neq in E. split.
      * destruct (a off <? b off); discriminate.
      * intros H. exfalso. apply E, H. lia.
Qed.

Lemma check_field_none (a b : dr_mcontext_t) (f : mc_field) :
  check_field sizeof_simd a b f = None <-> agrees a b f.
Proof.
  destruct f as [name|i|i]; cbn [check_field field_agrees];
    unfold drstatecmp_check_gpr_value, drstatecmp_check_opmask_value,
      drstatecmp_check_simd_value, DR_ASSERT_MSG.
  - destruct (mc_reg a name =? mc_reg b name) eqn:E.
    + apply Z.eqb_eq in E. tauto.
    + apply Z.eqb_neq in E. split; [discriminate | tauto].
  - destruct (mc_opmask a i =? mc_opmask b i) eqn:E.
    + apply Z.eqb_eq in E. tauto.
    + apply Z.eqb_neq in E. split; [discriminate | tauto].
  - unfold memcmp.
    destruct (memcmp_from (mc_simd a i) (mc_simd b i) 0 sizeof_simd =? 0) eqn:E.
    + apply Z.eqb_eq in E. rewrite memcmp_from_zero in E.
      split; [intros _ off Hoff; apply E; lia | reflexivity].
    + apply Z.eqb_neq in E. rewrite memcmp_from_zero in E.
      split; [discriminate|]. intros H. exfalso. apply E. intros k Hk. apply H. lia.
Qed.

Lemma check_field_some (a b : dr_mcontext_t) (f : mc_field) (msg : string) :
  check_field sizeof_simd a b f = Some msg -> msg = field_message f.
Proof.
  destruct f as [name|i|i]; cbn [check_field field_message];
    unfold drstatecmp_check_gpr_value, drstatecmp_check_opmask_value,
      drstatecmp_check_simd_value, DR_ASSERT_MSG;
    match goal with |- context [if ?c then _ else _] => destruct c end;
    congruence.
Qed.

Lemma all_of_none {A} (chk : A -> assertion) (l : list A) :
  all_of (map chk l) = None <-> forall f, In f l -> chk f = None.
Proof.
  induction l as [|x l IH]; cbn [map all_of].
  - split; [intros _ f [] | reflexivity].
  - destruct (chk x) eqn:E; cbn [and_then].
    + split; [discriminate|]. intros H. rewrite <- E. apply H. now left.
    + rewrite IH. split.
      * intros H f [<-|Hf]; [exact E | now apply H].
      * intros H f Hf. apply H. now right.
Qed.

Lemma all_of_some {A} (chk : A -> assertion) (l : list A) (msg : string) :
  all_of (map chk l) = Some msg ->
  exists before f after,
    l = before ++ f :: after /\
    (forall g, In g before -> chk g = None) /\ chk f = Some msg.
Proof.
  induction l as [|x l IH]; cbn [map all_of]; [discriminate|].
  destruct (chk x) eqn:E; cbn [and_then].
  - intros H. injection H as ->. exists [], x, l.
    split; [reflexivity|]. split; [intros g []|exact E].
  - intros H. destruct (IH H) as [before [f [after [-> [Hb Hf]]]]].
    exists (x :: before), f, after. split; [reflexivity|].
    split; [|exact Hf]. intros g [<-|Hg]; [exact E | now apply Hb].
Qed.

Ltac find_in :=
  match goal with
  | |- _ = _ => reflexivity
  | |- _ \/ _ => (left; find_in) || (right; find_in)
  end.

Lemma gprs_compared (r : string) :
  In r (platform_gprs plat) -> In (REG r) fields.
Proof.
  unfold platform_gprs, compared_fields.
  destruct plat; cbn [is_x86 is_x64 In]; intros H;
    repeat (destruct H as [<-|H]; [rewrite !in_app_iff; cbn; find_in|]);
    destruct H.
Qed.

(** C3 (as amended).  The comparison sets the snapshot of the instrumented
    run ([for_cmp]) against the live state field by field: every
    general-purpose register of the target, the flags, the stack pointer,
    every vector slot and, on x86, every operand-mask slot.  It passes
    exactly when they all agree.  Otherwise the first field of the
    comparison order that differs fails its assertion and ends the run;
    the message is the field's name for a register, the flags and the
    stack pointer, and the fixed text "opmask mismatch" or "SIMD mismatch"
    for a slot, whichever slot it is. *)
Theorem compare_reports_first_mismatch
    (pt : drstatecmp_saved_states) (live : dr_mcontext_t) :
  (compare pt live = None <->
   forall f, In f fields -> agrees (saved_state_for_cmp pt) live f) /\
  (forall msg,
      compare pt live = Some msg ->
      exists before f after,
        fields = before ++ f :: after /\
        (forall g, In g before -> agrees (saved_state_for_cmp pt) live g) /\
        ~ agrees (saved_state_for_cmp pt) live f /\
        msg = field_message f) /\
  (forall r, In r (platform_gprs plat) -> In (REG r) fields) /\
  In (REG "xflags") fields /\
  In (REG "xsp") fields /\
  (forall i, (i < MCXT_NUM_SIMD_SLOTS)%nat -> In (SIMD i) fields) /\
  (is_x86 plat = true ->
   forall i, (i < MCXT_NUM_OPMASK_SLOTS)%nat -> In (OPMASK i) fields).
Proof.
  rewrite compare_as_fields.
  split.
  { rewrite all_of_none. split; intros H f Hf; apply check_field_none; auto. }
  split.
  { intros msg H. apply all_of_some in H.
    destruct H as [before [f [after [E [Hb Hf]]]]].
    exists before, f, after. split; [exact E|].
    split; [intros g Hg; apply check_field_none; auto|].
    split; [|now apply check_field_some in Hf].
    intros Ha. apply check_field_none in Ha. congruence. }
  split; [exact gprs_compared|].
  split.
  { unfold compared_fields. destruct plat; cbn [is_x86 is_x64];
      rewrite !in_app_iff; cbn; find_in. }
  split.
  { unfold compared_fields. rewrite !in_app_iff. right. left. now left. }
  split.
  { intros i Hi. unfold compared_fields. rewrite !in_app_iff. right. right.
    apply in_map, in_seq. lia. }
  intros Hx i Hi. unfold compared_fields. rewrite Hx, !in_app_iff.
  left. right. right. right. apply in_map, in_seq. lia.
Qed.

End CompareFacts.

(** ** The comparison at sample states *)

Section CompareSamples.

Local Open Scope string_scope.

(** C3 as stated fails for the vector slots: a divergence in slot 0 alone
    and a divergence in slot 1 alone are reported by the same text, so no
    naming of the fields that tells the two slots apart describes the
    reports.  (A register is reported by its name.) *)
Lemma simd_report_does_not_name_slot :
  ~ (exists name : mc_field -> string,
        name (SIMD 0) <> name (SIMD 1) /\
        reports_by_name X86_64 32 8 64 2688 7 name) /\
  drstatecmp_compare_state_call X86_64 32 8 64 2688 7
    (mk_saved_states mc_zero (mc_simd_byte 0)) mc_zero = Some "SIMD mismatch" /\
  drstatecmp_compare_state_call X86_64 32 8 64 2688 7
    (mk_saved_states mc_zero (mc_simd_byte 1)) mc_zero = Some "SIMD mismatch" /\
  drstatecmp_compare_state_call X86_64 32 8 64 2688 7
    (mk_saved_states mc_zero (mc_reg_set "xbx" 99)) mc_zero = Some "xbx".
Proof.
  assert (forall s,
             (s < 32)%nat ->
             In (SIMD s) (compared_fields X86_64 32 8) /\
             ~ field_agrees 64 (mc_simd_byte s) mc_zero (SIMD s) /\
             (forall g, g <> SIMD s -> field_agrees 64 (mc_simd_byte s) mc_zero g))
    as Hone.
  { intros s Hs. split; [|split].
    - unfold compared_fields. rewrite !in_app_iff. right. right.
      apply in_map, in_seq. lia.
    - intros H. specialize (H 0%nat ltac:(lia)). cbn in H.
      rewrite Nat.eqb_refl in H. discriminate.
    - intros [n|i|i] Hg; cbn; try reflexivity.
      intros off _. destruct (Nat.eqb i s) eqn:E; [|reflexivity].
      apply Nat.eqb_eq in E. subst i. contradiction. }
  split; [|repeat split; vm_compute; reflexivity].
  intros [name [Hd Hr]].
  destruct (Hone 0%nat ltac:(lia)) as [I0 [N0 O0]].
  destruct (Hone 1%nat ltac:(lia)) as [I1 [N1 O1]].
  pose proof (Hr (mk_saved_states mc_zero (mc_simd_byte 0)) mc_zero (SIMD 0) I0 N0 O0)
    as R0.
  pose proof (Hr (mk_saved_states mc_zero (mc_simd_byte 1)) mc_zero (SIMD 1) I1 N1 O1)
    as R1.
  vm_compute in R0. vm_compute in R1. congruence.
Qed.

End CompareSamples.

(** ** Initialisation and exit *)

Section LifecycleFacts.

Variable fw : framework_t.

Lemma wrap_int32_small (z : Z) : - 2 ^ 31 <= z < 2 ^ 31 -> wrap_int32 z = z.
Proof. intros H. unfold wrap_int32. rewrite Z.mod_small; lia. Qed.

Lemma wrap_int32_succ_not_1 (z : Z) : 1 <= z < 2 ^ 31 -> wrap_int32 (z + 1) <> 1.
Proof.
  intros H. destruct (Z.eq_dec z (2 ^ 31 - 1)) as [->|Hne].
  - vm_compute. discriminate.
  - rewrite wrap_int32_small; lia.
Qed.

(** What [drstatecmp_init] leaves when the counter does not come to 1. *)
Lemma init_not_first (st : module_state) :
  wrap_int32 (drstatecmp_init_count st + 1) <> 1 ->
  drstatecmp_init fw st =
  (Returned DRSTATECMP_ERROR_ALREADY_INITIALIZED,
   mk_module (wrap_int32 (drstatecmp_init_count st + 1)) (tls_idx st)
             (label_base st) (calls st)).
Proof.
  intros H. unfold drstatecmp_init, dr_atomic_add32_return_sum.
  apply Z.eqb_neq in H. now rewrite H.
Qed.

Lemma exit_not_last (st : module_state) :
  wrap_int32 (drstatecmp_init_count st + -1) <> 0 ->
  drstatecmp_exit fw st =
  (Returned DRSTATECMP_ERROR_NOT_INITIALIZED,
   mk_module (wrap_int32 (drstatecmp_init_count st + -1)) (tls_idx st)
             (label_base st) (calls st)).
Proof.
  intros H. unfold drstatecmp_exit, dr_atomic_add32_return_sum.
  apply Z.eqb_neq in H. now rewrite H.
Qed.

Lemma init_count_after_init (st : module_state) :
  drstatecmp_init_count (snd (drstatecmp_init fw st)) =
  wrap_int32 (drstatecmp_init_count st + 1).
Proof.
  unfold drstatecmp_init, dr_atomic_add32_return_sum, drstatecmp_label_init.
  destruct (negb _); [reflexivity|]. cbn [tls_idx set_tls_idx record_call].
  destruct (fw_tls_field fw =? -1); [reflexivity|].
  destruct (fw_DEBUG fw); [destruct (DR_ASSERT_MSG _ _)|];
    cbn [set_label_base record_call drstatecmp_init_count];
    try reflexivity;
    destruct (fw_register_thread_init fw); try reflexivity;
    destruct (fw_register_thread_exit fw); try reflexivity;
    destruct (fw_register_bb_post_instru fw); reflexivity.
Qed.

Lemma init_first (st : module_state) :
  wrap_int32 (drstatecmp_init_count st + 1) = 1 ->
  fst (drstatecmp_init fw st) <> Returned DRSTATECMP_ERROR_ALREADY_INITIALIZED /\
  exists more,
    calls (snd (drstatecmp_init fw st)) =
    calls st ++ drmgr_init :: drmgr_register_tls_field :: more.
Proof.
  intros H. unfold drstatecmp_init, dr_atomic_add32_return_sum, drstatecmp_label_init.
  apply Z.eqb_eq in H. rewrite H.
  unfold DR_ASSERT_MSG, record_call, set_tls_idx, set_label_base.
  cbn [negb tls_idx calls label_base drstatecmp_init_count].
  repeat match goal with
         | |- context [if ?c then _ else _] => destruct c
         end;
    cbn [fst snd calls]; rewrite <- ?app_assoc; cbn [app];
    (split; [discriminate | eexists; reflexivity]).
Qed.

Lemma init_count_after_exit (st : module_state) :
  drstatecmp_init_count (snd (drstatecmp_exit fw st)) =
  wrap_int32 (drstatecmp_init_count st + -1).
Proof.
  unfold drstatecmp_exit, dr_atomic_add32_return_sum, record_call.
  cbn [tls_idx calls label_base drstatecmp_init_count].
  repeat match goal with
         | |- context [if ?c then _ else _] => destruct c
         end; reflexivity.
Qed.

Lemma exit_last (st : module_state) :
  wrap_int32 (drstatecmp_init_count st + -1) = 0 ->
  fst (drstatecmp_exit fw st) <> Returned DRSTATECMP_ERROR_NOT_INITIALIZED /\
  exists more,
    calls (snd (drstatecmp_exit fw st)) =
    calls st ++ drmgr_unregister_thread_init_event :: more.
Proof.
  intros H. unfold drstatecmp_exit, dr_atomic_add32_return_sum, record_call.
  apply Z.eqb_eq in H. rewrite H.
  cbn [negb tls_idx calls label_base drstatecmp_init_count].
  repeat match goal with
         | |- context [if ?c then _ else _] => destruct c
         end;
    cbn [fst snd calls]; rewrite <- ?app_assoc; cbn [app];
    (split; [discriminate | eexists; reflexivity]).
Qed.

(** C7. [drstatecmp_init] adds one to the counter in one indivisible step.
    Unless the sum is 1 it returns "already initialized" and calls nothing
    of the framework: no marker range is reserved, no thread-local slot
    allocated, no callback subscribed, and [tls_idx] and [label_base] stay
    as they are.  That is the case of every call made while the module is
    initialized (counter at 1 or above).  When the sum is 1 the
    registration is entered ([drmgr_init], then the thread-local slot,
    ...), and carried through to "success" when the framework grants each
    step. *)
Theorem init_registers_on_first_only (st : module_state) :
  drstatecmp_init_count (snd (drstatecmp_init fw st)) =
    wrap_int32 (drstatecmp_init_count st + 1) /\
  (drstatecmp_init_count (snd (drstatecmp_init fw st)) <> 1 ->
   fst (drstatecmp_init fw st) = Returned DRSTATECMP_ERROR_ALREADY_INITIALIZED /\
   calls (snd (drstatecmp_init fw st)) = calls st /\
   tls_idx (snd (drstatecmp_init fw st)) = tls_idx st /\
   label_base (snd (drstatecmp_init fw st)) = label_base st) /\
  (drstatecmp_init_count (snd (drstatecmp_init fw st)) = 1 ->
   fst (drstatecmp_init fw st) <> Returned DRSTATECMP_ERROR_ALREADY_INITIALIZED /\
   exists more,
     calls (snd (drstatecmp_init fw st)) =
     calls st ++ drmgr_init :: drmgr_register_tls_field :: more) /\
  (1 <= drstatecmp_init_count st < 2 ^ 31 ->
   fst (drstatecmp_init fw st) = Returned DRSTATECMP_ERROR_ALREADY_INITIALIZED /\
   calls (snd (drstatecmp_init fw st)) = calls st) /\
  (drstatecmp_init_count (snd (drstatecmp_init fw st)) = 1 ->
   fw_tls_field fw <> -1 ->
   (fw_DEBUG fw = true -> fw_note_range fw <> DRMGR_NOTE_NONE) ->
   fw_register_thread_init fw = true ->
   fw_register_thread_exit fw = true ->
   fw_register_bb_post_instru fw = true ->
   drstatecmp_init fw st =
   (Returned DRSTATECMP_SUCCESS,
    mk_module 1 (fw_tls_field fw) (fw_note_range fw)
      (calls st ++
       [drmgr_init; drmgr_register_tls_field;
        drmgr_reserve_note_range DRSTATECMP_LABEL_COUNT;
        drmgr_register_thread_init_event; drmgr_register_thread_exit_event;
        drmgr_register_bb_post_instru_event]))).
Proof.
  pose proof (init_count_after_init st) as Hc.
  split; [exact Hc|]. rewrite Hc.
  split.
  { intros H. rewrite (init_not_first st H). cbn. auto. }
  split; [apply init_first|].
  split.
  { intros H. apply wrap_int32_succ_not_1 in H.
    rewrite (init_not_first st H). cbn. auto. }
  intros H Htls Hnote H1 H2 H3.
  unfold drstatecmp_init, dr_atomic_add32_return_sum, drstatecmp_label_init.
  rewrite H. cbn [Z.eqb Pos.eqb negb].
  unfold DR_ASSERT_MSG, record_call, set_tls_idx, set_label_base.
  cbn [negb tls_idx calls label_base drstatecmp_init_count].
  apply Z.eqb_neq in Htls. rewrite Htls, H1, H2, H3. cbn [negb].
  rewrite <- !app_assoc. cbn [app].
  destruct (fw_DEBUG fw); [|reflexivity].
  specialize (Hnote eq_refl). apply Z.eqb_neq in Hnote. now rewrite Hnote.
Qed.

(** C8 (as amended).  Lifecycle misuse is answered by a status of its own
    and is not fatal: an [init] that returns "already initialized" and an
    [exit] that returns "not initialized" call nothing of the framework
    (no registration, no teardown) and leave [tls_idx] and [label_base] as
    they are.  The counter is not left as it was: it is one more after
    such an [init] and one less after such an [exit].  After [init();
    exit();] from a counter at 0 a second [exit()] returns "not
    initialized", calls nothing, and leaves the counter at -1. *)
Theorem misuse_changes_counter_only (st : module_state) :
  (fst (drstatecmp_init fw st) = Returned DRSTATECMP_ERROR_ALREADY_INITIALIZED ->
   snd (drstatecmp_init fw st) =
   mk_module (wrap_int32 (drstatecmp_init_count st + 1)) (tls_idx st)
             (label_base st) (calls st)) /\
  (fst (drstatecmp_exit fw st) = Returned DRSTATECMP_ERROR_NOT_INITIALIZED ->
   snd (drstatecmp_exit fw st) =
   mk_module (wrap_int32 (drstatecmp_init_count st + -1)) (tls_idx st)
             (label_base st) (calls st)) /\
  (drstatecmp_init_count st = 0 ->
   drstatecmp_exit fw st =
   (Returned DRSTATECMP_ERROR_NOT_INITIALIZED,
    mk_module (-1) (tls_idx st) (label_base st) (calls st))) /\
  (drstatecmp_init_count st = 0 ->
   forall s1 s2,
     s1 = snd (drstatecmp_init fw st) ->
     s2 = snd (drstatecmp_exit fw s1) ->
     drstatecmp_init_count s2 = 0 /\
     drstatecmp_exit fw s2 =
     (Returned DRSTATECMP_ERROR_NOT_INITIALIZED,
      mk_module (-1) (tls_idx s2) (label_base s2) (calls s2))).
Proof.
  assert (forall s, drstatecmp_init_count s = 0 ->
                    drstatecmp_exit fw s =
                    (Returned DRSTATECMP_ERROR_NOT_INITIALIZED,
                     mk_module (-1) (tls_idx s) (label_base s) (calls s))) as Hx.
  { intros s H. rewrite exit_not_last; rewrite H; [reflexivity|].
    vm_compute. discriminate. }
  split.
  { intros H.
    destruct (Z.eq_dec (wrap_int32 (drstatecmp_init_count st + 1)) 1) as [E|E].
    - apply init_first in E. tauto.
    - now rewrite (init_not_first st E). }
  split.
  { intros H.
    destruct (Z.eq_dec (wrap_int32 (drstatecmp_init_count st + -1)) 0) as [E|E].
    - apply exit_last in E. tauto.
    - now rewrite (exit_not_last st E). }
  split; [apply Hx|].
  intros H s1 s2 -> ->.
  assert (drstatecmp_init_count (snd (drstatecmp_exit fw (snd (drstatecmp_init fw st)))) = 0)
    as E.
  { rewrite init_count_after_exit, init_count_after_init, H. reflexivity. }
  split; [exact E | now apply Hx].
Qed.

End LifecycleFacts.

(** ** The lifecycle at the state the module is loaded in *)

Section LifecycleSamples.

(** [init(); init();]: the second call registers nothing. *)
Lemma init_registers_on_first_only_witness :
  1 <= drstatecmp_init_count (snd (drstatecmp_init fw_ok module_at_load)) < 2 ^ 31 /\
  fst (drstatecmp_init fw_ok (snd (drstatecmp_init fw_ok module_at_load))) =
    Returned DRSTATECMP_ERROR_ALREADY_INITIALIZED /\
  calls (snd (drstatecmp_init fw_ok (snd (drstatecmp_init fw_ok module_at_load)))) =
    calls (snd (drstatecmp_init fw_ok module_at_load)).
Proof.
  assert (1 <= drstatecmp_init_count (snd (drstatecmp_init fw_ok module_at_load))
          < 2 ^ 31) as H by (vm_compute; split; [discriminate | reflexivity]).
  split; [exact H|].
  apply (init_registers_on_first_only fw_ok
           (snd (drstatecmp_init fw_ok module_at_load))).
  exact H.
Defined.

(** [init(); exit(); exit();] from the state at load. *)
Lemma misuse_changes_counter_only_witness :
  drstatecmp_init_count module_at_load = 0 /\
  drstatecmp_init_count
    (snd (drstatecmp_exit fw_ok (snd (drstatecmp_init fw_ok module_at_load)))) = 0 /\
  drstatecmp_exit fw_ok
    (snd (drstatecmp_exit fw_ok (snd (drstatecmp_init fw_ok module_at_load)))) =
  (Returned DRSTATECMP_ERROR_NOT_INITIALIZED,
   mk_module (-1)
     (tls_idx (snd (drstatecmp_exit fw_ok (snd (drstatecmp_init fw_ok module_at_load)))))
     (label_base (snd (drstatecmp_exit fw_ok (snd (drstatecmp_init fw_ok module_at_load)))))
     (calls (snd (drstatecmp_exit fw_ok (snd (drstatecmp_init fw_ok module_at_load)))))).
Proof.
  split; [reflexivity|].
  destruct (misuse_changes_counter_only fw_ok module_at_load) as [_ [_ [_ H]]].
  exact (H eq_refl _ _ eq_refl eq_refl).
Defined.

(** C8 as stated fails: the second [exit()] of [init(); exit(); exit();]
    does alter the module state (the counter goes from 0 to -1), and so
    does the second [init()] of [init(); init();] (from 1 to 2).  The
    change shows: an [init()] after the stray [exit()] brings the counter
    to 0, returns "already initialized" and registers nothing. *)
Lemma misuse_alters_module_state :
  (let s2 := snd (drstatecmp_exit fw_ok (snd (drstatecmp_init fw_ok module_at_load))) in
   fst (drstatecmp_exit fw_ok s2) = Returned DRSTATECMP_ERROR_NOT_INITIALIZED /\
   snd (drstatecmp_exit fw_ok s2) <> s2 /\
   drstatecmp_init_count s2 = 0 /\
   drstatecmp_init_count (snd (drstatecmp_exit fw_ok s2)) = -1 /\
   drstatecmp_init fw_ok (snd (drstatecmp_exit fw_ok s2)) =
   (Returned DRSTATECMP_ERROR_ALREADY_INITIALIZED,
    mk_module 0 (tls_idx s2) (label_base s2) (calls s2))) /\
  (let s1 := snd (drstatecmp_init fw_ok module_at_load) in
   fst (drstatecmp_init fw_ok s1) = Returned DRSTATECMP_ERROR_ALREADY_INITIALIZED /\
   snd (drstatecmp_init fw_ok s1) <> s1 /\
   drstatecmp_init_count s1 = 1 /\
   drstatecmp_init_count (snd (drstatecmp_init fw_ok s1)) = 2).
Proof.
  cbv zeta. repeat split; try (vm_compute; reflexivity);
    vm_compute; discriminate.
Qed.

End LifecycleSamples.

(** ** The remaining guarantees at sample inputs *)

Section MoreSamples.

Local Open Scope string_scope.
Local Open Scope list_scope.

(** The classifier at a store and at a return. *)
Lemma may_have_side_effects_iff_witness :
  drstatecmp_may_have_side_effects_instr (meta_store 1 137) = true /\
  drstatecmp_may_have_side_effects_instr (app_ret 2) = false.
Proof.
  destruct may_have_side_effects_iff as [H1 H2]. split.
  - apply H1. left. reflexivity.
  - unfold app_ret. rewrite H2. reflexivity.
Defined.

(** The duplicator at a block of one instrumentation instruction and at
    [MOV; (instrumentation); RET]. *)
Lemma duplicate_bb_null_deref_witness :
  drstatecmp_duplicate_bb X86_64 4096 1 [meta_op 0 99] = NullDeref /\
  exists r, drstatecmp_duplicate_bb X86_64 4096 3 bb_one_meta = Done r.
Proof.
  split.
  - apply (duplicate_bb_null_deref X86_64 4096 1 [meta_op 0 99]). reflexivity.
  - apply (duplicate_bb_null_deref X86_64 4096 3 bb_one_meta). discriminate.
Defined.

(** The comparison of two runs that left [xbx] and [r9] different: it
    reports [xbx], which it visits first. *)
Lemma compare_reports_first_mismatch_witness :
  drstatecmp_compare_state_call X86_64 32 8 64 2688 7
    (mk_saved_states mc_zero mc_zero) mc_zero = None /\
  exists before f after,
    compared_fields X86_64 32 8 = before ++ f :: after /\
    (forall g, In g before ->
               field_agrees 64
                 (mk_mcontext 0 0
                    (fun n => if (n =? "xbx") || (n =? "r9") then 1%Z else 0%Z)
                    (fun _ => 0%Z) (fun _ _ => 0%Z))
                 mc_zero g) /\
    ~ field_agrees 64
        (mk_mcontext 0 0
           (fun n => if (n =? "xbx") || (n =? "r9") then 1%Z else 0%Z)
           (fun _ => 0%Z) (fun _ _ => 0%Z))
        mc_zero f /\
    "xbx" = field_message f.
Proof.
  split.
  - apply (compare_reports_first_mismatch X86_64 32 8 64 2688 7
             (mk_saved_states mc_zero mc_zero) mc_zero).
    intros f _. destruct f; cbn; reflexivity.
  - apply (compare_reports_first_mismatch X86_64 32 8 64 2688 7
             (mk_saved_states mc_zero
                (mk_mcontext 0 0
                   (fun n => if (n =? "xbx") || (n =? "r9") then 1%Z else 0%Z)
                   (fun _ => 0%Z) (fun _ _ => 0%Z)))
             mc_zero).
    vm_compute. reflexivity.
Defined.

End MoreSamples.

(** ** More on the gate, the labels and the strip loop *)

Section TransformMore.

Local Open Scope nat_scope.

Variable plat : platform.
Variable base : Z.

Lemma app_side_effect_free_false (bb : instrlist_t) :
  app_side_effect_free bb = false <->
  exists i, In i bb /\ instr_is_app i = true /\
            drstatecmp_may_have_side_effects_instr i = true.
Proof.
  unfold app_side_effect_free, app_instrs. split.
  - intros H.
    destruct (existsb (fun i => drstatecmp_may_have_side_effects_instr i)
                      (filter instr_is_app bb)) eqn:E.
    + apply existsb_exists in E. destruct E as [i [Hi Hs]].
      apply filter_In in Hi. exists i. tauto.
    + exfalso. rewrite <- not_true_iff_false in H. apply H.
      apply forallb_forall. intros x Hx.
      destruct (drstatecmp_may_have_side_effects_instr x) eqn:Ex; [|reflexivity].
      rewrite <- not_true_iff_false in E. exfalso. apply E.
      apply existsb_exists. exists x. tauto.
  - intros [i [Hi [Ha Hs]]]. apply not_true_iff_false. intros H.
    rewrite forallb_forall in H. specialize (H i).
    rewrite Hs in H. discriminate H. apply filter_In. tauto.
Qed.

(** X1. A block with an application instruction that may have side effects
    leaves the event as it entered it: nothing is duplicated, no label and
    no clean call is inserted. *)
Theorem side_effect_block_unchanged (brk : nat) (bb : instrlist_t) (i : instr_t) :
  wf_block brk bb = true ->
  In i bb ->
  instr_is_app i = true ->
  drstatecmp_may_have_side_effects_instr i = true ->
  drstatecmp_post_instru_phase plat base brk bb = Done bb.
Proof.
  intros Hwf Hi Ha Hs. apply wf_block_spec in Hwf. destruct Hwf as [Hnd _].
  unfold drstatecmp_post_instru_phase. rewrite (side_effect_free_spec bb Hnd).
  assert (app_side_effect_free bb = false) as ->
      by (apply app_side_effect_free_false; exists i; tauto).
  reflexivity.
Qed.

Lemma find_app_none (bb : instrlist_t) :
  app_instrs bb = [] -> find instr_is_app bb = None.
Proof.
  unfold app_instrs. induction bb as [|x l IH]; cbn [filter find]; [reflexivity|].
  destruct (instr_is_app x); [discriminate | exact IH].
Qed.

(** X2. A block without an application instruction (the empty block, a
    block of instrumentation only) passes the gate, since the walk finds
    nothing to object to, and the event then dereferences [NULL] in the
    duplicator. *)
Theorem no_app_block_null_deref (brk : nat) (bb : instrlist_t) :
  app_instrs bb = [] ->
  side_effect_free bb = Done true /\
  drstatecmp_post_instru_phase plat base brk bb = NullDeref.
Proof.
  intros Hno.
  assert (side_effect_free bb = Done true) as Hgate.
  { unfold side_effect_free, instrlist_first_app. rewrite (find_app_none bb Hno).
    reflexivity. }
  split; [exact Hgate|].
  unfold drstatecmp_post_instru_phase. rewrite Hgate.
  unfold drstatecmp_post_process_side_effect_free_bb, drstatecmp_duplicate_bb.
  rewrite strip_clone. cbv beta iota zeta.
  rewrite !insert_label_first. cbv beta iota.
  rewrite last_app_cons_meta by reflexivity.
  assert (instrlist_last_app (remove_first_meta (instrlist_clone brk bb)) = None) as ->.
  { apply last_app_app_instrs. rewrite remove_first_meta_app_instrs.
    pose proof (app_instrs_clone brk bb) as E. rewrite Hno in E.
    destruct (app_instrs (instrlist_clone brk bb)); [reflexivity | discriminate]. }
  reflexivity.
Qed.

Lemma remove_first_meta_metas (l : instrlist_t) :
  filter instr_meta (remove_first_meta l) = tl (filter instr_meta l).
Proof.
  induction l as [|x l IH]; cbn [remove_first_meta filter]; [reflexivity|].
  unfold instr_is_app. destruct (instr_meta x) eqn:E; cbn [negb filter tl];
    [reflexivity|]. now rewrite E.
Qed.

Lemma app_instrs_no_meta (l : instrlist_t) : filter instr_meta (app_instrs l) = [].
Proof.
  unfold app_instrs, instr_is_app.
  induction l as [|x l IH]; cbn [filter]; [reflexivity|].
  destruct (instr_meta x) eqn:E; cbn [negb filter]; [exact IH|]. now rewrite E.
Qed.

(** X3. The loop over the clone removes the first meta instruction and no
    other: every application instruction stays, in order, and so does every
    meta instruction after the first.  The clone comes out clean exactly
    when the block holds at most one meta instruction. *)
Theorem strip_removes_first_meta_only (brk : nat) (bb : instrlist_t) :
  exists l,
    strip_copy (instrlist_clone brk bb) = Done l /\
    app_instrs l = app_instrs (instrlist_clone brk bb) /\
    filter instr_meta l = tl (filter instr_meta (instrlist_clone brk bb)) /\
    (l = app_instrs (instrlist_clone brk bb) <-> length (filter instr_meta bb) <= 1).
Proof.
  exists (remove_first_meta (instrlist_clone brk bb)).
  split; [apply strip_clone|].
  split; [apply remove_first_meta_app_instrs|].
  split; [apply remove_first_meta_metas|].
  rewrite <- (filter_meta_clone brk bb). split.
  - intros E.
    pose proof (remove_first_meta_metas (instrlist_clone brk bb)) as H.
    rewrite E, app_instrs_no_meta in H.
    destruct (filter instr_meta (instrlist_clone brk bb)) as [|x [|y r]];
      cbn in *; try lia. discriminate.
  - apply remove_first_meta_clean.
Qed.

Lemma label_of_insert (a : nat) (l : instrlist_t) (w : option instr_t)
    (k : drstatecmp_label_t) (p : bool) :
  snd (drstatecmp_insert_label plat base a l w k p) = label_instr plat base a k.
Proof. reflexivity. Qed.

(** X4. The label [drstatecmp_insert_label] creates answers
    [match_label_val] for its own type and for no other, whatever the base
    of the note range is (the sum of base and type may wrap around); it is
    a meta instruction, so a walk over the application instructions skips
    it. *)
Theorem inserted_label_matches_its_type (a : nat) (l : instrlist_t)
    (w : option instr_t) (k k' : drstatecmp_label_t) (p : bool) :
  (match_label_val plat base
     (snd (drstatecmp_insert_label plat base a l w k p)) k' = true <-> k = k') /\
  instr_is_app (snd (drstatecmp_insert_label plat base a l w k p)) = false /\
  instr_opcode (snd (drstatecmp_insert_label plat base a l w k p)) = OP_LABEL /\
  instr_addr (snd (drstatecmp_insert_label plat base a l w k p)) = a.
Proof.
  rewrite label_of_insert. split; [|repeat split].
  rewrite match_label_instr. unfold label_eqb. rewrite Z.eqb_eq.
  split; [|intros ->; reflexivity].
  destruct k, k'; cbn; intros H; try reflexivity; discriminate.
Qed.

Lemma in_insert_before (l : instrlist_t) (x lab : instr_t) :
  In (instr_addr x) (addrs l) -> In lab (insert_before l x lab).
Proof.
  induction l as [|y r IH]; cbn [insert_before addrs map In]; [tauto|].
  intros H. destruct (same_addr y x) eqn:E; [now left|].
  right. apply IH. destruct H as [H|H]; [|exact H].
  apply same_addr_false in E. contradiction.
Qed.

Lemma in_insert_after (l : instrlist_t) (x lab : instr_t) :
  In (instr_addr x) (addrs l) -> In lab (insert_after l x lab).
Proof.
  induction l as [|y r IH]; cbn [insert_after addrs map In]; [tauto|].
  intros H. destruct (same_addr y x) eqn:E; [right; now left|].
  right. apply IH. destruct H as [H|H]; [|exact H].
  apply same_addr_false in E. contradiction.
Qed.

(** X5. Inserting a label and taking it out again.  With a fresh object for
    the label and a reference instruction that is in the list, or none
    ([NULL]), [drstatecmp_insert_label] puts the label into the list,
    [instrlist_remove] of the label gives the list back, and the label sits
    where it was asked for: right in front of the reference instruction (at
    the end of the list when there is none), or right behind it (at the
    front when there is none). *)
Theorem insert_label_then_remove (a : nat) (l : instrlist_t)
    (w : option instr_t) (k : drstatecmp_label_t) (p : bool) :
  ~ In a (addrs l) ->
  NoDup (addrs l) ->
  match w with
  | None => True
  | Some x => In x l
  end ->
  instrlist_remove (fst (drstatecmp_insert_label plat base a l w k p))
                   (snd (drstatecmp_insert_label plat base a l w k p)) = l /\
  In (snd (drstatecmp_insert_label plat base a l w k p))
     (fst (drstatecmp_insert_label plat base a l w k p)) /\
  (if p
   then instr_get_next (fst (drstatecmp_insert_label plat base a l w k p))
                       (snd (drstatecmp_insert_label plat base a l w k p)) = w
   else match w with
        | Some x =>
            instr_get_next (fst (drstatecmp_insert_label plat base a l w k p)) x =
            Some (snd (drstatecmp_insert_label plat base a l w k p))
        | None =>
            instrlist_first (fst (drstatecmp_insert_label plat base a l w k p)) =
            Some (snd (drstatecmp_insert_label plat base a l w k p))
        end).
Proof.
  intros Hfresh Hnd Hw.
  unfold drstatecmp_insert_label, instrlist_meta_preinsert, instrlist_meta_postinsert,
    instrlist_preinsert, instrlist_postinsert, instr_get_next.
  cbn [fst snd].
  change (instr_set_meta (instr_set_note (instr_set_meta (INSTR_CREATE_label a)) _))
    with (label_instr plat base a k).
  change (instr_set_note (instr_set_meta (INSTR_CREATE_label a)) _)
    with (label_instr plat base a k).
  set (lab := label_instr plat base a k).
  assert (~ In (instr_addr lab) (addrs l)) as Hn by exact Hfresh.
  destruct w as [x|].
  - destruct (in_split _ _ Hw) as [l1 [l2 ->]].
    assert (~ In (instr_addr x) (addrs l1)) as Hx.
    { rewrite addrs_app in Hnd. cbn [addrs map] in Hnd.
      now apply NoDup_mid_notin in Hnd. }
    assert (~ In (instr_addr lab) (addrs l1)) as Hl1.
    { intros H. apply Hn. rewrite addrs_app. apply in_or_app. now left. }
    assert (instr_addr lab <> instr_addr x) as Hlx.
    { intros E. apply Hn. rewrite addrs_app. apply in_or_app. right. left.
      symmetry. exact E. }
    destruct p.
    + rewrite insert_before_at by exact Hx.
      split; [apply (instrlist_remove_at l1 (x :: l2) lab Hl1)|].
      split; [apply in_or_app; right; now left|].
      now rewrite (instrs_after_at l1 (x :: l2) lab Hl1).
    + rewrite insert_after_at by exact Hx.
      split; [|split].
      * change (l1 ++ x :: lab :: l2) with (l1 ++ [x] ++ lab :: l2).
        rewrite app_assoc. rewrite instrlist_remove_at; [now rewrite <- app_assoc|].
        rewrite addrs_app. intros H. apply in_app_or in H. destruct H as [H|H].
        -- now apply Hl1.
        -- cbn in H. destruct H as [H|[]]. apply Hlx. symmetry. exact H.
      * apply in_or_app. right. right. now left.
      * now rewrite (instrs_after_at l1 (lab :: l2) x Hx).
  - destruct p.
    + split; [|split].
      * rewrite <- (app_nil_r l) at 2. apply (instrlist_remove_at l [] lab Hn).
      * apply in_or_app. right. now left.
      * now rewrite (instrs_after_at l [] lab Hn).
    + split; [|split].
      * cbn [instrlist_remove]. now rewrite same_addr_refl.
      * now left.
      * reflexivity.
Qed.

End TransformMore.

(** ** The block stays well formed *)

Section WellFormed.

Local Open Scope nat_scope.

Variable plat : platform.
Variable base : Z.

Lemma wf_block_addrs_ok (m : nat) (l : instrlist_t) :
  wf_block m l = true <-> addrs_ok (fun a => a < m) l.
Proof.
  rewrite wf_block_spec. unfold addrs_ok. rewrite Forall_forall. tauto.
Qed.

Lemma addrs_ok_weaken (ok ok' : nat -> Prop) (l : instrlist_t) :
  (forall a, ok a -> ok' a) -> addrs_ok ok l -> addrs_ok ok' l.
Proof. intros H [H1 H2]. split; auto. Qed.

Lemma addrs_remove_in (l : instrlist_t) (x : instr_t) (a : nat) :
  In a (addrs (instrlist_remove l x)) -> In a (addrs l).
Proof.
  induction l as [|y r IH]; cbn [instrlist_remove]; [tauto|].
  destruct (same_addr y x); cbn [addrs map In]; [tauto|].
  intros [H|H]; [now left | right; now apply IH].
Qed.

Lemma addrs_ok_remove (ok : nat -> Prop) (l : instrlist_t) (x : instr_t) :
  addrs_ok ok l -> addrs_ok ok (instrlist_remove l x).
Proof.
  intros [Hnd Hok]. split; [|intros a Ha; apply Hok, (addrs_remove_in _ _ _ Ha)].
  clear Hok. induction l as [|y r IH]; cbn [instrlist_remove]; [constructor|].
  cbn [addrs map] in Hnd. inversion Hnd as [|? ? Hn Hr]; subst.
  destruct (same_addr y x); [exact Hr|].
  cbn [addrs map]. constructor; [|now apply IH].
  intros H. apply Hn. now apply (addrs_remove_in _ x).
Qed.

Lemma addrs_insert_before_in (l : instrlist_t) (w x : instr_t) (a : nat) :
  In a (addrs (insert_before l w x)) -> a = instr_addr x \/ In a (addrs l).
Proof.
  induction l as [|y r IH]; cbn [insert_before]; [tauto|].
  destruct (same_addr y w); cbn [addrs map In].
  - intros [H|[H|H]]; auto.
  - intros [H|H]; [auto|]. destruct (IH H); auto.
Qed.

Lemma addrs_insert_after_in (l : instrlist_t) (w x : instr_t) (a : nat) :
  In a (addrs (insert_after l w x)) -> a = instr_addr x \/ In a (addrs l).
Proof.
  induction l as [|y r IH]; cbn [insert_after]; [tauto|].
  destruct (same_addr y w); cbn [addrs map In].
  - intros [H|[H|H]]; auto.
  - intros [H|H]; [auto|]. destruct (IH H); auto.
Qed.

Lemma addrs_ok_insert_before (ok : nat -> Prop) (l : instrlist_t) (w x : instr_t) :
  addrs_ok ok l -> ok (instr_addr x) -> ~ In (instr_addr x) (addrs l) ->
  addrs_ok ok (insert_before l w x).
Proof.
  intros [Hnd Hok] Hx Hn. split.
  - clear Hok Hx. induction l as [|y r IH]; cbn [insert_before]; [constructor|].
    cbn [addrs map] in Hnd, Hn. inversion Hnd as [|? ? Hy Hr]; subst.
    destruct (same_addr y w); cbn [addrs map].
    + constructor; [exact Hn | exact Hnd].
    + constructor.
      * intros H. apply addrs_insert_before_in in H. destruct H as [H|H]; [|auto].
        apply Hn. left. exact H.
      * apply IH; [exact Hr | intros H; apply Hn; now right].
  - intros a Ha. apply addrs_insert_before_in in Ha. destruct Ha as [->|Ha]; auto.
Qed.

Lemma addrs_ok_insert_after (ok : nat -> Prop) (l : instrlist_t) (w x : instr_t) :
  addrs_ok ok l -> ok (instr_addr x) -> ~ In (instr_addr x) (addrs l) ->
  addrs_ok ok (insert_after l w x).
Proof.
  intros [Hnd Hok] Hx Hn. split.
  - clear Hok Hx. induction l as [|y r IH]; cbn [insert_after]; [constructor|].
    cbn [addrs map] in Hnd, Hn. inversion Hnd as [|? ? Hy Hr]; subst.
    destruct (same_addr y w); cbn [addrs map].
    + constructor; [intros [H|H]; [apply Hn; left; now symmetry | contradiction]|].
      constructor; [intros H; apply Hn; now right | exact Hr].
    + constructor.
      * intros H. apply addrs_insert_after_in in H. destruct H as [H|H]; [|auto].
        apply Hn. left. exact H.
      * apply IH; [exact Hr | intros H; apply Hn; now right].
  - intros a Ha. apply addrs_insert_after_in in Ha. destruct Ha as [->|Ha]; auto.
Qed.

Lemma addrs_ok_cons (ok : nat -> Prop) (l : instrlist_t) (x : instr_t) :
  addrs_ok ok l -> ok (instr_addr x) -> ~ In (instr_addr x) (addrs l) ->
  addrs_ok ok (x :: l).
Proof.
  intros [Hnd Hok] Hx Hn. split; [now constructor|].
  intros a [<-|Ha]; auto.
Qed.

Lemma addrs_ok_app (ok : nat -> Prop) (l1 l2 : instrlist_t) :
  addrs_ok ok l1 -> addrs_ok ok l2 ->
  (forall a, In a (addrs l1) -> In a (addrs l2) -> False) ->
  addrs_ok ok (l1 ++ l2).
Proof.
  intros [N1 O1] [N2 O2] D. split.
  - rewrite addrs_app. apply NoDup_app; [exact N1 | exact N2 | exact D].
  - intros a Ha. rewrite addrs_app in Ha. apply in_app_or in Ha. destruct Ha; auto.
Qed.

Lemma addrs_remove_first_meta_in (l : instrlist_t) (a : nat) :
  In a (addrs (remove_first_meta l)) -> In a (addrs l).
Proof.
  unfold addrs. rewrite !in_map_iff. intros [x [E Hx]]. exists x.
  split; [exact E | now apply remove_first_meta_incl].
Qed.

Lemma addrs_ok_remove_first_meta (ok : nat -> Prop) (l : instrlist_t) :
  addrs_ok ok l -> addrs_ok ok (remove_first_meta l).
Proof.
  intros [Hnd Hok]. split; [|intros a Ha; apply Hok, addrs_remove_first_meta_in, Ha].
  clear Hok. induction l as [|y r IH]; cbn [remove_first_meta]; [constructor|].
  cbn [addrs map] in Hnd. inversion Hnd as [|? ? Hn Hr]; subst.
  destruct (instr_is_app y); [|exact Hr].
  cbn [addrs map]. constructor; [|now apply IH].
  intros H. apply Hn. now apply addrs_remove_first_meta_in.
Qed.

Lemma addrs_ok_clone (brk : nat) (l : instrlist_t) :
  addrs_ok (fun a => brk <= a < brk + length l) (instrlist_clone brk l).
Proof.
  split; [apply NoDup_addrs_clone|].
  intros a Ha. rewrite addrs_clone in Ha. apply in_seq in Ha. exact Ha.
Qed.

Lemma last_app_in (l : instrlist_t) (t : instr_t) :
  instrlist_last_app l = Some t -> In t l.
Proof.
  intros H. destruct (last_app_split _ _ H) as [pre [post [-> _]]].
  apply in_or_app. right. now left.
Qed.

Lemma in_remove_other (l : instrlist_t) (x t : instr_t) :
  In x l -> same_addr x t = false -> In x (instrlist_remove l t).
Proof.
  intros Hx E. induction l as [|y r IH]; cbn [instrlist_remove]; [exact Hx|].
  destruct Hx as [<-|Hx].
  - rewrite E. now left.
  - destruct (same_addr y t); [exact Hx | right; now apply IH].
Qed.

(** The addresses of what the duplicator returns. *)
Lemma duplicate_bb_addrs (brk : nat) (bb res : instrlist_t)
    (labels : drstatecmp_dup_labels_t) (brk' : nat) :
  addrs_ok (fun a => a < brk) bb ->
  drstatecmp_duplicate_bb plat base brk bb = Done (res, labels, brk') ->
  brk' = 3 + (brk + length bb) /\
  addrs_ok (fun a => a < brk') res /\
  In (orig_bb_start labels) res /\
  In (copy_bb_start labels) res /\
  In (term labels) res.
Proof.
  intros Hwf H.
  unfold drstatecmp_duplicate_bb in H. rewrite strip_clone in H.
  cbv beta iota zeta in H. rewrite !insert_label_first in H. cbv beta iota in H.
  set (n := brk + length bb) in *.
  set (LO := label_instr plat base n DRSTATECMP_LABEL_ORIG_BB) in *.
  set (LC := label_instr plat base (S n) DRSTATECMP_LABEL_COPY_BB) in *.
  set (copy0 := remove_first_meta (instrlist_clone brk bb)) in *.
  rewrite !last_app_cons_meta in H by reflexivity.
  destruct (instrlist_last_app copy0) as [tc|] eqn:Ec; [|discriminate].
  destruct (instrlist_last_app bb) as [t|] eqn:Eb.
  2:{ destruct (drstatecmp_insert_label _ _ _ _ _ _ _); discriminate. }
  assert (addrs_ok (fun a => brk <= a < n) copy0) as Hcopy0
      by (apply addrs_ok_remove_first_meta, addrs_ok_clone).
  assert (In (instr_addr tc) (addrs copy0)) as Htc
      by (apply in_map, last_app_in, Ec).
  assert (brk <= instr_addr tc < n) as Btc by (apply Hcopy0, Htc).
  assert (instr_addr t < brk) as Bt
      by (apply Hwf, in_map, last_app_in, Eb).
  set (LT := label_instr plat base (S (S n)) DRSTATECMP_LABEL_TERM) in *.
  set (p := if negb (instr_is_cti tc) && negb (instr_is_return tc) then false else true)
    in *.
  set (rest := if p then insert_before copy0 tc LT else insert_after copy0 tc LT).
  assert (drstatecmp_insert_label plat base (S (S n)) (LC :: copy0) (Some tc)
            DRSTATECMP_LABEL_TERM p = (LC :: rest, LT)) as Eins.
  { unfold drstatecmp_insert_label, instrlist_meta_preinsert, instrlist_meta_postinsert,
      instrlist_preinsert, instrlist_postinsert.
    change (instr_set_meta (instr_set_note (instr_set_meta (INSTR_CREATE_label (S (S n)))) _))
      with LT.
    change (instr_set_note (instr_set_meta (INSTR_CREATE_label (S (S n)))) _) with LT.
    assert (same_addr LC tc = false) as E
        by (apply same_addr_false; cbn; lia).
    subst rest. destruct p; cbn [insert_before insert_after]; rewrite E; reflexivity. }
  rewrite Eins in H. injection H as <- <- <-.
  cbn [orig_bb_start copy_bb_start term].
  set (okb := fun a => a < brk \/ a = n).
  set (okc := fun a => brk <= a < n \/ a = S n \/ a = S (S n)).
  assert (addrs_ok okc (LC :: rest)) as Hcopy.
  { apply addrs_ok_cons.
    - subst rest. destruct p;
        [apply addrs_ok_insert_before | apply addrs_ok_insert_after];
        try (apply (addrs_ok_weaken (fun a => brk <= a < n)); [|exact Hcopy0];
             intros a Ha; left; exact Ha);
        try (right; right; reflexivity);
        intros Hin; apply Hcopy0 in Hin; cbn in Hin; lia.
    - right. left. reflexivity.
    - intros Hin. subst rest.
      destruct p; [apply addrs_insert_before_in in Hin
                  | apply addrs_insert_after_in in Hin];
        (destruct Hin as [Hin|Hin]; [cbn in Hin; lia|]);
        apply Hcopy0 in Hin; cbn in Hin; lia. }
  set (bb2 := if instr_is_cti t || instr_is_return t
              then instrlist_remove (LO :: bb) t else LO :: bb).
  assert (addrs_ok okb (LO :: bb)) as Hbb1.
  { apply addrs_ok_cons.
    - apply (addrs_ok_weaken (fun a => a < brk)); [|exact Hwf].
      intros a Ha. left. exact Ha.
    - right. reflexivity.
    - intros Hin. apply Hwf in Hin. cbn in Hin. lia. }
  assert (addrs_ok okb bb2) as Hbb2.
  { subst bb2. destruct (instr_is_cti t || instr_is_return t);
      [apply addrs_ok_remove|]; exact Hbb1. }
  change (S (S (S n)) = 3 + n /\
          addrs_ok (fun a => a < S (S (S n))) (instrlist_append bb2 (LC :: rest) LC) /\
          In LO (instrlist_append bb2 (LC :: rest) LC) /\
          In LC (instrlist_append bb2 (LC :: rest) LC) /\
          In LT (instrlist_append bb2 (LC :: rest) LC)).
  assert (instrlist_append bb2 (LC :: rest) LC = bb2 ++ LC :: rest) as ->.
  { unfold instrlist_append. cbn [instrs_after]. now rewrite same_addr_refl. }
  split; [reflexivity|]. split.
  - apply addrs_ok_app.
    + apply (addrs_ok_weaken okb); [|exact Hbb2].
      intros a [Ha|Ha]; subst n; lia.
    + apply (addrs_ok_weaken okc); [|exact Hcopy].
      intros a [Ha|[Ha|Ha]]; subst n; lia.
    + intros a Ha Hb. apply Hbb2 in Ha. apply Hcopy in Hb.
      destruct Ha as [Ha|Ha], Hb as [Hb|[Hb|Hb]]; lia.
  - split; [|split].
    + apply in_or_app. left. subst bb2.
      destruct (instr_is_cti t || instr_is_return t); [|now left].
      apply in_remove_other; [now left|]. apply same_addr_false. cbn. lia.
    + apply in_or_app. right. now left.
    + apply in_or_app. right. right. subst rest.
      destruct p; [apply in_insert_before | apply in_insert_after]; exact Htc.
Qed.

(** X6. The duplicator keeps a well-formed block well formed: the objects of
    its result lie at distinct addresses below the allocator's new next free
    address, which is three above the old one plus the length of the block
    (the clone and the three labels).  The three labels it hands back are
    instructions of the result, so the clean calls placed "before the
    label" find their place. *)
Theorem duplicate_bb_keeps_wf (brk : nat) (bb res : instrlist_t)
    (labels : drstatecmp_dup_labels_t) (brk' : nat) :
  wf_block brk bb = true ->
  drstatecmp_duplicate_bb plat base brk bb = Done (res, labels, brk') ->
  brk' = 3 + (brk + length bb) /\
  wf_block brk' res = true /\
  In (orig_bb_start labels) res /\
  In (copy_bb_start labels) res /\
  In (term labels) res.
Proof.
  intros Hwf H. apply wf_block_addrs_ok in Hwf.
  destruct (duplicate_bb_addrs brk bb res labels brk' Hwf H) as [E [Hok Hin]].
  split; [exact E|]. split; [|exact Hin].
  apply wf_block_addrs_ok. exact Hok.
Qed.

Lemma clean_call_keeps_wf (m : nat) (l : instrlist_t) (w : instr_t)
    (c : callee_t) (args : list Z) :
  wf_block m l = true -> wf_block (S m) (dr_insert_clean_call m l w c args) = true.
Proof.
  rewrite !wf_block_addrs_ok. intros H.
  unfold dr_insert_clean_call, instrlist_meta_preinsert, instrlist_preinsert.
  apply addrs_ok_insert_before.
  - apply (addrs_ok_weaken (fun a => a < m)); [intros a Ha; lia | exact H].
  - cbn. lia.
  - intros Hin. apply H in Hin. cbn in Hin. lia.
Qed.

Lemma wf_block_weaken (m m' : nat) (l : instrlist_t) :
  m <= m' -> wf_block m l = true -> wf_block m' l = true.
Proof.
  rewrite !wf_block_addrs_ok. intros Hm H.
  apply (addrs_ok_weaken (fun a => a < m)); [intros a Ha; lia | exact H].
Qed.

(** X7. Whatever the event does to a well-formed block, the block it leaves
    is well formed: distinct objects, all below seven above the old next
    free address plus the length of the block (the clone, three labels,
    four clean calls). *)
Theorem post_instru_phase_keeps_wf (brk : nat) (bb res : instrlist_t) :
  wf_block brk bb = true ->
  drstatecmp_post_instru_phase plat base brk bb = Done res ->
  wf_block (7 + (brk + length bb)) res = true.
Proof.
  intros Hwf H. unfold drstatecmp_post_instru_phase in H.
  rewrite side_effect_free_spec in H by (apply wf_block_spec in Hwf; tauto).
  destruct (app_side_effect_free bb).
  - unfold drstatecmp_post_process_side_effect_free_bb in H.
    destruct (drstatecmp_duplicate_bb plat base brk bb) as [[[bb' labels] brk']| |] eqn:E;
      try discriminate.
    injection H as <-.
    destruct (duplicate_bb_addrs brk bb bb' labels brk'
                (proj1 (wf_block_addrs_ok brk bb) Hwf) E) as [-> [Hwf' _]].
    apply wf_block_addrs_ok in Hwf'.
    unfold drstatecmp_check_reexecution, drstatecmp_save_state,
      drstatecmp_restore_state, drstatecmp_compare_state.
    do 4 apply clean_call_keeps_wf. exact Hwf'.
  - injection H as <-. unfold drstatecmp_post_process_bb_with_side_effects.
    apply (wf_block_weaken brk); [lia | exact Hwf].
Qed.

End WellFormed.

(** ** Control transfers of the instrumentation *)

Section MetaTransfers.

Local Open Scope nat_scope.

Variable plat : platform.
Variable base : Z.

Lemma filter_insert_before (q : instr_t -> bool) (l : instrlist_t) (w x : instr_t) :
  q x = false -> filter q (insert_before l w x) = filter q l.
Proof.
  intros Hx. induction l as [|y r IH]; cbn [insert_before filter]; [reflexivity|].
  destruct (same_addr y w); cbn [filter]; [now rewrite Hx | now rewrite IH].
Qed.

Lemma filter_insert_after (q : instr_t -> bool) (l : instrlist_t) (w x : instr_t) :
  q x = false -> filter q (insert_after l w x) = filter q l.
Proof.
  intros Hx. induction l as [|y r IH]; cbn [insert_after filter]; [reflexivity|].
  destruct (same_addr y w); cbn [filter]; [now rewrite Hx | now rewrite IH].
Qed.

Lemma meta_transfers_app (l1 l2 : instrlist_t) :
  meta_transfers (l1 ++ l2) = meta_transfers l1 ++ meta_transfers l2.
Proof. apply filter_app. Qed.

Lemma meta_transfers_metas (l : instrlist_t) :
  meta_transfers l = filter is_transfer (filter instr_meta l).
Proof.
  unfold meta_transfers.
  induction l as [|x l IH]; cbn [filter]; [reflexivity|].
  destruct (instr_meta x); cbn [andb filter]; now rewrite IH.
Qed.

Lemma contents_filter (q : instr_t -> bool) (l : instrlist_t) :
  (forall a x, q (instr_at a x) = q x) ->
  contents (filter q l) = filter q (contents l).
Proof.
  intros Hq. unfold contents.
  induction l as [|x l IH]; cbn [filter map]; [reflexivity|].
  rewrite Hq. destruct (q x); cbn [map]; now rewrite IH.
Qed.

Lemma contents_tl (l : instrlist_t) : contents (tl l) = tl (contents l).
Proof. destruct l; reflexivity. Qed.

(** The meta control transfers the stripped clone keeps. *)
Lemma meta_transfers_stripped_clone (brk : nat) (bb : instrlist_t) :
  contents (meta_transfers (remove_first_meta (instrlist_clone brk bb))) =
  contents (filter is_transfer (tl (filter instr_meta bb))).
Proof.
  rewrite meta_transfers_metas, remove_first_meta_metas.
  rewrite !contents_filter by reflexivity.
  rewrite !contents_tl, !contents_filter by reflexivity.
  now rewrite contents_clone.
Qed.

(** The meta control transfers of what the duplicator returns: those of the
    block, and once more those behind the block's first meta
    instruction. *)
Lemma duplicate_bb_meta_transfers (brk : nat) (bb res : instrlist_t)
    (labels : drstatecmp_dup_labels_t) (brk' : nat) :
  wf_block brk bb = true ->
  drstatecmp_duplicate_bb plat base brk bb = Done (res, labels, brk') ->
  contents (meta_transfers res) =
  contents (meta_transfers bb) ++
  contents (filter is_transfer (tl (filter instr_meta bb))).
Proof.
  intros Hwf H. apply wf_block_spec in Hwf. destruct Hwf as [Hnd Hlt].
  unfold drstatecmp_duplicate_bb in H. rewrite strip_clone in H.
  cbv beta iota zeta in H. rewrite !insert_label_first in H. cbv beta iota in H.
  set (n := brk + length bb) in *.
  set (LO := label_instr plat base n DRSTATECMP_LABEL_ORIG_BB) in *.
  set (LC := label_instr plat base (S n) DRSTATECMP_LABEL_COPY_BB) in *.
  set (copy0 := remove_first_meta (instrlist_clone brk bb)) in *.
  rewrite !last_app_cons_meta in H by reflexivity.
  destruct (instrlist_last_app copy0) as [tc|] eqn:Ec; [|discriminate].
  destruct (instrlist_last_app bb) as [t|] eqn:Eb.
  2:{ destruct (drstatecmp_insert_label _ _ _ _ _ _ _); discriminate. }
  assert (brk <= instr_addr tc < n) as Btc.
  { apply last_app_in in Ec. apply remove_first_meta_incl in Ec.
    apply clone_addr_range in Ec. exact Ec. }
  set (LT := label_instr plat base (S (S n)) DRSTATECMP_LABEL_TERM) in *.
  set (p := if negb (instr_is_cti tc) && negb (instr_is_return tc) then false else true)
    in *.
  set (rest := if p then insert_before copy0 tc LT else insert_after copy0 tc LT).
  assert (drstatecmp_insert_label plat base (S (S n)) (LC :: copy0) (Some tc)
            DRSTATECMP_LABEL_TERM p = (LC :: rest, LT)) as Eins.
  { unfold drstatecmp_insert_label, instrlist_meta_preinsert, instrlist_meta_postinsert,
      instrlist_preinsert, instrlist_postinsert.
    change (instr_set_meta (instr_set_note (instr_set_meta (INSTR_CREATE_label (S (S n)))) _))
      with LT.
    change (instr_set_note (instr_set_meta (INSTR_CREATE_label (S (S n)))) _) with LT.
    assert (same_addr LC tc = false) as E
        by (apply same_addr_false; cbn; lia).
    subst rest. destruct p; cbn [insert_before insert_after]; rewrite E; reflexivity. }
  rewrite Eins in H. injection H as <- _ _.
  set (bb2 := if instr_is_cti t || instr_is_return t
              then instrlist_remove (LO :: bb) t else LO :: bb).
  change (contents (meta_transfers (instrlist_append bb2 (LC :: rest) LC)) =
          contents (meta_transfers bb) ++
          contents (filter is_transfer (tl (filter instr_meta bb)))).
  assert (instrlist_append bb2 (LC :: rest) LC = bb2 ++ LC :: rest) as ->.
  { unfold instrlist_append. cbn [instrs_after]. now rewrite same_addr_refl. }
  rewrite meta_transfers_app, contents_app. f_equal.
  - (* the original part: the terminator that is taken out is no meta
       instruction *)
    assert (meta_transfers (LO :: bb) = meta_transfers bb) as E1 by reflexivity.
    subst bb2. destruct (instr_is_cti t || instr_is_return t); [|now rewrite E1].
    destruct (last_app_split _ _ Eb) as [pre [post [-> [Ht _]]]].
    assert (~ In (instr_addr t) (addrs (LO :: pre))) as Hn.
    { rewrite addrs_app in Hnd. cbn [addrs map] in Hnd.
      apply NoDup_mid_notin in Hnd. destruct Hnd as [Hn _].
      cbn [addrs map In]. intros [E|Hin]; [|now apply Hn].
      assert (instr_addr t < brk) as Bt.
      { rewrite Forall_forall in Hlt. apply Hlt. rewrite addrs_app.
        apply in_or_app. right. now left. }
      cbn in E. subst n. lia. }
    change (LO :: pre ++ t :: post) with ((LO :: pre) ++ t :: post).
    rewrite (instrlist_remove_at (LO :: pre) post t Hn).
    rewrite !meta_transfers_app.
    change (meta_transfers (LO :: pre)) with (meta_transfers pre).
    unfold meta_transfers at 4. cbn [filter].
    unfold instr_is_app in Ht. apply negb_true_iff in Ht. rewrite Ht.
    reflexivity.
  - (* the copy: the labels are no control transfers *)
    change (meta_transfers (LC :: rest)) with (meta_transfers rest).
    assert (meta_transfers rest = meta_transfers copy0) as ->.
    { subst rest. unfold meta_transfers.
      destruct p; [apply filter_insert_before | apply filter_insert_after];
        reflexivity. }
    apply meta_transfers_stripped_clone.
Qed.

(** C5 (the code at a block whose instrumentation holds a jump).  The
    terminator is taken out of the original part and stays once, at the end
    of the copy.  But the copy keeps every meta instruction behind the
    first, so a control transfer of the instrumentation that is not the
    block's first meta instruction is in the result twice: for every block
    the meta control transfers of the result are those of the block and,
    once more, those behind its first meta instruction.  At
    [MOV; (instrumentation: MOV); (instrumentation: JMP); RET] the jump is
    at address 2 in the original part and at address 6 in the copy. *)
Theorem meta_transfer_duplicated :
  (forall brk bb res labels brk',
      wf_block brk bb = true ->
      drstatecmp_duplicate_bb plat base brk bb = Done (res, labels, brk') ->
      contents (meta_transfers res) =
      contents (meta_transfers bb) ++
      contents (filter is_transfer (tl (filter instr_meta bb)))) /\
  exists res labels,
    drstatecmp_duplicate_bb plat base 4 bb_meta_jmp = Done (res, labels, 11) /\
    res = [label_instr plat base 8 DRSTATECMP_LABEL_ORIG_BB;
           app_op 0 1; meta_op 1 99; meta_jmp 2;
           label_instr plat base 9 DRSTATECMP_LABEL_COPY_BB;
           app_op 4 1; meta_jmp 6;
           label_instr plat base 10 DRSTATECMP_LABEL_TERM; app_ret 7] /\
    filter is_transfer res = [meta_jmp 2; meta_jmp 6; app_ret 7] /\
    same_instr (meta_jmp 2) (meta_jmp 6) /\
    filter is_transfer bb_meta_jmp = [meta_jmp 2; app_ret 3].
Proof.
  split; [exact duplicate_bb_meta_transfers|].
  eexists _, _. split; [reflexivity|]. repeat split.
Qed.

End MetaTransfers.

(** ** The copy of a lightly instrumented block *)

Section CleanCopy.

Local Open Scope nat_scope.

Variable plat : platform.
Variable base : Z.

(** X8. A side-effect-free block with at most one instrumentation
    instruction: what the transformed block holds after the
    copy-block-start label, the comparison call and the terminator label
    left aside, is exactly the application instructions of the block, in
    their order.  (With more instrumentation the strip loop leaves some of
    it in the copy.) *)
Theorem one_meta_block_clean_copy (brk : nat) (bb : instrlist_t) :
  wf_block brk bb = true ->
  existsb instr_is_app bb = true ->
  app_side_effect_free bb = true ->
  length (filter instr_meta bb) <= 1 ->
  exists res before C D,
    drstatecmp_post_instru_phase plat base brk bb = Done res /\
    res = before ++
          label_instr plat base (1 + (brk + length bb)) DRSTATECMP_LABEL_COPY_BB :: C ++
          clean_call_instr (6 + (brk + length bb)) drstatecmp_compare_state_call_fn [] ::
          label_instr plat base (2 + (brk + length bb)) DRSTATECMP_LABEL_TERM :: D /\
    contents (C ++ D) = contents (app_instrs bb) /\
    forallb instr_is_app (C ++ D) = true.
Proof.
  intros Hwf Happ Hfree Hone.
  destruct (existsb_app_last bb Happ) as [t Hlast].
  destruct (post_process_shape plat base brk bb t Hwf Hlast)
    as [B [C [D [Hpp [_ [_ [_ Hclean]]]]]]].
  specialize (Hclean Hone).
  eexists _, (_ :: _ :: B ++ [_; _]), C, D.
  split.
  { unfold drstatecmp_post_instru_phase. rewrite side_effect_free_spec.
    - rewrite Hfree. exact Hpp.
    - apply wf_block_spec in Hwf. tauto. }
  split; [cbn [app]; rewrite <- app_assoc; reflexivity|].
  split; [exact Hclean|].
  assert (forallb instr_is_app (contents (C ++ D)) = true) as H.
  { rewrite Hclean. unfold contents, app_instrs. rewrite forallb_forall.
    intros x Hx. apply in_map_iff in Hx. destruct Hx as [y [<- Hy]].
    apply filter_In in Hy. rewrite instr_is_app_at. tauto. }
  rewrite forallb_forall in *. intros x Hx.
  rewrite <- (instr_is_app_at 0). apply H. unfold contents. now apply in_map.
Qed.

End CleanCopy.

(** ** The three calls of one execution *)

Section ProtocolFacts.

Local Open Scope string_scope.
Local Open Scope list_scope.
Local Open Scope Z_scope.

Variable plat : platform.
Variable MCXT_NUM_SIMD_SLOTS : nat.
Variable MCXT_NUM_OPMASK_SLOTS : nat.
Variable sizeof_simd : nat.
Variable sizeof_mcontext : Z.
Variable DR_MC_ALL : Z.

Local Abbreviation fields := (compared_fields plat MCXT_NUM_SIMD_SLOTS MCXT_NUM_OPMASK_SLOTS).
Local Abbreviation compare :=
  (drstatecmp_compare_state_call plat MCXT_NUM_SIMD_SLOTS MCXT_NUM_OPMASK_SLOTS
                                 sizeof_simd sizeof_mcontext DR_MC_ALL).
Local Abbreviation agrees := (field_agrees sizeof_simd).

Lemma compare_passes_iff (pt : drstatecmp_saved_states) (live : dr_mcontext_t) :
  compare pt live = None <->
  forall f, In f fields -> agrees (saved_state_for_cmp pt) live f.
Proof.
  rewrite compare_as_fields, all_of_none.
  split; intros H f Hf; apply check_field_none; auto.
Qed.

Lemma compare_fails_first (pt : drstatecmp_saved_states) (live : dr_mcontext_t)
    (msg : string) :
  compare pt live = Some msg ->
  exists f, In f fields /\ ~ agrees (saved_state_for_cmp pt) live f /\
            msg = field_message f.
Proof.
  rewrite compare_as_fields. intros H. apply all_of_some in H.
  destruct H as [before [f [after [E [_ Hf]]]]].
  exists f. split; [rewrite E; apply in_or_app; right; now left|].
  split; [|now apply check_field_some in Hf].
  intros Ha. apply check_field_none in Ha. congruence.
Qed.

(** X9. When the two runs differ in exactly one compared register (a
    general-purpose register, the flags or the stack pointer), the
    comparison fails with the name of that register as its message. *)
Theorem single_register_is_named (pt : drstatecmp_saved_states)
    (live : dr_mcontext_t) (r : string) :
  In (REG r) fields ->
  mc_reg (saved_state_for_cmp pt) r <> mc_reg live r ->
  (forall f, In f fields -> f <> REG r -> agrees (saved_state_for_cmp pt) live f) ->
  compare pt live = Some r.
Proof.
  intros Hin Hr Hothers.
  destruct (compare pt live) as [msg|] eqn:E.
  - apply compare_fails_first in E. destruct E as [f [Hf [Hn ->]]].
    destruct f as [name|i|i].
    + destruct (string_dec name r) as [->|Hne]; [reflexivity|].
      exfalso. apply Hn, Hothers; [exact Hf | congruence].
    + exfalso. apply Hn, Hothers; [exact Hf | discriminate].
    + exfalso. apply Hn, Hothers; [exact Hf | discriminate].
  - exfalso. rewrite compare_passes_iff in E. apply Hr. exact (E (REG r) Hin).
Qed.

Lemma agrees_same_registers (a a' b b' : dr_mcontext_t) (f : mc_field) :
  same_registers a a' -> same_registers b b' -> agrees a b f -> agrees a' b' f.
Proof.
  intros [A1 [A2 A3]] [B1 [B2 B3]].
  destruct f as [name|i|i]; cbn [field_agrees].
  - now rewrite A1, B1.
  - now rewrite A2, B2.
  - intros H off Hoff. rewrite <- A3, <- B3. now apply H.
Qed.

Lemma same_registers_refl (a : dr_mcontext_t) : same_registers a a.
Proof. repeat split. Qed.

Lemma same_registers_sym (a b : dr_mcontext_t) :
  same_registers a b -> same_registers b a.
Proof. intros [H1 [H2 H3]]. repeat split; intros; symmetry; auto. Qed.

Local Abbreviation snap := (snapshot_of sizeof_mcontext DR_MC_ALL).

Lemma reexecution_unfold (orig copy : dr_mcontext_t -> dr_mcontext_t)
    (pt : drstatecmp_saved_states) (live : dr_mcontext_t) :
  reexecution plat MCXT_NUM_SIMD_SLOTS MCXT_NUM_OPMASK_SLOTS sizeof_simd
              sizeof_mcontext DR_MC_ALL orig copy pt live =
  (compare (mk_saved_states (snap live) (snap (orig live)))
           (copy (dr_set_mcontext (orig live) (snap live))),
   mk_saved_states (snap live) (snap (orig live)),
   copy (dr_set_mcontext (orig live) (snap live))).
Proof. reflexivity. Qed.

(** X10. One execution of a transformed block.  The copy starts from the
    registers the original part started from; at the end the pair holds
    the registers from before the block in [for_restore] and the registers
    the original part left in [for_cmp]; the machine is in the state the
    copy left; and the comparison passes exactly when what the original
    part left and what the copy left agree on every compared field. *)
Theorem reexecution_outcome (orig copy : dr_mcontext_t -> dr_mcontext_t)
    (pt : drstatecmp_saved_states) (live : dr_mcontext_t) :
  exists start,
    same_registers start live /\
    snd (reexecution plat MCXT_NUM_SIMD_SLOTS MCXT_NUM_OPMASK_SLOTS sizeof_simd
           sizeof_mcontext DR_MC_ALL orig copy pt live) = copy start /\
    same_registers
      (saved_state_for_restore
         (snd (fst (reexecution plat MCXT_NUM_SIMD_SLOTS MCXT_NUM_OPMASK_SLOTS
                      sizeof_simd sizeof_mcontext DR_MC_ALL orig copy pt live))))
      live /\
    same_registers
      (saved_state_for_cmp
         (snd (fst (reexecution plat MCXT_NUM_SIMD_SLOTS MCXT_NUM_OPMASK_SLOTS
                      sizeof_simd sizeof_mcontext DR_MC_ALL orig copy pt live))))
      (orig live) /\
    (fst (fst (reexecution plat MCXT_NUM_SIMD_SLOTS MCXT_NUM_OPMASK_SLOTS
                 sizeof_simd sizeof_mcontext DR_MC_ALL orig copy pt live)) = None <->
     forall f, In f fields -> agrees (orig live) (copy start) f).
Proof.
  rewrite reexecution_unfold. cbn [fst snd saved_state_for_restore saved_state_for_cmp].
  exists (dr_set_mcontext (orig live) (snap live)).
  split; [repeat split|]. split; [reflexivity|].
  split; [repeat split|]. split; [repeat split|].
  rewrite compare_passes_iff. cbn [saved_state_for_cmp].
  split; intros H f Hf; specialize (H f Hf);
    revert H; apply agrees_same_registers;
    try apply same_registers_refl; repeat split.
Qed.

(** X11. No false alarm, and no trace: when the original part and the copy
    do the same to the registers (the instrumentation touches none of
    them), the comparison passes and the block leaves the registers the
    original part would have left. *)
Theorem reexecution_transparent (orig copy : dr_mcontext_t -> dr_mcontext_t)
    (pt : drstatecmp_saved_states) (live : dr_mcontext_t) :
  (forall s s', same_registers s s' -> same_registers (orig s) (copy s')) ->
  fst (fst (reexecution plat MCXT_NUM_SIMD_SLOTS MCXT_NUM_OPMASK_SLOTS
              sizeof_simd sizeof_mcontext DR_MC_ALL orig copy pt live)) = None /\
  same_registers
    (snd (reexecution plat MCXT_NUM_SIMD_SLOTS MCXT_NUM_OPMASK_SLOTS sizeof_simd
            sizeof_mcontext DR_MC_ALL orig copy pt live))
    (orig live).
Proof.
  intros Hsame. rewrite reexecution_unfold. cbn [fst snd].
  assert (same_registers (orig live)
            (copy (dr_set_mcontext (orig live) (snap live)))) as H
      by (apply Hsame; repeat split).
  split; [|apply same_registers_sym, H].
  apply compare_passes_iff. cbn [saved_state_for_cmp]. intros f _.
  apply (agrees_same_registers (orig live) _
           (copy (dr_set_mcontext (orig live) (snap live))) _);
    [repeat split | apply same_registers_refl |].
  destruct H as [H1 [H2 H3]]. destruct f; cbn [field_agrees]; auto.
Qed.

End ProtocolFacts.

(** ** Sequences of init and exit *)

Section LifecycleMore.

Variable fw : framework_t.

Lemma fw_grants_all_spec :
  fw_grants_all fw = true ->
  (fw_tls_field fw =? -1) = false /\
  (fw_DEBUG fw = true -> (fw_note_range fw =? DRMGR_NOTE_NONE) = false) /\
  fw_register_thread_init fw = true /\ fw_register_thread_exit fw = true /\
  fw_register_bb_post_instru fw = true /\
  fw_unregister_thread_init fw = true /\ fw_unregister_thread_exit fw = true /\
  fw_unregister_tls_field fw = true /\ fw_unregister_bb_post_instru fw = true.
Proof.
  unfold fw_grants_all. rewrite !andb_true_iff, orb_true_iff, !negb_true_iff.
  intros [[[[[[[[H1 H2] H3] H4] H5] H6] H7] H8] H9].
  repeat split; try assumption.
  intros Hd. destruct H2 as [H2|H2]; [congruence | exact H2].
Qed.

Lemma init_granted (st : module_state) :
  fw_grants_all fw = true ->
  wrap_int32 (drstatecmp_init_count st + 1) = 1 ->
  drstatecmp_init fw st =
  (Returned DRSTATECMP_SUCCESS,
   mk_module 1 (fw_tls_field fw) (fw_note_range fw) (calls st ++ registration_calls)).
Proof.
  intros Hg H. apply fw_grants_all_spec in Hg.
  destruct Hg as [G1 [G2 [G3 [G4 [G5 _]]]]].
  unfold drstatecmp_init, dr_atomic_add32_return_sum, drstatecmp_label_init.
  rewrite H. cbn [Z.eqb Pos.eqb negb].
  unfold DR_ASSERT_MSG, record_call, set_tls_idx, set_label_base.
  cbn [negb tls_idx calls label_base drstatecmp_init_count].
  rewrite G1, G3, G4, G5. cbn [negb].
  rewrite <- !app_assoc. cbn [app].
  destruct (fw_DEBUG fw); [|reflexivity]. now rewrite (G2 eq_refl).
Qed.

Lemma exit_granted (st : module_state) :
  fw_grants_all fw = true ->
  wrap_int32 (drstatecmp_init_count st + -1) = 0 ->
  drstatecmp_exit fw st =
  (Returned DRSTATECMP_SUCCESS,
   mk_module 0 (tls_idx st) (label_base st) (calls st ++ teardown_calls (tls_idx st))).
Proof.
  intros Hg H. apply fw_grants_all_spec in Hg.
  destruct Hg as [_ [_ [_ [_ [_ [G6 [G7 [G8 G9]]]]]]]].
  unfold drstatecmp_exit, dr_atomic_add32_return_sum, record_call.
  rewrite H. cbn [Z.eqb negb tls_idx calls label_base drstatecmp_init_count].
  rewrite G6, G7, G8, G9. cbn [negb].
  rewrite <- !app_assoc. reflexivity.
Qed.

Lemma call_n_snoc (f : module_state -> call_result * module_state) (k : nat)
    (st : module_state) :
  call_n f (S k) st =
  (fst (call_n f k st) ++ [fst (f (snd (call_n f k st)))],
   snd (f (snd (call_n f k st)))).
Proof.
  revert st. induction k as [|k IH]; intros st.
  - cbn. destruct (f st). reflexivity.
  - change (call_n f (S (S k)) st)
      with (let '(r, st1) := f st in
            let '(rs, st2) := call_n f (S k) st1 in (r :: rs, st2)).
    destruct (f st) as [r st1] eqn:E. rewrite IH.
    cbn [call_n]. rewrite E. destruct (call_n f k st1). reflexivity.
Qed.

(** Calls of [init] on an initialised module. *)
Lemma inits_while_initialized (k : nat) (st : module_state) :
  1 <= drstatecmp_init_count st ->
  drstatecmp_init_count st + Z.of_nat k < 2 ^ 31 ->
  call_n (drstatecmp_init fw) k st =
  (repeat (Returned DRSTATECMP_ERROR_ALREADY_INITIALIZED) k,
   mk_module (drstatecmp_init_count st + Z.of_nat k) (tls_idx st) (label_base st)
             (calls st)).
Proof.
  revert st. induction k as [|k IH]; intros st H1 H2.
  - cbn [call_n repeat]. rewrite Z.add_0_r. destruct st; reflexivity.
  - cbn [call_n]. rewrite init_not_first.
    2:{ rewrite wrap_int32_small; lia. }
    rewrite wrap_int32_small by lia. rewrite IH; cbn [drstatecmp_init_count]; try lia.
    cbn [repeat tls_idx label_base calls]. do 2 f_equal. lia.
Qed.

(** Calls of [exit] on a module that stays initialised. *)
Lemma exits_while_shared (k : nat) (st : module_state) :
  Z.of_nat k < drstatecmp_init_count st < 2 ^ 31 ->
  call_n (drstatecmp_exit fw) k st =
  (repeat (Returned DRSTATECMP_ERROR_NOT_INITIALIZED) k,
   mk_module (drstatecmp_init_count st - Z.of_nat k) (tls_idx st) (label_base st)
             (calls st)).
Proof.
  revert st. induction k as [|k IH]; intros st H.
  - cbn [call_n repeat]. rewrite Z.sub_0_r. destruct st; reflexivity.
  - cbn [call_n]. rewrite exit_not_last.
    2:{ rewrite wrap_int32_small; lia. }
    rewrite wrap_int32_small by lia. rewrite IH; cbn [drstatecmp_init_count]; try lia.
    cbn [repeat tls_idx label_base calls]. do 2 f_equal. lia.
Qed.

(** X12. Nested use.  From a counter at 0 and with a framework that grants
    every step, [n] calls of [init] and then [n] calls of [exit] register
    once and tear down once: the first [init] returns "success" and every
    other "already initialized"; every [exit] but the last returns "not
    initialized" and calls nothing, the last one tears down and returns
    "success"; the slot that is released is the one that was allocated, and
    the counter is back at 0. *)
Theorem nested_init_exit (st : module_state) (n : nat) :
  fw_grants_all fw = true ->
  drstatecmp_init_count st = 0 ->
  (1 <= n)%nat ->
  Z.of_nat n < 2 ^ 31 ->
  call_n (drstatecmp_init fw) n st =
    (Returned DRSTATECMP_SUCCESS ::
       repeat (Returned DRSTATECMP_ERROR_ALREADY_INITIALIZED) (n - 1),
     mk_module (Z.of_nat n) (fw_tls_field fw) (fw_note_range fw)
               (calls st ++ registration_calls)) /\
  call_n (drstatecmp_exit fw) n
         (mk_module (Z.of_nat n) (fw_tls_field fw) (fw_note_range fw)
                    (calls st ++ registration_calls)) =
    (repeat (Returned DRSTATECMP_ERROR_NOT_INITIALIZED) (n - 1) ++
       [Returned DRSTATECMP_SUCCESS],
     mk_module 0 (fw_tls_field fw) (fw_note_range fw)
               (calls st ++ registration_calls ++ teardown_calls (fw_tls_field fw))).
Proof.
  intros Hg H0 Hn Hmax. destruct n as [|k]; [lia|].
  replace (S k - 1)%nat with k by lia. split.
  - cbn [call_n]. rewrite init_granted by (try assumption; rewrite H0; reflexivity).
    rewrite inits_while_initialized; cbn [drstatecmp_init_count]; try lia.
    cbn [tls_idx label_base calls]. do 2 f_equal. lia.
  - rewrite call_n_snoc.
    rewrite exits_while_shared by (cbn [drstatecmp_init_count]; lia).
    cbn [fst snd drstatecmp_init_count tls_idx label_base calls].
    rewrite exit_granted.
    + cbn [fst snd tls_idx label_base calls]. rewrite <- app_assoc. reflexivity.
    + assumption.
    + cbn [drstatecmp_init_count].
      replace (Z.of_nat (S k) - Z.of_nat k + -1) with 0 by lia. reflexivity.
Qed.

(** X13. [init] from a counter at 0 makes the registration calls in their
    fixed order and stops at the first one that the framework refuses and
    whose answer the code tests: the calls it adds are the registration
    sequence up to and including that call, all six when there is none.
    Its result is "success" when no call stopped it, the failed assertion
    when the note range did (a build with [DEBUG]), and "error" otherwise.
    Whatever it returns, the counter is left at 1, so the next [init]
    returns "already initialized" and calls nothing: a registration that
    failed is not tried again. *)
Theorem init_stops_at_first_failure (st : module_state) :
  drstatecmp_init_count st = 0 ->
  calls (snd (drstatecmp_init fw st)) =
    calls st ++ up_to_first (refused_and_tested fw) registration_calls /\
  fst (drstatecmp_init fw st) =
    match find (refused_and_tested fw) registration_calls with
    | None => Returned DRSTATECMP_SUCCESS
    | Some (drmgr_reserve_note_range _) => AssertFailed "failed to reserve note space"
    | Some _ => Returned DRSTATECMP_ERROR
    end /\
  drstatecmp_init_count (snd (drstatecmp_init fw st)) = 1 /\
  drstatecmp_init fw (snd (drstatecmp_init fw st)) =
  (Returned DRSTATECMP_ERROR_ALREADY_INITIALIZED,
   mk_module 2 (tls_idx (snd (drstatecmp_init fw st)))
             (label_base (snd (drstatecmp_init fw st)))
             (calls (snd (drstatecmp_init fw st)))).
Proof.
  intros H0.
  assert (drstatecmp_init_count (snd (drstatecmp_init fw st)) = 1) as Hc
      by (rewrite init_count_after_init, H0; reflexivity).
  assert (calls (snd (drstatecmp_init fw st)) =
            calls st ++ up_to_first (refused_and_tested fw) registration_calls /\
          fst (drstatecmp_init fw st) =
            match find (refused_and_tested fw) registration_calls with
            | None => Returned DRSTATECMP_SUCCESS
            | Some (drmgr_reserve_note_range _) =>
                AssertFailed "failed to reserve note space"
            | Some _ => Returned DRSTATECMP_ERROR
            end) as [Hcalls Hres].
  { unfold drstatecmp_init, dr_atomic_add32_return_sum, drstatecmp_label_init.
    rewrite H0. change (wrap_int32 (0 + 1)) with 1. cbn [Z.eqb Pos.eqb negb].
    unfold DR_ASSERT_MSG, record_call, set_tls_idx, set_label_base.
    cbn [negb tls_idx calls label_base drstatecmp_init_count].
    unfold registration_calls.
    cbn [up_to_first find refused_and_tested].
    destruct (fw_tls_field fw =? -1);
      destruct (fw_DEBUG fw); destruct (fw_note_range fw =? DRMGR_NOTE_NONE);
      destruct (fw_register_thread_init fw); destruct (fw_register_thread_exit fw);
      destruct (fw_register_bb_post_instru fw);
      cbn [negb andb fst snd calls]; rewrite <- ?app_assoc; cbn [app];
      split; reflexivity. }
  split; [exact Hcalls|]. split; [exact Hres|]. split; [exact Hc|].
  rewrite init_not_first by (rewrite Hc; vm_compute; discriminate).
  rewrite Hc. reflexivity.
Qed.

(** X14. [exit] from a counter at 1 makes the teardown calls in their fixed
    order and stops at the first one the framework refuses: the calls it
    adds are the teardown sequence up to and including that call, and all
    five, [drmgr_exit] included, when none is refused.  It returns "success"
    when no call was refused and "error" otherwise.  Whatever it returns,
    the counter is left at 0, so a further [exit] returns "not initialized"
    and calls nothing: a teardown that stopped half way is not taken up
    again. *)
Theorem exit_stops_at_first_failure (st : module_state) :
  drstatecmp_init_count st = 1 ->
  calls (snd (drstatecmp_exit fw st)) =
    calls st ++ up_to_first (refused_and_tested fw) (teardown_calls (tls_idx st)) /\
  fst (drstatecmp_exit fw st) =
    match find (refused_and_tested fw) (teardown_calls (tls_idx st)) with
    | None => Returned DRSTATECMP_SUCCESS
    | Some _ => Returned DRSTATECMP_ERROR
    end /\
  drstatecmp_init_count (snd (drstatecmp_exit fw st)) = 0 /\
  drstatecmp_exit fw (snd (drstatecmp_exit fw st)) =
  (Returned DRSTATECMP_ERROR_NOT_INITIALIZED,
   mk_module (-1) (tls_idx (snd (drstatecmp_exit fw st)))
             (label_base (snd (drstatecmp_exit fw st)))
             (calls (snd (drstatecmp_exit fw st)))).
Proof.
  intros H1.
  assert (drstatecmp_init_count (snd (drstatecmp_exit fw st)) = 0) as Hc
      by (rewrite init_count_after_exit, H1; reflexivity).
  assert (calls (snd (drstatecmp_exit fw st)) =
            calls st ++
            up_to_first (refused_and_tested fw) (teardown_calls (tls_idx st)) /\
          fst (drstatecmp_exit fw st) =
            match find (refused_and_tested fw) (teardown_calls (tls_idx st)) with
            | None => Returned DRSTATECMP_SUCCESS
            | Some _ => Returned DRSTATECMP_ERROR
            end) as [Hcalls Hres].
  { unfold drstatecmp_exit, dr_atomic_add32_return_sum, record_call.
    rewrite H1. change (wrap_int32 (1 + -1)) with 0.
    cbn [Z.eqb negb tls_idx calls label_base drstatecmp_init_count].
    unfold teardown_calls.
    cbn [up_to_first find refused_and_tested].
    destruct (fw_unregister_thread_init fw); destruct (fw_unregister_thread_exit fw);
      destruct (fw_unregister_tls_field fw); destruct (fw_unregister_bb_post_instru fw);
      cbn [negb fst snd calls]; rewrite <- ?app_assoc; cbn [app];
      split; reflexivity. }
  split; [exact Hcalls|]. split; [exact Hres|]. split; [exact Hc|].
  rewrite exit_not_last by (rewrite Hc; vm_compute; discriminate).
  rewrite Hc. reflexivity.
Qed.

(** X15. The marker namespace is exhausted ([drmgr_reserve_note_range]
    returns [DRMGR_NOTE_NONE]).  In a build with [DEBUG] the first [init]
    ends in the assertion "failed to reserve note space", before any
    callback is subscribed.  In a build without, the assertion is not there:
    [init] goes on and returns "success" with [label_base] at
    [DRMGR_NOTE_NONE]; the value of the terminator label, the first of the
    enumeration, is then [DRMGR_NOTE_NONE] itself, and [match_label_val]
    takes an instruction with that note for the terminator label. *)
Theorem note_exhaustion (plat : platform) (st : module_state) :
  drstatecmp_init_count st = 0 ->
  fw_tls_field fw <> -1 ->
  fw_note_range fw = DRMGR_NOTE_NONE ->
  (fw_DEBUG fw = true ->
   drstatecmp_init fw st =
   (AssertFailed "failed to reserve note space",
    mk_module 1 (fw_tls_field fw) DRMGR_NOTE_NONE
      (calls st ++ [drmgr_init; drmgr_register_tls_field;
                    drmgr_reserve_note_range DRSTATECMP_LABEL_COUNT]))) /\
  (fw_DEBUG fw = false ->
   fw_register_thread_init fw = true ->
   fw_register_thread_exit fw = true ->
   fw_register_bb_post_instru fw = true ->
   drstatecmp_init fw st =
   (Returned DRSTATECMP_SUCCESS,
    mk_module 1 (fw_tls_field fw) DRMGR_NOTE_NONE (calls st ++ registration_calls)) /\
   forall i, instr_note i = DRMGR_NOTE_NONE ->
             match_label_val plat (label_base (snd (drstatecmp_init fw st))) i
                             DRSTATECMP_LABEL_TERM = true).
Proof.
  intros H0 Htls Hnote. apply Z.eqb_neq in Htls.
  unfold drstatecmp_init, dr_atomic_add32_return_sum, drstatecmp_label_init.
  rewrite H0. change (wrap_int32 (0 + 1)) with 1. cbn [Z.eqb Pos.eqb negb].
  unfold DR_ASSERT_MSG, record_call, set_tls_idx, set_label_base.
  cbn [negb tls_idx calls label_base drstatecmp_init_count].
  rewrite Htls, Hnote. split.
  - intros ->. cbn [Z.eqb negb]. rewrite <- !app_assoc. reflexivity.
  - intros -> -> -> ->. cbn [negb fst snd label_base].
    rewrite <- !app_assoc. split; [reflexivity|].
    intros i Hi. unfold match_label_val, instr_get_note. rewrite Hi.
    destruct plat; reflexivity.
Qed.

End LifecycleMore.

(** ** Threads *)

Section ThreadFacts.

Local Open Scope string_scope.
Local Open Scope list_scope.
Local Open Scope Z_scope.

Variable plat : platform.
Variable MCXT_NUM_SIMD_SLOTS : nat.
Variable MCXT_NUM_OPMASK_SLOTS : nat.
Variable sizeof_simd : nat.
Variable sizeof_mcontext : Z.
Variable DR_MC_ALL : Z.
Variable tls_index : Z.
Variable DEBUG : bool.

Lemma block_read_write (bl : list (nat * drstatecmp_saved_states)) (p : nat)
    (v w : drstatecmp_saved_states) :
  block_read bl p = Some w -> block_read (block_write bl p v) p = Some v.
Proof.
  induction bl as [|[q u] r IH]; cbn [block_read block_write]; [discriminate|].
  destruct (Nat.eqb q p) eqn:E; cbn [block_read]; rewrite E; [reflexivity | exact IH].
Qed.

Lemma block_read_absent (bl : list (nat * drstatecmp_saved_states)) (p : nat) :
  (forall b, In b bl -> (fst b < p)%nat) -> block_read bl p = None.
Proof.
  induction bl as [|[q u] r IH]; cbn [block_read]; [reflexivity|].
  intros H. destruct (Nat.eqb q p) eqn:E.
  - apply Nat.eqb_eq in E. specialize (H (q, u) (or_introl eq_refl)). cbn in H. lia.
  - apply IH. intros b Hb. apply H. now right.
Qed.

Lemma get_after_set (th : thread_t) (q : option nat) :
  0 <= tls_index ->
  drmgr_get_tls_field (drmgr_set_tls_field th tls_index q) tls_index = q.
Proof.
  intros H. unfold drmgr_get_tls_field, drmgr_set_tls_field.
  apply Z.leb_le in H. rewrite H. cbn [th_slots]. now rewrite Z.eqb_refl.
Qed.

(** X16. Once [drstatecmp_thread_init] has run on a thread (with a slot
    allocated), the slot points to a pair filled with zero bytes, and every
    clean call finds the pair there: the capture and the restore work on it
    and leave it under the same slot, the comparison reads it. *)
Theorem clean_calls_on_ready_thread :
  0 <= tls_index ->
  (forall junk th,
      thread_states tls_index (drstatecmp_thread_init tls_index junk th) =
      Ran (th_next th, zero_states)) /\
  (forall th p pt live for_cmp,
      thread_states tls_index th = Ran (p, pt) ->
      exists th',
        save_state_on_thread sizeof_mcontext DR_MC_ALL tls_index for_cmp th live =
          Ran th' /\
        thread_states tls_index th' =
          Ran (p, drstatecmp_save_state_call sizeof_mcontext DR_MC_ALL for_cmp pt live)) /\
  (forall th p pt live,
      thread_states tls_index th = Ran (p, pt) ->
      exists th',
        restore_state_on_thread sizeof_mcontext DR_MC_ALL tls_index th live =
          Ran (th', snd (drstatecmp_restore_state_call sizeof_mcontext DR_MC_ALL pt live)) /\
        thread_states tls_index th' =
          Ran (p, fst (drstatecmp_restore_state_call sizeof_mcontext DR_MC_ALL pt live))) /\
  (forall th p pt live,
      thread_states tls_index th = Ran (p, pt) ->
      compare_state_on_thread plat MCXT_NUM_SIMD_SLOTS MCXT_NUM_OPMASK_SLOTS sizeof_simd
        sizeof_mcontext DR_MC_ALL tls_index th live =
      Ran (drstatecmp_compare_state_call plat MCXT_NUM_SIMD_SLOTS MCXT_NUM_OPMASK_SLOTS
             sizeof_simd sizeof_mcontext DR_MC_ALL pt live)).
Proof.
  intros Hidx.
  assert (forall th p pt v,
             thread_states tls_index th = Ran (p, pt) ->
             thread_states tls_index
               (mk_thread (th_slots th) (block_write (th_blocks th) p v) (th_next th)) =
             Ran (p, v)) as Hwrite.
  { intros th p pt v H. unfold thread_states, drmgr_get_tls_field in *.
    cbn [th_slots th_blocks].
    destruct (0 <=? tls_index); [|discriminate].
    destruct (th_slots th tls_index) as [q|]; [|discriminate].
    destruct (block_read (th_blocks th) q) as [w|] eqn:E; [|discriminate].
    injection H as -> ->. now rewrite (block_read_write _ _ v _ E). }
  split; [|split; [|split]].
  - intros junk th. unfold drstatecmp_thread_init, dr_thread_alloc, thread_states.
    cbn [th_slots th_blocks th_next].
    unfold drmgr_get_tls_field, drmgr_set_tls_field.
    apply Z.leb_le in Hidx. rewrite Hidx. cbn [th_slots th_blocks th_next].
    rewrite Z.eqb_refl. cbn [block_write]. rewrite Nat.eqb_refl.
    cbn [block_read]. rewrite Nat.eqb_refl. reflexivity.
  - intros th p pt live for_cmp H. unfold save_state_on_thread. rewrite H.
    eexists. split; [reflexivity|]. now apply (Hwrite th p pt).
  - intros th p pt live H. unfold restore_state_on_thread. rewrite H.
    destruct (drstatecmp_restore_state_call sizeof_mcontext DR_MC_ALL pt live)
      as [pt' live'] eqn:E.
    eexists. split; [reflexivity|]. cbn [fst]. now apply (Hwrite th p pt).
  - intros th p pt live H. unfold compare_state_on_thread. now rewrite H.
Qed.

(** X17. A thread whose slot holds [NULL] (no slot was allocated, or
    [drstatecmp_thread_init] has not run): each of the three clean calls
    dereferences [NULL]; [drstatecmp_thread_exit] fails its assertion in a
    build with [DEBUG] and hands [NULL] to [dr_thread_free] in one
    without. *)
Theorem clean_calls_without_slot (th : thread_t) (live : dr_mcontext_t) :
  drmgr_get_tls_field th tls_index = None ->
  (forall for_cmp,
      save_state_on_thread sizeof_mcontext DR_MC_ALL tls_index for_cmp th live =
      NullPointer) /\
  restore_state_on_thread sizeof_mcontext DR_MC_ALL tls_index th live = NullPointer /\
  compare_state_on_thread plat MCXT_NUM_SIMD_SLOTS MCXT_NUM_OPMASK_SLOTS sizeof_simd
    sizeof_mcontext DR_MC_ALL tls_index th live = NullPointer /\
  drstatecmp_thread_exit tls_index DEBUG th =
    (if DEBUG then AssertionFailed "thread-local storage should not be NULL"
     else dr_thread_free th None).
Proof.
  intros H.
  assert (thread_states tls_index th = NullPointer) as Hs
      by (unfold thread_states; now rewrite H).
  split; [intros for_cmp; unfold save_state_on_thread; now rewrite Hs|].
  split; [unfold restore_state_on_thread; now rewrite Hs|].
  split; [unfold compare_state_on_thread; now rewrite Hs|].
  unfold drstatecmp_thread_exit. rewrite H. destruct DEBUG; reflexivity.
Qed.

(** X18. Thread start and thread end in a row: [drstatecmp_thread_exit]
    frees the very block [drstatecmp_thread_init] allocated, in either
    build, and the thread's heap is as it was before.  The slot is not
    cleared: it keeps the address of the freed block, and a clean call run
    after the exit would use that block. *)
Theorem thread_init_then_exit (junk : drstatecmp_saved_states) (th : thread_t) :
  0 <= tls_index ->
  thread_wf th = true ->
  exists th',
    drstatecmp_thread_exit tls_index DEBUG (drstatecmp_thread_init tls_index junk th) =
      Ran th' /\
    th_blocks th' = th_blocks th /\
    drmgr_get_tls_field th' tls_index = Some (th_next th) /\
    thread_states tls_index th' = InvalidPointer (Some (th_next th)).
Proof.
  intros Hidx Hwf.
  unfold drstatecmp_thread_exit, drstatecmp_thread_init, dr_thread_alloc.
  cbn [th_slots th_blocks th_next].
  assert (drmgr_get_tls_field
            (mk_thread
               (th_slots (drmgr_set_tls_field
                            (mk_thread (th_slots th) ((th_next th, junk) :: th_blocks th)
                                       (S (th_next th)))
                            tls_index (Some (th_next th))))
               (block_write
                  (th_blocks (drmgr_set_tls_field
                                (mk_thread (th_slots th)
                                           ((th_next th, junk) :: th_blocks th)
                                           (S (th_next th)))
                                tls_index (Some (th_next th))))
                  (th_next th) zero_states)
               (th_next (drmgr_set_tls_field
                           (mk_thread (th_slots th) ((th_next th, junk) :: th_blocks th)
                                      (S (th_next th)))
                           tls_index (Some (th_next th)))))
            tls_index = Some (th_next th)) as Hget.
  { unfold drmgr_get_tls_field, drmgr_set_tls_field.
    pose proof Hidx as Hle. apply Z.leb_le in Hle. rewrite Hle.
    cbn [th_slots]. now rewrite Z.eqb_refl. }
  rewrite Hget. unfold DR_ASSERT_MSG, dr_thread_free, drmgr_set_tls_field.
  pose proof Hidx as Hle. apply Z.leb_le in Hle. rewrite Hle.
  cbn [th_slots th_blocks th_next block_write block_read block_free].
  rewrite !Nat.eqb_refl. cbn [block_read block_free]. rewrite !Nat.eqb_refl.
  assert (block_read (th_blocks th) (th_next th) = None) as Habs.
  { apply block_read_absent. unfold thread_wf in Hwf. rewrite forallb_forall in Hwf.
    intros b Hb. apply Nat.ltb_lt, Hwf, Hb. }
  destruct DEBUG; (eexists; split; [reflexivity|]);
    (split; [reflexivity|]);
    (split; [unfold drmgr_get_tls_field; rewrite Hle; cbn [th_slots];
             now rewrite Z.eqb_refl|]);
    unfold thread_states, drmgr_get_tls_field; rewrite Hle; cbn [th_slots th_blocks];
    rewrite Z.eqb_refl, Habs; reflexivity.
Qed.

End ThreadFacts.


(** ** The further properties at sample inputs *)

Section FurtherSamples.

Local Open Scope string_scope.
Local Open Scope list_scope.
Local Open Scope Z_scope.

(** The jump of the instrumentation in
    [MOV; (instrumentation: MOV); (instrumentation: JMP); RET] is twice in
    what the duplicator returns. *)
Lemma meta_transfer_duplicated_witness :
  wf_block 4 bb_meta_jmp = true /\
  exists res labels,
    drstatecmp_duplicate_bb X86_64 4096 4 bb_meta_jmp = Done (res, labels, 11%nat) /\
    contents (meta_transfers res) = contents [meta_jmp 2; meta_jmp 2].
Proof.
  split; [reflexivity|].
  destruct (drstatecmp_duplicate_bb X86_64 4096 4 bb_meta_jmp)
    as [[[res labels] brk']| |] eqn:E.
  - pose proof (proj1 (meta_transfer_duplicated X86_64 4096) 4%nat bb_meta_jmp res
                  labels brk' eq_refl E) as H.
    pose proof E as E'. vm_compute in E'. injection E' as _ _ <-.
    exists res, labels. split; [reflexivity | exact H].
  - vm_compute in E. discriminate E.
  - vm_compute in E. discriminate E.
Defined.

(** The block [MOV r1,1; MOV [r2],r1; RET] has a store of the application:
    the event hands it back as it is. *)
Lemma side_effect_block_unchanged_witness :
  wf_block 3 bb_app_store = true /\
  In (app_store 1 137) bb_app_store /\
  instr_is_app (app_store 1 137) = true /\
  drstatecmp_may_have_side_effects_instr (app_store 1 137) = true /\
  drstatecmp_post_instru_phase X86_64 4096 3 bb_app_store = Done bb_app_store.
Proof.
  assert (In (app_store 1 137) bb_app_store) as Hin by (right; left; reflexivity).
  split; [reflexivity|]. split; [exact Hin|].
  split; [reflexivity|]. split; [reflexivity|].
  apply (side_effect_block_unchanged X86_64 4096 3 bb_app_store (app_store 1 137));
    [reflexivity | exact Hin | reflexivity | reflexivity].
Defined.

(** A block of one instrumentation instruction. *)
Lemma no_app_block_null_deref_witness :
  app_instrs bb_meta_only = [] /\
  side_effect_free bb_meta_only = Done true /\
  drstatecmp_post_instru_phase X86_64 4096 1 bb_meta_only = NullDeref.
Proof.
  split; [reflexivity|].
  apply (no_app_block_null_deref X86_64 4096 1 bb_meta_only). reflexivity.
Defined.

(** The terminator label put before the [RET] of
    [MOV r1,1; (instrumentation); RET], then removed. *)
Lemma insert_label_then_remove_witness :
  ~ In 3%nat (addrs bb_one_meta) /\
  NoDup (addrs bb_one_meta) /\
  In (app_ret 2) bb_one_meta /\
  instrlist_remove
    (fst (drstatecmp_insert_label X86_64 4096 3 bb_one_meta (Some (app_ret 2))
            DRSTATECMP_LABEL_TERM true))
    (snd (drstatecmp_insert_label X86_64 4096 3 bb_one_meta (Some (app_ret 2))
            DRSTATECMP_LABEL_TERM true)) = bb_one_meta /\
  instr_get_next
    (fst (drstatecmp_insert_label X86_64 4096 3 bb_one_meta (Some (app_ret 2))
            DRSTATECMP_LABEL_TERM true))
    (snd (drstatecmp_insert_label X86_64 4096 3 bb_one_meta (Some (app_ret 2))
            DRSTATECMP_LABEL_TERM true)) = Some (app_ret 2).
Proof.
  assert (~ In 3%nat (addrs bb_one_meta)) as H
      by (cbn; intros [H|[H|[H|[]]]]; discriminate H).
  assert (NoDup (addrs bb_one_meta)) as Hnd
      by (apply (proj1 (wf_block_spec 3 bb_one_meta)); reflexivity).
  assert (In (app_ret 2) bb_one_meta) as Hin by (right; right; left; reflexivity).
  split; [exact H|]. split; [exact Hnd|]. split; [exact Hin|].
  destruct (insert_label_then_remove X86_64 4096 3 bb_one_meta (Some (app_ret 2))
              DRSTATECMP_LABEL_TERM true H Hnd Hin) as [Hr [_ Hp]].
  split; [exact Hr | exact Hp].
Defined.

(** The duplicator on [MOV r1,1; (instrumentation); RET], three objects
    allocated so far: six more are allocated. *)
Lemma duplicate_bb_keeps_wf_witness :
  wf_block 3 bb_one_meta = true /\
  exists res labels,
    drstatecmp_duplicate_bb X86_64 4096 3 bb_one_meta = Done (res, labels, 9%nat) /\
    wf_block 9 res = true /\
    In (orig_bb_start labels) res /\
    In (copy_bb_start labels) res /\
    In (term labels) res.
Proof.
  split; [reflexivity|].
  destruct (drstatecmp_duplicate_bb X86_64 4096 3 bb_one_meta)
    as [[[res labels] brk']| |] eqn:E.
  - destruct (duplicate_bb_keeps_wf X86_64 4096 3 bb_one_meta res labels brk'
                eq_refl E) as [-> H].
    exists res, labels. split; [reflexivity | exact H].
  - vm_compute in E. discriminate E.
  - vm_compute in E. discriminate E.
Defined.

(** The whole event on the same block: ten more objects. *)
Lemma post_instru_phase_keeps_wf_witness :
  wf_block 3 bb_one_meta = true /\
  exists res,
    drstatecmp_post_instru_phase X86_64 4096 3 bb_one_meta = Done res /\
    wf_block 13 res = true.
Proof.
  split; [reflexivity|].
  destruct (drstatecmp_post_instru_phase X86_64 4096 3 bb_one_meta) as [res| |] eqn:E.
  - exists res. split; [reflexivity|].
    apply (post_instru_phase_keeps_wf X86_64 4096 3 bb_one_meta res eq_refl E).
  - vm_compute in E. discriminate E.
  - vm_compute in E. discriminate E.
Defined.

(** [MOV r1,1; (instrumentation); RET] has one instrumentation
    instruction. *)
Lemma one_meta_block_clean_copy_witness :
  wf_block 3 bb_one_meta = true /\
  existsb instr_is_app bb_one_meta = true /\
  app_side_effect_free bb_one_meta = true /\
  (length (filter instr_meta bb_one_meta) <= 1)%nat /\
  exists res before C D,
    drstatecmp_post_instru_phase X86_64 4096 3 bb_one_meta = Done res /\
    res = before ++
          label_instr X86_64 4096 7 DRSTATECMP_LABEL_COPY_BB :: C ++
          clean_call_instr 12 drstatecmp_compare_state_call_fn [] ::
          label_instr X86_64 4096 8 DRSTATECMP_LABEL_TERM :: D /\
    contents (C ++ D) = contents (app_instrs bb_one_meta) /\
    forallb instr_is_app (C ++ D) = true.
Proof.
  assert (length (filter instr_meta bb_one_meta) <= 1)%nat as H by (cbn; lia).
  split; [reflexivity|]. split; [reflexivity|]. split; [reflexivity|].
  split; [exact H|].
  apply (one_meta_block_clean_copy X86_64 4096 3 bb_one_meta eq_refl eq_refl eq_refl H).
Defined.

(** The instrumented run left 99 in [xbx], the copy 0, everything else
    agrees. *)
Lemma single_register_is_named_witness :
  In (REG "xbx") (compared_fields X86_64 32 8) /\
  mc_reg (mc_reg_set "xbx" 99) "xbx" <> mc_reg mc_zero "xbx" /\
  (forall f, In f (compared_fields X86_64 32 8) -> f <> REG "xbx" ->
             field_agrees 64 (mc_reg_set "xbx" 99) mc_zero f) /\
  drstatecmp_compare_state_call X86_64 32 8 64 2688 7
    (mk_saved_states mc_zero (mc_reg_set "xbx" 99)) mc_zero = Some "xbx".
Proof.
  assert (In (REG "xbx") (compared_fields X86_64 32 8)) as H1
      by (do 4 right; left; reflexivity).
  assert (mc_reg (mc_reg_set "xbx" 99) "xbx" <> mc_reg mc_zero "xbx") as H2
      by (cbn; discriminate).
  assert (forall f, In f (compared_fields X86_64 32 8) -> f <> REG "xbx" ->
                    field_agrees 64 (mc_reg_set "xbx" 99) mc_zero f) as H3.
  { intros [n|i|i] _ Hn; cbn; try reflexivity.
    destruct (String.eqb_spec n "xbx") as [->|_]; [now elim Hn | reflexivity]. }
  split; [exact H1|]. split; [exact H2|]. split; [exact H3|].
  apply (single_register_is_named X86_64 32 8 64 2688 7
           (mk_saved_states mc_zero (mc_reg_set "xbx" 99)) mc_zero "xbx" H1 H2 H3).
Defined.

(** The original part and the copy both write 5 to [xax]. *)
Lemma reexecution_transparent_witness :
  (forall s s', same_registers s s' ->
                same_registers (reg_write "xax" 5 s) (reg_write "xax" 5 s')) /\
  fst (fst (reexecution X86_64 32 8 64 2688 7 (reg_write "xax" 5) (reg_write "xax" 5)
              zero_states mc_zero)) = None /\
  same_registers
    (snd (reexecution X86_64 32 8 64 2688 7 (reg_write "xax" 5) (reg_write "xax" 5)
            zero_states mc_zero))
    (reg_write "xax" 5 mc_zero).
Proof.
  assert (forall s s', same_registers s s' ->
                       same_registers (reg_write "xax" 5 s) (reg_write "xax" 5 s')) as H.
  { intros s s' [H1 [H2 H3]]. split; [|split]; cbn; intros; auto.
    destruct (String.eqb name "xax"); auto. }
  split; [exact H|].
  apply (reexecution_transparent X86_64 32 8 64 2688 7 (reg_write "xax" 5)
           (reg_write "xax" 5) zero_states mc_zero H).
Defined.

(** [init(); init(); init(); exit(); exit(); exit();] from the state at
    load. *)
Lemma nested_init_exit_witness :
  fw_grants_all fw_ok = true /\
  drstatecmp_init_count module_at_load = 0 /\
  (1 <= 3)%nat /\
  Z.of_nat 3 < 2 ^ 31 /\
  call_n (drstatecmp_init fw_ok) 3 module_at_load =
    ([Returned DRSTATECMP_SUCCESS; Returned DRSTATECMP_ERROR_ALREADY_INITIALIZED;
      Returned DRSTATECMP_ERROR_ALREADY_INITIALIZED],
     mk_module 3 0 4096 registration_calls) /\
  call_n (drstatecmp_exit fw_ok) 3 (mk_module 3 0 4096 registration_calls) =
    ([Returned DRSTATECMP_ERROR_NOT_INITIALIZED; Returned DRSTATECMP_ERROR_NOT_INITIALIZED;
      Returned DRSTATECMP_SUCCESS],
     mk_module 0 0 4096 (registration_calls ++ teardown_calls 0)).
Proof.
  assert (1 <= 3)%nat as Hn by lia.
  assert (Z.of_nat 3 < 2 ^ 31) as Hb by reflexivity.
  split; [reflexivity|]. split; [reflexivity|]. split; [exact Hn|]. split; [exact Hb|].
  apply (nested_init_exit fw_ok module_at_load 3 eq_refl eq_refl Hn Hb).
Defined.

(** The framework refuses the thread-exit event: [init] stops after five
    of the six calls. *)
Lemma init_stops_at_first_failure_witness :
  drstatecmp_init_count module_at_load = 0 /\
  calls (snd (drstatecmp_init fw_refuses_thread_exit module_at_load)) =
    [drmgr_init; drmgr_register_tls_field;
     drmgr_reserve_note_range DRSTATECMP_LABEL_COUNT;
     drmgr_register_thread_init_event; drmgr_register_thread_exit_event] /\
  fst (drstatecmp_init fw_refuses_thread_exit module_at_load) =
    Returned DRSTATECMP_ERROR /\
  drstatecmp_init_count (snd (drstatecmp_init fw_refuses_thread_exit module_at_load)) = 1.
Proof.
  split; [reflexivity|].
  destruct (init_stops_at_first_failure fw_refuses_thread_exit module_at_load eq_refl)
    as [Hk [Hr [Hc _]]].
  split; [exact Hk|]. split; [exact Hr | exact Hc].
Defined.

(** The framework refuses to give the slot back: [exit] stops after three
    of the five calls. *)
Lemma exit_stops_at_first_failure_witness :
  drstatecmp_init_count (snd (drstatecmp_init fw_ok module_at_load)) = 1 /\
  calls (snd (drstatecmp_exit fw_keeps_tls_field
                (snd (drstatecmp_init fw_ok module_at_load)))) =
    registration_calls ++
    [drmgr_unregister_thread_init_event; drmgr_unregister_thread_exit_event;
     drmgr_unregister_tls_field 0] /\
  fst (drstatecmp_exit fw_keeps_tls_field
         (snd (drstatecmp_init fw_ok module_at_load))) = Returned DRSTATECMP_ERROR /\
  drstatecmp_init_count
    (snd (drstatecmp_exit fw_keeps_tls_field
            (snd (drstatecmp_init fw_ok module_at_load)))) = 0.
Proof.
  split; [reflexivity|].
  destruct (exit_stops_at_first_failure fw_keeps_tls_field
              (snd (drstatecmp_init fw_ok module_at_load)) eq_refl)
    as [Hk [Hr [Hc _]]].
  split; [exact Hk|]. split; [exact Hr | exact Hc].
Defined.

(** A release build, no marker values left. *)
Lemma note_exhaustion_witness :
  drstatecmp_init_count module_at_load = 0 /\
  fw_tls_field fw_no_notes <> -1 /\
  fw_note_range fw_no_notes = DRMGR_NOTE_NONE /\
  drstatecmp_init fw_no_notes module_at_load =
    (Returned DRSTATECMP_SUCCESS,
     mk_module 1 0 DRMGR_NOTE_NONE registration_calls) /\
  forall i, instr_note i = DRMGR_NOTE_NONE ->
            match_label_val X86_64
              (label_base (snd (drstatecmp_init fw_no_notes module_at_load))) i
              DRSTATECMP_LABEL_TERM = true.
Proof.
  assert (fw_tls_field fw_no_notes <> -1) as Ht by (cbn; discriminate).
  split; [reflexivity|]. split; [exact Ht|]. split; [reflexivity|].
  apply (proj2 (note_exhaustion fw_no_notes X86_64 module_at_load eq_refl Ht eq_refl)
           eq_refl eq_refl eq_refl eq_refl).
Defined.

(** A thread that starts with slot 0. *)
Lemma clean_calls_on_ready_thread_witness :
  0 <= 0 /\
  thread_states 0 (drstatecmp_thread_init 0 zero_states thread_at_start) =
    Ran (th_next thread_at_start, zero_states).
Proof.
  assert (0 <= 0) as H by lia.
  split; [exact H|].
  apply (proj1 (clean_calls_on_ready_thread X86_64 32 8 64 2688 7 0 H)).
Defined.

(** A thread the start callback has not run on. *)
Lemma clean_calls_without_slot_witness :
  drmgr_get_tls_field thread_at_start 0 = None /\
  restore_state_on_thread 2688 7 0 thread_at_start mc_zero = NullPointer /\
  compare_state_on_thread X86_64 32 8 64 2688 7 0 thread_at_start mc_zero = NullPointer /\
  drstatecmp_thread_exit 0 true thread_at_start =
    AssertionFailed "thread-local storage should not be NULL".
Proof.
  split; [reflexivity|].
  destruct (clean_calls_without_slot X86_64 32 8 64 2688 7 0 true thread_at_start
              mc_zero eq_refl) as [_ [Hr [Hc He]]].
  split; [exact Hr|]. split; [exact Hc | exact He].
Defined.

(** Start and end of a thread with slot 0. *)
Lemma thread_init_then_exit_witness :
  0 <= 0 /\
  thread_wf thread_at_start = true /\
  exists th',
    drstatecmp_thread_exit 0 true
      (drstatecmp_thread_init 0 zero_states thread_at_start) = Ran th' /\
    th_blocks th' = th_blocks thread_at_start /\
    drmgr_get_tls_field th' 0 = Some (th_next thread_at_start) /\
    thread_states 0 th' = InvalidPointer (Some (th_next thread_at_start)).
Proof.
  assert (0 <= 0) as H by lia.
  split; [exact H|]. split; [reflexivity|].
  apply (thread_init_then_exit 0 true zero_states thread_at_start H eq_refl).
Defined.

End FurtherSamples.
